(** * PropGPT front end: the response-content interpreters

    A shallow embedding of the text routines of the chat client:

    - [parseMarkdownTable], [isRange] and the chart construction of
      [GraphDisplay]        (the graph component),
    - [parseComparisonContent] and [renderMarkdown]
                            (src/components/ChatInterface.jsx),

    and of the code around them:

    - [handleSubmit] up to its request, the countdown and the body of
      [AssistantMessage]    (src/components/ChatInterface.jsx),
    - the grouping of [DataSourceDisplay]
                            (the data-source component),
    - the selection of items and [lastAssistantMessage]
                            (src/components/Configuration.jsx),
    - [getCookie]           (src/api/client.js),
    - the message list that shows the charts
                            (src/components/ChatInterface.js).

    A JavaScript string is modelled as the list of its UTF-16 code units,
    every unit below 256 (the Latin-1 range), so a unit is an [ascii].
    In that range white space, line terminators, digits and lower-casing
    are what ECMAScript defines; text with units above 255 is outside the
    model.  The [console.log] diagnostics of the graph component write to
    the console only and are left out.

    The file has the model of the interpreters first (modules [JS],
    [RegExp], [Graph] and [Chat]) and the vocabulary of the statements,
    then the model of the code around them (modules [Session],
    [Sources], [Store], [Sidebar], [Client] and [History]), then the
    lemmas and theorems, component by component. *)

From Stdlib Require Import Ascii String List ZArith NArith Lia Bool.
Import ListNotations.

Set Implicit Arguments.

(* ================================================================== *)
(** * JavaScript strings *)
(* ================================================================== *)

Module JS.

Definition jsstring := list ascii.

Definition LF : ascii := ascii_of_nat 10.
Definition CR : ascii := ascii_of_nat 13.
Definition TAB : ascii := ascii_of_nat 9.

(** [js] reads a literal the way JavaScript source does: backslash-n,
    backslash-r, backslash-t and a doubled backslash are escapes. *)
Fixpoint unescape (s : list ascii) : jsstring :=
  match s with
  | [] => []
  | "\"%char :: "n"%char :: r => LF :: unescape r
  | "\"%char :: "r"%char :: r => CR :: unescape r
  | "\"%char :: "t"%char :: r => TAB :: unescape r
  | "\"%char :: "\"%char :: r => "\"%char :: unescape r
  | c :: r => c :: unescape r
  end.

Definition js (s : string) : jsstring := unescape (list_ascii_of_string s).

(** [a === b] on strings. *)
Definition streq (a b : jsstring) : bool :=
  if list_eq_dec ascii_dec a b then true else false.

Definition code (c : ascii) : N := N_of_ascii c.

(** WhiteSpace and LineTerminator code points below 256: TAB, LF, VT, FF,
    CR, SP and NBSP.  [String.prototype.trim] and the class [\s] use this
    set. *)
Definition isWhiteSpace (c : ascii) : bool :=
  let n := code c in
  ((9 <=? n) && (n <=? 13) || (n =? 32) || (n =? 160))%N.

(** [\d] *)
Definition isDigit (c : ascii) : bool :=
  let n := code c in ((48 <=? n) && (n <=? 57))%N.

Definition digitVal (c : ascii) : N := (code c - 48)%N.

(** The value of a run of decimal digits. *)
Definition digitsVal (ds : jsstring) : N :=
  fold_left (fun a c => (10 * a + digitVal c)%N) ds 0%N.

(** [a.length === 0] *)
Definition isEmpty (A : Type) (s : list A) : bool :=
  match s with
  | [] => true
  | _ => false
  end.

(** [.] without the s flag: anything but a line terminator.  The line
    terminators of ECMAScript are LF, CR, U+2028 and U+2029; below 256
    these are LF and CR. *)
Definition isDot (c : ascii) : bool :=
  let n := code c in negb ((n =? 10) || (n =? 13))%N.

(** A line terminator, for [^] and [$] under the m flag. *)
Definition isLineTerminator (c : ascii) : bool := negb (isDot c).

Fixpoint dropWhile (A : Type) (p : A -> bool) (s : list A) : list A :=
  match s with
  | [] => []
  | c :: r => if p c then dropWhile p r else s
  end.

Fixpoint takeWhile (A : Type) (p : A -> bool) (s : list A) : list A :=
  match s with
  | [] => []
  | c :: r => if p c then c :: takeWhile p r else []
  end.

Definition trimStart (s : jsstring) : jsstring := dropWhile isWhiteSpace s.
Definition trimEnd (s : jsstring) : jsstring :=
  rev (dropWhile isWhiteSpace (rev s)).
Definition trim (s : jsstring) : jsstring := trimEnd (trimStart s).

Fixpoint startsWith (p s : jsstring) : bool :=
  match p, s with
  | [], _ => true
  | a :: p', b :: s' => Ascii.eqb a b && startsWith p' s'
  | _ :: _, [] => false
  end.

Definition endsWith (p s : jsstring) : bool := startsWith (rev p) (rev s).

Fixpoint includes (p s : jsstring) : bool :=
  startsWith p s ||
  match s with
  | [] => false
  | _ :: r => includes p r
  end.

(** [s.split(c)] for a separator of one code unit. *)
Fixpoint split (c : ascii) (s : jsstring) : list jsstring :=
  match s with
  | [] => [[]]
  | x :: r =>
      if Ascii.eqb x c then [] :: split c r
      else match split c r with
           | h :: t => (x :: h) :: t
           | [] => [[x]]
           end
  end.

(** Latin-1 lower-casing: A-Z, and U+00C0-U+00DE but for the
    multiplication sign U+00D7, move up by 32. *)
Definition lowerChar (c : ascii) : ascii :=
  let n := code c in
  if ((65 <=? n) && (n <=? 90) ||
      (192 <=? n) && (n <=? 222) && negb (n =? 215))%N
  then ascii_of_N (n + 32) else c.

Definition toLowerCase (s : jsstring) : jsstring := map lowerChar s.

(** [a.indexOf(x)] on an array of strings; [-1] when absent. *)
Fixpoint indexOfFrom (x : jsstring) (a : list jsstring) (i : Z) : Z :=
  match a with
  | [] => (-1)%Z
  | y :: r => if streq y x then i else indexOfFrom x r (i + 1)%Z
  end.

Definition indexOf (x : jsstring) (a : list jsstring) : Z := indexOfFrom x a 0.

(** [a[i]]: [None] stands for [undefined]. *)
Definition at_ (A : Type) (a : list A) (i : Z) : option A :=
  if (i <? 0)%Z then None else nth_error a (Z.to_nat i).

(** [a.slice(b, e)], negative arguments counting from the end. *)
Definition clampIndex (len i : Z) : Z :=
  if (i <? 0)%Z then Z.max (len + i) 0 else Z.min i len.

Definition slice (A : Type) (a : list A) (b e : Z) : list A :=
  let len := Z.of_nat (length a) in
  let k := clampIndex len b in
  let f := clampIndex len e in
  firstn (Z.to_nat (Z.max (f - k) 0)) (skipn (Z.to_nat k) a).

(** What a JavaScript statement leaves: a value, or a thrown error. *)
Inductive error := TypeError.

Inductive completion (A : Type) : Type :=
| Normal (a : A)
| Throw (e : error).
Arguments Throw {A} e.

Definition bind (A B : Type) (c : completion A) (f : A -> completion B)
  : completion B :=
  match c with
  | Normal a => f a
  | Throw e => Throw e
  end.

End JS.

Import JS.

Notation "x <- c ;; k" := (bind c (fun x => k))
  (at level 61, c at next level, right associativity).

(* ================================================================== *)
(** * Regular expressions *)
(* ================================================================== *)

(** The fragment of ECMAScript regular expressions the two components
    use, with the backtracking semantics of the language: alternatives
    are tried left to right, a greedy quantifier tries the longest
    repetition first and a lazy one the shortest.  Quantifiers occur in
    the sources over single character classes only ([\s*], [\d+],
    [.*?]), and no group is nested in another. *)
Module RegExp.

Inductive regex : Type :=
| Empty
| Char (c : ascii)
| Class (p : ascii -> bool)
| Seq (r1 r2 : regex)
| Alt (r1 r2 : regex)
| Star (greedy : bool) (p : ascii -> bool)
| Group (r : regex)
| Bol
| Eol
| NotAhead (r : regex).

(** A literal run of characters. *)
Fixpoint Lit (s : jsstring) : regex :=
  match s with
  | [] => Empty
  | c :: r => Seq (Char c) (Lit r)
  end.

Definition captures := list jsstring.

(** The matcher state: the code unit before the current position
    ([None] at the start of the input), the input still ahead, and the
    groups captured so far. *)
Definition cont (R : Type) := option ascii -> jsstring -> captures -> option R.

Definition orElse (R : Type) (a b : option R) : option R :=
  match a with
  | Some v => Some v
  | None => b
  end.

Fixpoint starGreedy (R : Type) (p : ascii -> bool)
    (k : option ascii -> jsstring -> option R)
    (prev : option ascii) (s : jsstring) : option R :=
  match s with
  | c :: r =>
      if p c then orElse (starGreedy p k (Some c) r) (k prev s) else k prev s
  | [] => k prev s
  end.

Fixpoint starLazy (R : Type) (p : ascii -> bool)
    (k : option ascii -> jsstring -> option R)
    (prev : option ascii) (s : jsstring) : option R :=
  orElse (k prev s)
    match s with
    | c :: r => if p c then starLazy p k (Some c) r else None
    | [] => None
    end.

(** [^]: at the start of the input, or under the m flag after a line
    terminator. *)
Definition atBol (multiline : bool) (prev : option ascii) : bool :=
  match prev with
  | None => true
  | Some c => multiline && isLineTerminator c
  end.

(** [$]: at the end of the input, or under the m flag before a line
    terminator. *)
Definition atEol (multiline : bool) (s : jsstring) : bool :=
  match s with
  | [] => true
  | c :: _ => multiline && isLineTerminator c
  end.

Fixpoint run (multiline : bool) (r : regex) (R : Type)
    (prev : option ascii) (s : jsstring) (caps : captures) (k : cont R)
    {struct r} : option R :=
  match r with
  | Empty => k prev s caps
  | Char c =>
      match s with
      | x :: s' => if Ascii.eqb x c then k (Some x) s' caps else None
      | [] => None
      end
  | Class p =>
      match s with
      | x :: s' => if p x then k (Some x) s' caps else None
      | [] => None
      end
  | Seq r1 r2 =>
      run multiline r1 prev s caps
        (fun prev' s' caps' => run multiline r2 prev' s' caps' k)
  | Alt r1 r2 =>
      orElse (run multiline r1 prev s caps k) (run multiline r2 prev s caps k)
  | Star true p => starGreedy p (fun prev' s' => k prev' s' caps) prev s
  | Star false p => starLazy p (fun prev' s' => k prev' s' caps) prev s
  | Group r1 =>
      run multiline r1 prev s caps
        (fun prev' s' caps' =>
           k prev' s' (caps' ++ [firstn (length s - length s') s]))
  | Bol => if atBol multiline prev then k prev s caps else None
  | Eol => if atEol multiline s then k prev s caps else None
  | NotAhead r1 =>
      match run multiline r1 prev s caps (fun _ _ _ => Some tt) with
      | Some _ => None
      | None => k prev s caps
      end
  end.

(** One attempt at the current position: how many code units the match
    spans, and the captured groups. *)
Definition matchHere (multiline : bool) (r : regex)
    (prev : option ascii) (s : jsstring) : option (nat * captures) :=
  run multiline r prev s []
    (fun _ s' caps => Some (length s - length s', caps)).

(** [RegExp.prototype.exec] without the g flag: the first position, left
    to right, at which the expression matches. *)
Fixpoint execFrom (multiline : bool) (r : regex)
    (prev : option ascii) (s : jsstring) : option (nat * captures) :=
  orElse (matchHere multiline r prev s)
    match s with
    | [] => None
    | c :: s' => execFrom multiline r (Some c) s'
    end.

Definition exec (multiline : bool) (r : regex) (s : jsstring)
  : option captures :=
  option_map snd (execFrom multiline r None s).

(** [r.test(s)] *)
Definition test (multiline : bool) (r : regex) (s : jsstring) : bool :=
  match exec multiline r s with
  | Some _ => true
  | None => false
  end.

(** A replacement pattern: literal text and group references ([$1]). *)
Inductive piece := Text (t : jsstring) | Ref (n : nat).

Definition expand (tpl : list piece) (caps : captures) : jsstring :=
  concat (map (fun p => match p with
                        | Text t => t
                        | Ref n => nth (n - 1) caps []
                        end) tpl).

(** [s.replace(r, tpl)] with the g flag.  [skip] counts the code units
    of the last match still to pass over; after an empty match the scan
    moves on by one unit, which is copied. *)
Fixpoint replaceFrom (multiline : bool) (r : regex) (tpl : list piece)
    (skip : nat) (prev : option ascii) (s : jsstring) : jsstring :=
  match skip with
  | S n =>
      match s with
      | c :: s' => replaceFrom multiline r tpl n (Some c) s'
      | [] => []
      end
  | O =>
      match matchHere multiline r prev s with
      | Some (len, caps) =>
          expand tpl caps ++
          match s with
          | c :: s' =>
              match len with
              | O => c :: replaceFrom multiline r tpl 0 (Some c) s'
              | S n => replaceFrom multiline r tpl n (Some c) s'
              end
          | [] => []
          end
      | None =>
          match s with
          | c :: s' => c :: replaceFrom multiline r tpl 0 (Some c) s'
          | [] => []
          end
      end
  end.

Definition replaceAll (multiline : bool) (r : regex) (tpl : list piece)
    (s : jsstring) : jsstring :=
  replaceFrom multiline r tpl 0 None s.

End RegExp.

Import RegExp.

(* ================================================================== *)
(** * The graph component: table extraction and chart selection *)
(* ================================================================== *)

Module Graph.

(** ** Numbers *)

(** The result of [parseFloat]: [NaN], an infinity, or the decimal
    literal read, kept exactly as sign, digits and power of ten
    ([mant * 10 ^ expo]); the engine rounds that value to a double. *)
Inductive jsnum :=
| NaN
| Inf (neg : bool)
| Dec (neg : bool) (mant : N) (expo : Z).

Definition isNaN (n : jsnum) : bool :=
  match n with
  | NaN => true
  | _ => false
  end.

(** An optional sign; [true] for minus. *)
Definition readSign (s : jsstring) : bool * jsstring :=
  match s with
  | "+"%char :: r => (false, r)
  | "-"%char :: r => (true, r)
  | _ => (false, s)
  end.

(** The fraction after the integer part: the digits behind a dot. *)
Definition readFraction (s : jsstring) : jsstring * jsstring :=
  match s with
  | "."%char :: r => (takeWhile isDigit r, dropWhile isDigit r)
  | _ => ([], s)
  end.

(** The exponent part, counted only when a digit follows the e and its
    optional sign. *)
Definition readExponent (s : jsstring) : Z :=
  match s with
  | c :: r =>
      if Ascii.eqb c "e" || Ascii.eqb c "E" then
        let (eneg, r') := readSign r in
        let ed := takeWhile isDigit r' in
        if isEmpty ed then 0%Z
        else if eneg then (- Z.of_N (digitsVal ed))%Z
        else Z.of_N (digitsVal ed)
      else 0%Z
  | [] => 0%Z
  end.

(** [parseFloat(s)]: leading white space is skipped and the longest
    prefix that is a StrDecimalLiteral is read; what follows it is
    ignored. *)
Definition parseFloat (s : jsstring) : jsnum :=
  let (neg, u) := readSign (trimStart s) in
  if startsWith (js "Infinity") u then Inf neg
  else
    let ip := takeWhile isDigit u in
    let (fp, rest) := readFraction (dropWhile isDigit u) in
    if isEmpty ip && isEmpty fp then NaN
    else Dec neg (digitsVal (ip ++ fp))
             (readExponent rest - Z.of_nat (length fp)).

(** ** The table *)

Record table := { headers : list jsstring; data : list (list jsstring) }.

Definition isTableLine (l : jsstring) : bool :=
  startsWith (js "|") (trim l) && endsWith (js "|") (trim l).

(** The detection loop: [tableStart] and [tableEnd] start at [-1]; the
    loop breaks at the first other line after the table has begun. *)
Fixpoint detect (lines : list jsstring) (i tableStart tableEnd : Z)
  : Z * Z :=
  match lines with
  | [] => (tableStart, tableEnd)
  | l :: r =>
      if isTableLine l then
        detect r (i + 1) (if tableStart =? -1 then i else tableStart) i
      else if negb (tableStart =? -1) then (tableStart, tableEnd)
      else detect r (i + 1) tableStart tableEnd
  end%Z.

Definition isDivider (l : jsstring) : bool :=
  includes (js "---") l || includes (js ":--") l.

(** The divider loop over [i < Math.min(3, tableLines.length)]. *)
Fixpoint findDivider (tableLines : list jsstring) (i bound : Z) : Z :=
  match tableLines with
  | [] => -1
  | l :: r =>
      if i <? bound then
        if isDivider l then i else findDivider r (i + 1) bound
      else -1
  end%Z.

(** [l.split('|').filter(c => c.trim()).map(c => c.trim())] *)
Definition cells (l : jsstring) : list jsstring :=
  map trim (filter (fun c => negb (isEmpty (trim c))) (split "|" l)).

(** The data loop: a row is pushed only when it has as many cells as
    the header. *)
Fixpoint collectRows (hs : list jsstring) (ls : list jsstring)
  : list (list jsstring) :=
  match ls with
  | [] => []
  | l :: r =>
      let row := cells l in
      if (length row =? length hs)%nat then row :: collectRows hs r
      else collectRows hs r
  end.

Definition len (A : Type) (a : list A) : Z := Z.of_nat (length a).

Definition parseMarkdownTable (md : jsstring) : completion (option table) :=
  if isEmpty md then Normal None
  else
    let lines := split LF md in
    let (tableStart, tableEnd) := detect lines 0 (-1) (-1) in
    if (tableStart =? -1)%Z then Normal None
    else
      let tableLines := slice lines tableStart (tableEnd + 1) in
      if (len tableLines <? 3)%Z then Normal None
      else
        let dividerIndex :=
          findDivider tableLines 0 (Z.min 3 (len tableLines)) in
        if (dividerIndex =? -1)%Z then Normal None
        else
          let headerLines := slice tableLines 0 dividerIndex in
          match at_ headerLines (len headerLines - 1) with
          | None => Throw TypeError
          | Some h =>
              let hs := cells h in
              let rows :=
                collectRows hs
                  (slice tableLines (dividerIndex + 1) (len tableLines)) in
              Normal (Some {| headers := hs; data := rows |})
          end.

(** ** Classification *)

(** [/^\d+\s*-\s*\d+$/] *)
Definition rangePattern : regex :=
  Seq Bol
   (Seq (Class isDigit) (Seq (Star true isDigit)
   (Seq (Star true isWhiteSpace)
   (Seq (Char "-")
   (Seq (Star true isWhiteSpace)
   (Seq (Class isDigit) (Seq (Star true isDigit) Eol))))))).

(** [String(v)] for a value that is a string or [undefined]. *)
Definition toStr (v : option jsstring) : jsstring :=
  match v with
  | Some s => s
  | None => js "undefined"
  end.

Definition isRange (value : option jsstring) : bool :=
  test false rangePattern (toStr value).

(** [c.replace(/,/g, '')] *)
Definition stripCommas (c : jsstring) : jsstring :=
  replaceAll false (Char ",") [] c.

(** [parseFloat(row[i].replace(/,/g, ''))]; a missing cell is
    [undefined], and calling [replace] on it throws. *)
Definition cellNumber (row : list jsstring) (i : Z) : completion jsnum :=
  match at_ row i with
  | None => Throw TypeError
  | Some c => Normal (parseFloat (stripCommas c))
  end.

(** [data.every(row => !isNaN(...))], stopping at the first failure. *)
Fixpoint everyNumeric (rows : list (list jsstring)) (i : Z)
  : completion bool :=
  match rows with
  | [] => Normal true
  | row :: r =>
      n <- cellNumber row i ;;
      if isNaN n then Normal false else everyNumeric r i
  end.

Fixpoint columnNumbers (rows : list (list jsstring)) (i : Z)
  : completion (list jsnum) :=
  match rows with
  | [] => Normal []
  | row :: r =>
      n <- cellNumber row i ;;
      ns <- columnNumbers r i ;;
      Normal (n :: ns)
  end.

Record dataset := {
  label : jsstring;
  numbers : list jsnum;
  columnIndex : Z
}.

(** The column loop over [1 <= i < headers.length]; [hs] is the part of
    the header from index [i] on. *)
Fixpoint numericColumns (hs : list jsstring) (i : Z)
    (rows : list (list jsstring)) : completion (list dataset) :=
  match hs with
  | [] => Normal []
  | h :: r =>
      isNumeric <- everyNumeric rows i ;;
      if (isNumeric : bool) then
        ns <- columnNumbers rows i ;;
        ds <- numericColumns r (i + 1) rows ;;
        Normal ({| label := h; numbers := ns; columnIndex := i |} :: ds)
      else numericColumns r (i + 1) rows
  end.

(** ** Charts *)

Definition chartColors : list jsstring :=
  [ js "rgba(255, 99, 132, 0.7)";
    js "rgba(54, 162, 235, 0.7)";
    js "rgba(255, 206, 86, 0.7)";
    js "rgba(75, 192, 192, 0.7)";
    js "rgba(153, 102, 255, 0.7)";
    js "rgba(255, 159, 64, 0.7)";
    js "rgba(199, 199, 199, 0.7)";
    js "rgba(83, 102, 255, 0.7)";
    js "rgba(40, 159, 64, 0.7)";
    js "rgba(210, 99, 132, 0.7)" ].

(** [s.replace(pat, rep)] with a string pattern: the first occurrence
    only. *)
Fixpoint replaceFirst (pat rep s : jsstring) : jsstring :=
  if startsWith pat s then rep ++ skipn (length pat) s
  else match s with
       | [] => []
       | c :: r => c :: replaceFirst pat rep r
       end.

Inductive chartType := bar | line | pie | doughnut | scatter.

Inductive series :=
| Values (v : list jsnum)
| Points (p : list (option jsnum * option jsnum)).

Inductive fill :=
| Colour (c : jsstring)
| Palette (cs : list jsstring).

(** A dataset of a chart; the constants of style (border width,
    tension, point radius) are left out. *)
Record chartDataset := {
  seriesLabel : option jsstring;
  seriesData : series;
  backgroundColor : fill;
  borderColor : option jsstring
}.

Record chart := {
  type : chartType;
  title : jsstring;
  labels : option (list (option jsstring));
  datasets : list chartDataset
}.

Definition colourAt (i : nat) : jsstring :=
  nth (i mod length chartColors) chartColors [].

(** [datasets.map((ds, i) => ({label, data, backgroundColor,
    borderColor}))] *)
Fixpoint colouredFrom (i : nat) (ds : list dataset) : list chartDataset :=
  match ds with
  | [] => []
  | d :: r =>
      {| seriesLabel := Some (label d);
         seriesData := Values (numbers d);
         backgroundColor := Colour (colourAt i);
         borderColor := Some (replaceFirst (js "0.7") (js "1") (colourAt i)) |}
      :: colouredFrom (S i) r
  end.

Definition coloured (ds : list dataset) : list chartDataset :=
  colouredFrom 0 ds.

(** [tableData.data.map((row, idx) => ({x: d0[idx], y: d1[idx]}))] *)
Fixpoint scatterFrom (A : Type) (rows : list A) (idx : nat)
    (d0 d1 : list jsnum) : list (option jsnum * option jsnum) :=
  match rows with
  | [] => []
  | _ :: r => (nth_error d0 idx, nth_error d1 idx) :: scatterFrom r (S idx) d0 d1
  end.

Definition slices (labs : list (option jsstring)) (d : dataset)
    (ty : chartType) (prefix : jsstring) : chart :=
  {| type := ty;
     title := prefix ++ label d;
     labels := Some labs;
     datasets := [ {| seriesLabel := None;
                      seriesData := Values (numbers d);
                      backgroundColor := Palette chartColors;
                      borderColor := None |} ] |}.

(** The chart list, from the labels, the range flag and the numeric
    columns. *)
Definition buildCharts (rows : list (list jsstring))
    (labs : list (option jsstring)) (hasRangeLabels : bool)
    (ds : list dataset) : list chart :=
  if hasRangeLabels then
    {| type := bar; title := js "Distribution (Histogram)";
       labels := Some labs; datasets := coloured ds |}
    :: match ds with
       | d0 :: d1 :: _ =>
           [ {| type := scatter;
                title := js "Correlation: " ++ label d0 ++ js " vs " ++ label d1;
                labels := None;
                datasets :=
                  [ {| seriesLabel := Some (js "Data Points");
                       seriesData :=
                         Points (scatterFrom rows 0 (numbers d0) (numbers d1));
                       backgroundColor := Colour (colourAt 0);
                       borderColor :=
                         Some (replaceFirst (js "0.7") (js "1") (colourAt 0)) |} ]
             |} ]
       | _ => []
       end
  else
    [ {| type := bar; title := js "Comparison (Bar)";
         labels := Some labs; datasets := coloured ds |};
      {| type := line; title := js "Trend (Line)";
         labels := Some labs; datasets := coloured ds |} ]
    ++ match ds with
       | d0 :: _ => [ slices labs d0 pie (js "Distribution - ") ]
       | [] => []
       end
    ++ match ds with
       | d0 :: _ => [ slices labs d0 doughnut (js "Proportion - ") ]
       | [] => []
       end.

(** The component body up to the chart list it renders
    ([charts.slice(0, 4)]); [None] when it renders nothing. *)
Definition GraphDisplay (content : jsstring) : completion (option (list chart)) :=
  tableData <- parseMarkdownTable content ;;
  match tableData with
  | None => Normal None
  | Some t =>
      if isEmpty (data t) then Normal None
      else
        let labs := map (fun row => at_ row 0) (data t) in
        let hasRangeLabels := existsb isRange labs in
        ds <- numericColumns (slice (headers t) 1 (len (headers t))) 1 (data t) ;;
        if isEmpty ds then Normal None
        else Normal (Some (slice (buildCharts (data t) labs hasRangeLabels ds) 0 4))
  end.

End Graph.

(* ================================================================== *)
(** * The chat component: comparison splitting and text normalisation *)
(* ================================================================== *)

Module Chat.

(** ** Plain objects keyed by strings *)

(** [sections] is a plain object: its own properties in creation order,
    each holding a string.  Reading a name it does not own falls through
    to [Object.prototype]. *)
Definition object := list (jsstring * jsstring).

Definition prototypeNames : list jsstring :=
  [ js "constructor"; js "__defineGetter__"; js "__defineSetter__";
    js "hasOwnProperty"; js "__lookupGetter__"; js "__lookupSetter__";
    js "isPrototypeOf"; js "propertyIsEnumerable"; js "toString";
    js "valueOf"; js "__proto__"; js "toLocaleString" ].

Inductive value :=
| Undefined
| Str (s : jsstring)
| Inherited (name : jsstring).

Fixpoint own (o : object) (k : jsstring) : option jsstring :=
  match o with
  | [] => None
  | (k', v) :: r => if streq k' k then Some v else own r k
  end.

(** [o[k]] *)
Definition get (o : object) (k : jsstring) : value :=
  match own o k with
  | Some v => Str v
  | None =>
      if existsb (streq k) prototypeNames then Inherited k else Undefined
  end.

Fixpoint update (o : object) (k v : jsstring) : object :=
  match o with
  | [] => []
  | (k', v') :: r =>
      if streq k' k then (k', v) :: r else (k', v') :: update r k v
  end.

(** [o[k] = v] for a string [v]: an own property is overwritten in
    place, a new one is created last; the inherited [__proto__] setter
    ignores a string and creates nothing. *)
Definition set (o : object) (k v : jsstring) : object :=
  match own o k with
  | Some _ => update o k v
  | None => if streq k (js "__proto__") then o else o ++ [(k, v)]
  end.

(** [!v] is false for a non-empty string and for anything inherited. *)
Definition truthy (v : value) : bool :=
  match v with
  | Undefined => false
  | Str s => negb (isEmpty s)
  | Inherited _ => true
  end.

(** The string a value becomes on the left of [+]; the text of a
    built-in function is written as V8 prints it. *)
Definition toString (v : value) : jsstring :=
  match v with
  | Undefined => js "undefined"
  | Str s => s
  | Inherited k =>
      if streq k (js "__proto__") then js "[object Object]"
      else if streq k (js "constructor")
           then js "function Object() { [native code] }"
           else js "function " ++ k ++ js "() { [native code] }"
  end.

(** An array index: the canonical decimal form of an integer below
    [2^32 - 1]. *)
Definition isArrayIndex (k : jsstring) : bool :=
  match k with
  | [] => false
  | c :: r =>
      forallb isDigit k && (negb (Ascii.eqb c "0") || isEmpty r)
      && (digitsVal k <? 4294967295)%N
  end.

Fixpoint insertIndex (k : jsstring) (ks : list jsstring) : list jsstring :=
  match ks with
  | [] => [k]
  | k' :: r =>
      if (digitsVal k <=? digitsVal k')%N then k :: ks
      else k' :: insertIndex k r
  end.

(** [Object.keys(o)]: array indices in ascending order, then the other
    names in creation order. *)
Definition keys (o : object) : list jsstring :=
  let names := map fst o in
  fold_right insertIndex [] (filter isArrayIndex names)
  ++ filter (fun k => negb (isArrayIndex k)) names.

(** ** The comparison splitter *)

(** The header pattern: [^], then one of [###], [\[] and [\*\*], then
    [\s*], the lazy group [(.*?)], [\s*], and last one of [\]], [\*\*]
    and [$]. *)
Definition headerPattern : regex :=
  Seq Bol
   (Seq (Alt (Lit (js "###")) (Alt (Char "[") (Lit (js "**"))))
   (Seq (Star true isWhiteSpace)
   (Seq (Group (Star false isDot))
   (Seq (Star true isWhiteSpace)
        (Alt (Char "]") (Alt (Lit (js "**")) Eol)))))).

(** [None] is [null] or [undefined]. *)
Definition keyOf (v : option jsstring) : jsstring :=
  match v with
  | Some s => s
  | None => js "undefined"
  end.

Definition nonEmpty (v : option jsstring) : bool :=
  match v with
  | Some s => negb (isEmpty s)
  | None => false
  end.

Record walk := {
  currentItem : option jsstring;
  generalContent : jsstring;
  sections : object
}.

(** The item a line names as a header, if any: [Some it] when the
    callback takes the early [return], [it] being [items[itemIndex]]. *)
Definition headerItem (items normalizedItems : list jsstring)
    (line : jsstring) : option (option jsstring) :=
  let trimmedLine := trim line in
  match exec false headerPattern trimmedLine with
  | Some headerMatch =>
      let potentialItem := toLowerCase (trim (nth 0 headerMatch [])) in
      let itemIndex := indexOf potentialItem normalizedItems in
      if (itemIndex =? -1)%Z then None else Some (at_ items itemIndex)
  | None => None
  end.

(** The body of [lines.forEach]. *)
Definition visit (items normalizedItems : list jsstring)
    (w : walk) (line : jsstring) : walk :=
  match headerItem items normalizedItems line with
  | Some it =>
      {| currentItem := it;
         generalContent := generalContent w;
         sections :=
           if negb (truthy (get (sections w) (keyOf it)))
           then set (sections w) (keyOf it) []
           else sections w |}
  | None =>
      if nonEmpty (currentItem w) then
        let k := keyOf (currentItem w) in
        {| currentItem := currentItem w;
           generalContent := generalContent w;
           sections :=
             set (sections w) k
               (toString (get (sections w) k) ++ line ++ [LF]) |}
      else
        {| currentItem := currentItem w;
           generalContent := generalContent w ++ line ++ [LF];
           sections := sections w |}
  end.

(** The result [{ generalContent, sections, foundItems }]; the first
    two fields are renamed, the walk has them already. *)
Record comparison := {
  preamble : jsstring;
  panels : object;
  foundItems : list jsstring
}.

Definition start : walk :=
  {| currentItem := None; generalContent := []; sections := [] |}.

Definition walkLines (items : list jsstring) (content : jsstring) : walk :=
  fold_left (visit items (map toLowerCase items)) (split LF content) start.

Definition parseComparisonContent (content : jsstring)
    (items : list jsstring) : option comparison :=
  if (length items <=? 1)%nat then None
  else
    let w := walkLines items content in
    let found := keys (sections w) in
    if (length found <? 2)%nat then None
    else Some {| preamble := generalContent w;
                 panels := sections w;
                 foundItems := found |}.

(** ** Text normalisation before markdown rendering *)

(** [/^\[(.*?)\]$/gm] *)
Definition bracketLine : regex :=
  Seq Bol (Seq (Char "[") (Seq (Group (Star false isDot)) (Seq (Char "]") Eol))).

(** [/### (.*?)\n(?!\n)/g] *)
Definition headingBreak : regex :=
  Seq (Lit (js "### "))
   (Seq (Group (Star false isDot)) (Seq (Char LF) (NotAhead (Char LF)))).

(** The text [renderMarkdown] hands to the markdown renderer. *)
Definition renderMarkdown (content : jsstring) : jsstring :=
  replaceAll false headingBreak [Text (js "### "); Ref 1; Text [LF; LF]]
    (replaceAll true bracketLine [Text (js "### "); Ref 1] content).

End Chat.

Import Graph Chat.

(* ================================================================== *)
(** * Vocabulary of the statements *)
(* ================================================================== *)

(** ** Table extraction *)

(** The first contiguous run of table lines. *)
Definition firstRun (lines : list jsstring) : list jsstring :=
  takeWhile isTableLine (dropWhile (fun l => negb (isTableLine l)) lines).

(** The index of the first element that satisfies [p]. *)
Fixpoint position (A : Type) (p : A -> bool) (l : list A) : option nat :=
  match l with
  | [] => None
  | x :: r => if p x then Some 0%nat else option_map S (position p r)
  end.

(** Where the divider stands among the first three lines of the run. *)
Definition dividerPos (run : list jsstring) : option nat :=
  position isDivider (firstn 3 run).

(** The candidate rows that have as many cells as the header. *)
Definition rowsOf (hs : list jsstring) (ls : list jsstring)
  : list (list jsstring) :=
  filter (fun row => (length row =? length hs)%nat) (map cells ls).

(** A table as the charts use it: what the extractor returns, with at
    least one data row (without rows the component renders nothing). *)
Definition parsedTable (content : jsstring) (t : table) : Prop :=
  parseMarkdownTable content = Normal (Some t) /\ data t <> [].

(** ** Column classification and chart shape *)

Definition cellValue (i : nat) (row : list jsstring) : jsnum :=
  parseFloat (stripCommas (nth i row [])).

(** Column [i] is numeric: every row's cell parses to a number. *)
Definition isNumericColumn (rows : list (list jsstring)) (i : nat) : bool :=
  forallb (fun row => negb (isNaN (cellValue i row))) rows.

Fixpoint numericFrom (hs : list jsstring) (i : nat)
    (rows : list (list jsstring)) : list dataset :=
  match hs with
  | [] => []
  | h :: r =>
      if isNumericColumn rows i then
        {| label := h; numbers := map (cellValue i) rows;
           columnIndex := Z.of_nat i |} :: numericFrom r (S i) rows
      else numericFrom r (S i) rows
  end.

(** The numeric columns of a table, from column 1 on, in order. *)
Definition numericDatasets (t : table) : list dataset :=
  numericFrom (tl (headers t)) 1 (data t).

(** The label column. *)
Definition labelsOf (t : table) : list (option jsstring) :=
  map (fun row => nth_error row 0) (data t).

Definition points (s : series) : nat :=
  match s with
  | Values v => length v
  | Points p => length p
  end.

(** Every series of every chart has [n] data points. *)
Definition pointsPerSeries (n : nat) (cs : list chart) : Prop :=
  Forall (fun c => Forall (fun s => points (seriesData s) = n) (datasets c)) cs.

(** The series of a chart, in order. *)
Definition seriesOf (c : chart) : list series := map seriesData (datasets c).

(** One series for each numeric column, in order, holding the numbers
    of the column. *)
Definition columnSeries (ds : list dataset) : list series :=
  map (fun d => Values (numbers d)) ds.

(** The names of the series of a chart. *)
Definition seriesNames (c : chart) : list (option jsstring) :=
  map seriesLabel (datasets c).

(** ** Decimal literals *)

(** The text of a StrDecimalLiteral from its parts: an optional sign
    ([Some true] is minus), the integer digits, an optional fraction and
    an optional exponent. *)
Definition signText (sg : option bool) : jsstring :=
  match sg with
  | None => []
  | Some false => js "+"
  | Some true => js "-"
  end.

Definition isMinus (sg : option bool) : bool :=
  match sg with
  | Some true => true
  | _ => false
  end.

Definition fractionText (fp : option jsstring) : jsstring :=
  match fp with
  | None => []
  | Some f => "."%char :: f
  end.

Definition fractionDigits (fp : option jsstring) : jsstring :=
  match fp with
  | None => []
  | Some f => f
  end.

Record exponent := {
  capital : bool;
  exponentSign : option bool;
  exponentDigits : jsstring
}.

Definition exponentText (ex : option exponent) : jsstring :=
  match ex with
  | None => []
  | Some e =>
      (if capital e then "E"%char else "e"%char)
      :: signText (exponentSign e) ++ exponentDigits e
  end.

Definition exponentValue (ex : option exponent) : Z :=
  match ex with
  | None => 0%Z
  | Some e =>
      if isMinus (exponentSign e)
      then (- Z.of_N (digitsVal (exponentDigits e)))%Z
      else Z.of_N (digitsVal (exponentDigits e))
  end.

Definition digits (s : jsstring) : Prop := forallb isDigit s = true.

Definition noDigit (s : jsstring) : Prop :=
  forallb (fun c => negb (isDigit c)) s = true.

(** [numericPrefix lit v]: [lit] is a complete numeric literal and [v]
    the number it denotes. *)
Inductive numericPrefix : jsstring -> jsnum -> Prop :=
| prefixDecimal (sg : option bool) (ip : jsstring) (fp : option jsstring)
    (ex : option exponent) :
    digits ip -> digits (fractionDigits fp) ->
    (ip <> [] \/ fractionDigits fp <> []) ->
    (forall e, ex = Some e ->
               digits (exponentDigits e) /\ exponentDigits e <> []) ->
    numericPrefix
      (signText sg ++ ip ++ fractionText fp ++ exponentText ex)
      (Dec (isMinus sg) (digitsVal (ip ++ fractionDigits fp))
           (exponentValue ex - Z.of_nat (length (fractionDigits fp))))
| prefixInfinity (sg : option bool) :
    numericPrefix (signText sg ++ js "Infinity") (Inf (isMinus sg)).

(** Cell [i] of the row, commas removed, is a numeric literal of value
    [v] followed by text without digits. *)
Definition startsNumeric (i : nat) (row : list jsstring) (v : jsnum) : Prop :=
  exists cell lit tail,
    nth_error row i = Some cell /\
    stripCommas cell = lit ++ tail /\
    numericPrefix lit v /\ noDigit tail.

(** The text ahead does not go on with a digit. *)
Definition stops (s : jsstring) : Prop :=
  match s with
  | [] => True
  | c :: _ => isDigit c = false
  end.

(** ** Header lines *)

(** The trimmed line without its opening marker. *)
Definition stripMarker (t : jsstring) : option jsstring :=
  if startsWith (js "###") t then Some (skipn 3 t)
  else if startsWith (js "[") t then Some (skipn 1 t)
  else if startsWith (js "**") t then Some (skipn 2 t)
  else None.

(** The text ahead is at a closer (a bracket, two asterisks, or the end
    of the line); what follows the closer. *)
Definition afterCloser (s : jsstring) : option jsstring :=
  if startsWith (js "]") s then Some (skipn 1 s)
  else if startsWith (js "**") s then Some (skipn 2 s)
  else if isEmpty s then Some []
  else None.

Definition closes (s : jsstring) : bool :=
  match afterCloser s with
  | Some _ => true
  | None => false
  end.

(** The text up to the first closer. *)
Fixpoint beforeCloser (u : jsstring) : jsstring :=
  match u with
  | [] => []
  | c :: r => if closes u then [] else c :: beforeCloser r
  end.

(** The inner text of a header line: what stands between the marker and
    the first closer, trimmed; none when a line terminator is left
    inside it. *)
Definition headingText (t : jsstring) : option jsstring :=
  match stripMarker t with
  | None => None
  | Some u =>
      let x := trim (beforeCloser u) in
      if forallb isDot x then Some x else None
  end.

(** The three shapes the specification names: the whole trimmed line is
    a marker and the inner text, closed where the marker has a closer. *)
Definition wholeHeading (t x : jsstring) : Prop :=
  t = js "###" ++ x \/ t = js "[" ++ x ++ js "]" \/ t = js "**" ++ x ++ js "**".

(** ** Sections of a walk *)

Definition namedBy (items : list jsstring) (line : jsstring) : list jsstring :=
  match headerItem items (map toLowerCase items) line with
  | Some it => [keyOf it]
  | None => []
  end.

(** The items that header lines of the text name, one entry per item. *)
Definition namedItems (items : list jsstring) (content : jsstring)
  : list jsstring :=
  nodup (list_eq_dec ascii_dec) (flat_map (namedBy items) (split LF content)).

(** The sections that received text. *)
Definition withContent (o : object) : list jsstring :=
  map fst (filter (fun kv => negb (isEmpty (snd kv))) o).

(** The walk invariant: section names are distinct, each was named by a
    header line seen so far, and so was the active item. *)
Definition tidy (w : walk) (seen : list jsstring) : Prop :=
  NoDup (map fst (sections w)) /\
  incl (map fst (sections w)) seen /\
  (nonEmpty (currentItem w) = true -> In (keyOf (currentItem w)) seen).

(** ** Normalisation, line by line *)

(** [f] applied to every line, the lines being delimited by the line
    terminators, which are kept. *)
Fixpoint mapLines (f : jsstring -> jsstring) (cur s : jsstring) : jsstring :=
  match s with
  | [] => f cur
  | c :: r =>
      if isLineTerminator c then f cur ++ c :: mapLines f [] r
      else mapLines f (cur ++ [c]) r
  end.

(** A line that is a bracket, an inner text and a bracket becomes a
    level-3 heading. *)
Definition unbracket (l : jsstring) : jsstring :=
  if startsWith (js "[") l && endsWith (js "]") (skipn 1 l)
  then js "### " ++ removelast (skipn 1 l)
  else l.

Definition rewriteBrackets (s : jsstring) : jsstring := mapLines unbracket [] s.

(** Some ["### "] in the line is followed, up to the end of the line, by
    no line terminator. *)
Fixpoint hasHeading (l : jsstring) : bool :=
  (startsWith (js "### ") l && forallb isDot (skipn 4 l))
  || match l with
     | [] => false
     | _ :: r => hasHeading r
     end.

(** The lines joined again by LF, with one more LF after a line that
    [hasHeading] unless the next character is an LF as well. *)
Fixpoint spaceHeadings (ls : list jsstring) : jsstring :=
  match ls with
  | [] => []
  | l :: rest =>
      match rest with
      | [] => l
      | next :: after =>
          l ++ LF ::
            (if hasHeading l && negb (isEmpty next && negb (isEmpty after))
             then [LF] else [])
            ++ spaceHeadings rest
      end
  end.

(** The normalisation as the specification words it: the lines are those
    between LF; a bracketed line becomes a heading; a line beginning
    ["### "] gets a blank line after it when the next line is not
    blank. *)
Fixpoint blankAfterHeadings (ls : list jsstring) : jsstring :=
  match ls with
  | [] => []
  | l :: rest =>
      match rest with
      | [] => l
      | next :: _ =>
          l ++ LF ::
            (if startsWith (js "### ") l && negb (isEmpty (trim next))
             then [LF] else [])
            ++ blankAfterHeadings rest
      end
  end.

Definition normalizeAsSpecified (content : jsstring) : jsstring :=
  blankAfterHeadings (map unbracket (split LF content)).

(** ** Parts of the patterns, for the proofs *)

(** The last continuation of a match: it records where the match ends. *)
Definition fin (g : jsstring -> nat) : cont (nat * captures) :=
  fun _ s caps => Some (g s, caps).

Definition markerPattern : regex :=
  Alt (Lit (js "###")) (Alt (Char "[") (Lit (js "**"))).

Definition closerPattern : regex :=
  Alt (Char "]") (Alt (Lit (js "**")) Eol).

Definition innerPattern : regex :=
  Seq (Group (Star false isDot)) (Seq (Star true isWhiteSpace) closerPattern).

(** The lazy group followed by [\s*] and the closer, read directly: the
    shortest run of [.] characters after which white space leads to a
    closer; with it, the text behind the closer. *)
Fixpoint lazyInner (s : jsstring) : option (jsstring * jsstring) :=
  match afterCloser (dropWhile isWhiteSpace s) with
  | Some r => Some ([], r)
  | None =>
      match s with
      | c :: s' =>
          if isDot c
          then option_map (fun xr => (c :: fst xr, snd xr)) (lazyInner s')
          else None
      | [] => None
      end
  end.

Definition closeBracket : regex := Seq (Char "]") Eol.

Definition breakTail : regex := Seq (Char LF) (NotAhead (Char LF)).

Definition bracketTemplate : list piece := [Text (js "### "); Ref 1].

Definition breakTemplate : list piece :=
  [Text (js "### "); Ref 1; Text [LF; LF]].

Definition notLF (c : ascii) : bool := negb (Ascii.eqb c LF).

(** The code unit before the position behind [a]. *)
Definition lastOr (prev : option ascii) (a : jsstring) : option ascii :=
  match rev a with
  | [] => prev
  | c :: _ => Some c
  end.

(** The text ahead is at the end of a line. *)
Definition endLine (s : jsstring) : Prop :=
  match s with
  | [] => True
  | c :: _ => isDot c = false
  end.

(** ** Sample inputs *)

Definition sampleCities : jsstring :=
  js "| City | Price |\n| --- | --- |\n| Pune | 5000 |\n| Mumbai | 9000 |".

Definition sampleCitiesTable : table :=
  {| headers := [js "City"; js "Price"];
     data := [[js "Pune"; js "5000"]; [js "Mumbai"; js "9000"]] |}.

(** A table whose labels are ranges, with two numeric columns. *)
Definition sampleRanges : jsstring :=
  js "| Area | Flats | Share |\n| --- | --- | --- |\n| 0-500 | 12 | 40 |\n| 500 - 1000 | 18 | 60 |".

Definition sampleRangesTable : table :=
  {| headers := [js "Area"; js "Flats"; js "Share"];
     data := [[js "0-500"; js "12"; js "40"];
              [js "500 - 1000"; js "18"; js "60"]] |}.

Definition sampleNoTable : jsstring :=
  js "| City | Price |\n| Pune | 5000 |\nno divider here".

Definition sampleMalformed : jsstring :=
  js "| City | Price |\n| --- | --- |\n| Pune | 5000 | extra |\n| Mumbai | 9000 |".

Definition sampleMalformedTable : table :=
  {| headers := [js "City"; js "Price"];
     data := [[js "Mumbai"; js "9000"]] |}.

Definition dividerFirst : jsstring := js "|---|---|\n| a | b |\n| c | d |".

Definition sampleUnits : list (list jsstring) :=
  [ [js "Pune"; js "12 units"]; [js "Mumbai"; js "1,500.5 sq ft"] ].

Definition alphaBeta : list jsstring := [js "Alpha"; js "Beta"].

Definition sampleSplit : jsstring := js "### Alpha\nfoo\n### Beta\nbar\n".

(** A configuration with an item named like an inherited property. *)
Definition inheritedNames : list jsstring := [js "constructor"; js "Beta"].

Definition midWalk : walk :=
  {| currentItem := Some (js "Alpha"); generalContent := js "intro\n";
     sections := [(js "Alpha", js "foo\n")] |}.

(** ** Cells and labels of a table *)

(** A cell as the charts receive it: not empty, without white space
    around it, and without a pipe. *)
Definition cleanCell (c : jsstring) : Prop :=
  c <> [] /\ trim c = c /\ ~ In "|"%char c.

Definition blank (s : jsstring) : Prop := forallb isWhiteSpace s = true.

(** The text without a leading sign. *)
Definition unsigned (s : jsstring) : jsstring :=
  match s with
  | "+"%char :: r => r
  | "-"%char :: r => r
  | _ => s
  end.

(** After white space and an optional sign the text goes on with a
    digit, with a dot and a digit, or with the word Infinity. *)
Definition beginsNumber (s : jsstring) : bool :=
  let u := unsigned (dropWhile isWhiteSpace s) in
  startsWith (js "Infinity") u ||
  match u with
  | c :: r =>
      isDigit c ||
      (Ascii.eqb c "." && match r with
                          | d :: _ => isDigit d
                          | [] => false
                          end)
  | [] => false
  end.

(** ** A table written out *)

(** A row as markdown words it: a pipe, then each cell between two
    spaces with a pipe behind it. *)
Definition rowText (cs : list jsstring) : jsstring :=
  "|"%char :: concat (map (fun c => " "%char :: c ++ js " |") cs).

(** The divider of [n] columns. *)
Definition dividerText (n : nat) : jsstring :=
  "|"%char :: concat (repeat (js " --- |") n).

(** [lines.join('\n')] *)
Definition joinLines (ls : list jsstring) : jsstring :=
  match ls with
  | [] => []
  | l :: r => l ++ concat (map (fun x => LF :: x) r)
  end.

(** The table of these headers and rows, written out line by line. *)
Definition tableText (hs : list jsstring) (rows : list (list jsstring))
  : jsstring :=
  joinLines (rowText hs :: dividerText (length hs) :: map rowText rows).

(** A cell that can be written in one line of a table. *)
Definition lineCell (c : jsstring) : Prop := cleanCell c /\ ~ In LF c.

Definition sampleTwoTables : jsstring :=
  js "| Year | Sales |\n| --- | --- |\n| 2023 | 10 |\nand the second table\n| Year | Costs |\n| --- | --- |\n| 2023 | 7 |".

Definition samplePrices : list (list jsstring) :=
  [ [js "Pune"; js "Rs 5,000"]; [js "Mumbai"; js "9,000"] ].

(** Digits up to the end of the text, one at least. *)
Definition digitsToEnd (s : jsstring) : bool :=
  match s with
  | d :: r => isDigit d && isEmpty (dropWhile isDigit r)
  | [] => false
  end.

(** A hyphen, white space and digits up to the end. *)
Definition hyphenToEnd (s : jsstring) : bool :=
  match s with
  | c :: r => Ascii.eqb c "-" && digitsToEnd (dropWhile isWhiteSpace r)
  | [] => false
  end.

(** One or more digits, white space, a hyphen, white space, one or more
    digits, and nothing else: the shape read from left to right. *)
Definition rangeShape (s : jsstring) : bool :=
  match s with
  | d :: r =>
      isDigit d && hyphenToEnd (dropWhile isWhiteSpace (dropWhile isDigit r))
  | [] => false
  end.

Definition digitsThenEnd : regex :=
  Seq (Class isDigit) (Seq (Star true isDigit) Eol).

Definition hyphenTail : regex :=
  Seq (Char "-") (Seq (Star true isWhiteSpace) digitsThenEnd).

Definition spacedTail : regex := Seq (Star true isWhiteSpace) hyphenTail.

(** ** The comparison as a whole *)

(** The line is no heading of a configured item. *)
Definition plainLine (items : list jsstring) (l : jsstring) : bool :=
  isEmpty (namedBy items l).

(** The lines put together again, each with its line feed. *)
Definition unlines (ls : list jsstring) : jsstring :=
  concat (map (fun l => l ++ [LF]) ls).

(** The names in the order of their first occurrence, repeats left
    out. *)
Fixpoint firsts (l : list jsstring) : list jsstring :=
  match l with
  | [] => []
  | x :: r => x :: filter (fun y => negb (streq y x)) (firsts r)
  end.

(** The name of a property every plain object inherits from
    [Object.prototype]. *)
Definition inherited (k : jsstring) : bool :=
  existsb (streq k) prototypeNames.

(** A name that [Object.keys] lists in creation order and that reads
    as [undefined] until it is set: no array index and no inherited
    name. *)
Definition ordinaryName (k : jsstring) : Prop :=
  isArrayIndex k = false /\ inherited k = false.

(** The lines of item [k]: the plain lines that stand under a heading
    of [k], up to the next heading of a configured item.  [active]
    tells whether the lines ahead stand under such a heading already. *)
Fixpoint linesUnder (items : list jsstring) (k : jsstring) (active : bool)
    (lines : list jsstring) : list jsstring :=
  match lines with
  | [] => []
  | l :: r =>
      match namedBy items l with
      | k' :: _ => linesUnder items k (streq k' k) r
      | [] =>
          if active then l :: linesUnder items k active r
          else linesUnder items k active r
      end
  end.

(** The walk is under a heading of [k]. *)
Definition under (k : jsstring) (w : walk) : bool :=
  nonEmpty (currentItem w) && streq (keyOf (currentItem w)) k.

Definition sampleIntro : jsstring :=
  js "Both are fine.\n### Beta\nbar\n### Alpha\nfoo".

Definition sampleIntroSplit : comparison :=
  {| preamble := js "Both are fine.\n";
     panels := [(js "Beta", js "bar\n"); (js "Alpha", js "foo\n")];
     foundItems := [js "Beta"; js "Alpha"] |}.

(** The names of [l] that are not among [old]. *)
Definition fresh (old l : list jsstring) : list jsstring :=
  filter (fun y => negb (existsb (streq y) old)) l.

Definition sectionNames (w : walk) : list jsstring := map fst (sections w).

(** The active item, when it has a name, owns a section. *)
Definition settled (w : walk) : Prop :=
  nonEmpty (currentItem w) = true ->
  In (keyOf (currentItem w)) (sectionNames w).

(** ** Normalisation, pass by pass *)

(** The second pass on a text: the blank lines after headings. *)
Definition breaks (s : jsstring) : jsstring := spaceHeadings (split LF s).

(** The lines that are not empty. *)
Definition textLines (ls : list jsstring) : list jsstring :=
  filter (fun l => negb (isEmpty l)) ls.

Definition sampleAnswer : jsstring :=
  js "[Pune]\nprices rose\n\n### Mumbai\nprices fell".

(* ================================================================== *)
(** * The chat component: sending a query and showing the answer *)
(* ================================================================== *)

(** [handleSubmit] up to the request it sends, the countdown it starts,
    and the body of [AssistantMessage]
    (src/components/ChatInterface.jsx). *)
Module Session.

(** ** The request *)

(** What the component reads from the application state. *)
Record settings := {
  comparisonType : jsstring;
  selectedItems : list jsstring;
  selectedCategories : list jsstring;
  selectedYears : list Z;
  mappingLLMProvider : jsstring;
  responseLLMProvider : jsstring
}.

(** [requestData]; [years] is [None] for [null]. *)
Record request := {
  query : jsstring;
  items : list jsstring;
  categories : list jsstring;
  comparison_type : jsstring;
  mapping_llm_provider : jsstring;
  response_llm_provider : jsstring;
  years : option (list Z)
}.

(** [p.toLowerCase().replace(' ', '_')]: the pattern is a string, so
    its first occurrence only is replaced. *)
Definition providerKey (p : jsstring) : jsstring :=
  replaceFirst (js " ") (js "_") (toLowerCase p).

Definition requestData (st : settings) (userQuery : jsstring) : request :=
  {| query := userQuery;
     items := selectedItems st;
     categories := map toLowerCase (selectedCategories st);
     comparison_type := comparisonType st;
     mapping_llm_provider := providerKey (mappingLLMProvider st);
     response_llm_provider := providerKey (responseLLMProvider st);
     years := if streq (toLowerCase (comparisonType st)) (js "project")
              then None else Some (selectedYears st) |}.

(** ** The time estimate *)

(** [s.match(r)] with the g flag, as the list of the matched texts from
    left to right.  [skip] counts the code units of the last match still
    to pass over; after an empty match the scan moves on by one unit. *)
Fixpoint matchesFrom (multiline : bool) (r : regex) (skip : nat)
    (prev : option ascii) (s : jsstring) : list jsstring :=
  match skip with
  | S n =>
      match s with
      | c :: s' => matchesFrom multiline r n (Some c) s'
      | [] => []
      end
  | O =>
      match matchHere multiline r prev s with
      | Some (len, _) =>
          firstn len s ::
          match s with
          | c :: s' =>
              match len with
              | O => matchesFrom multiline r 0 (Some c) s'
              | S n => matchesFrom multiline r n (Some c) s'
              end
          | [] => []
          end
      | None =>
          match s with
          | c :: s' => matchesFrom multiline r 0 (Some c) s'
          | [] => []
          end
      end
  end.

(** [null] when nothing matches. *)
Definition matchAll (multiline : bool) (r : regex) (s : jsstring)
  : option (list jsstring) :=
  match matchesFrom multiline r 0 None s with
  | [] => None
  | ms => Some ms
  end.

(** A lower-case letter of a pattern under the i flag: the code units
    whose lower case it is. *)
Definition letter (c : ascii) : regex :=
  Class (fun x => Ascii.eqb (lowerChar x) c).

(** [/and|\?|\n/gi] *)
Definition questionPattern : regex :=
  Alt (Seq (letter "a") (Seq (letter "n") (letter "d")))
      (Alt (Char "?") (Char LF)).

(** [(userQuery.match(...) || []).length + 1] *)
Definition qCount (userQuery : jsstring) : Z :=
  len (match matchAll false questionPattern userQuery with
       | Some ms => ms
       | None => []
       end) + 1.

Definition estimatedSeconds (st : settings) (userQuery : jsstring) : Z :=
  Z.max 55 (10 + len (selectedItems st) * 5
               + len (selectedCategories st) * 3
               + qCount userQuery * 10).

(** ** Submitting *)

(** What [handleSubmit] does before it awaits the answer: nothing, an
    alert, or the user message shown, the request sent and the countdown
    set. *)
Inductive submission :=
| Ignored
| Alerted (text : jsstring)
| Sent (userMessage : jsstring) (sent : request) (countdown : Z).

Definition handleSubmit (st : settings) (inputValue : jsstring) : submission :=
  if isEmpty (trim inputValue) then Ignored
  else if isEmpty (selectedItems st) then
    Alerted (js "Please select at least one " ++ comparisonType st
             ++ js " to analyze.")
  else if isEmpty (selectedCategories st) then
    Alerted (js "Please select at least one category to analyze.")
  else
    let userQuery := trim inputValue in
    Sent userQuery (requestData st userQuery) (estimatedSeconds st userQuery).

(** The countdown callback, run once a second. *)
Definition tick (prev : Z) : Z :=
  if (prev <=? 1)%Z then 0%Z else (prev - 1)%Z.

(** ** Showing an answer *)

Record panel := { heading : jsstring; body : jsstring }.

(** The body of an assistant message: the whole text, or the optional
    introduction, the grid class and the panels.  Each text is what the
    markdown renderer is given; the footer with the meta data is left
    out. *)
Inductive messageBody :=
| Whole (text : jsstring)
| Compared (intro : option jsstring) (grid : jsstring) (cols : list panel).

Definition gridClass (n : nat) : jsstring :=
  if (n =? 2)%nat then js "md:grid-cols-2"
  else if (3 <=? n)%nat then js "md:grid-cols-3"
  else [].

(** [renderMarkdown(v)] for a value read from [sections]: only a string
    has [replace]. *)
Definition renderValue (v : value) : completion jsstring :=
  match v with
  | Str s => Normal (renderMarkdown s)
  | _ => Throw TypeError
  end.

Fixpoint renderPanels (sections : object) (names : list jsstring)
  : completion (list panel) :=
  match names with
  | [] => Normal []
  | itemName :: r =>
      b <- renderValue (get sections itemName) ;;
      ps <- renderPanels sections r ;;
      Normal ({| heading := itemName; body := b |} :: ps)
  end.

Definition AssistantMessage (content : jsstring) (selectedItems : list jsstring)
  : completion messageBody :=
  match parseComparisonContent content selectedItems with
  | Some comparison =>
      let intro :=
        if isEmpty (trim (preamble comparison)) then None
        else Some (renderMarkdown (preamble comparison)) in
      cols <- renderPanels (panels comparison) (foundItems comparison) ;;
      Normal (Compared intro (gridClass (length (foundItems comparison))) cols)
  | None => Normal (Whole (renderMarkdown content))
  end.

(** ** Vocabulary of the statements *)

Definition isLetter (lower upper x : ascii) : bool :=
  Ascii.eqb x lower || Ascii.eqb x upper.

(** The text ahead begins with the word "and" in any letter case. *)
Definition andAhead (s : jsstring) : bool :=
  match s with
  | a :: n :: d :: _ =>
      isLetter "a" "A" a && isLetter "n" "N" n && isLetter "d" "D" d
  | _ => false
  end.

(** The text ahead begins with a question mark or a line feed. *)
Definition signAhead (s : jsstring) : bool :=
  match s with
  | c :: _ => Ascii.eqb c "?" || Ascii.eqb c LF
  | [] => false
  end.

Definition questionMark (s : jsstring) : bool := andAhead s || signAhead s.

(** The number of positions of the text at which [questionMark] holds. *)
Fixpoint countMarks (s : jsstring) : nat :=
  (if questionMark s then 1 else 0)
  + match s with
    | [] => 0
    | _ :: r => countMarks r
    end.

Definition sampleSettings : settings :=
  {| comparisonType := js "City";
     selectedItems := [js "Pune"; js "Mumbai"];
     selectedCategories := [js "Supply"];
     selectedYears := [2023%Z; 2024%Z];
     mappingLLMProvider := js "OpenAI";
     responseLLMProvider := js "Google Gemini" |}.

Definition sampleQuery : jsstring :=
  js "Compare supply and demand. Which city leads? And why? And where? And when?".

End Session.

(* ================================================================== *)
(** * The data sources of an answer *)
(* ================================================================== *)

(** The grouping of [DataSourceDisplay], the component an assistant
    message shows its columns with. *)
Module Sources.

(** An element of [columnsWithSources]; [None] is a source that is
    [undefined] or [null]. *)
Record entry := { column : jsstring; source : option jsstring }.

(** The accumulator of the reduction: a plain object whose own
    properties hold arrays of column names, in creation order. *)
Definition groups := list (jsstring * list jsstring).

Fixpoint ownGroup (acc : groups) (k : jsstring) : option (list jsstring) :=
  match acc with
  | [] => None
  | (k', cols) :: r => if streq k' k then Some cols else ownGroup r k
  end.

(** [acc[k].push(x)] on an own array. *)
Fixpoint pushTo (acc : groups) (k x : jsstring) : groups :=
  match acc with
  | [] => []
  | (k', cols) :: r =>
      if streq k' k then (k', cols ++ [x]) :: r
      else (k', cols) :: pushTo r k x
  end.

(** [item.source || 'Unknown'] *)
Definition sourceOf (item : entry) : jsstring :=
  match source item with
  | Some s => if isEmpty s then js "Unknown" else s
  | None => js "Unknown"
  end.

(** The reducer.  A name the accumulator does not own is read from
    [Object.prototype]: what is found there is truthy and has no [push],
    so the call throws; any other name reads [undefined], and an empty
    array is stored under it first. *)
Definition collect (acc : groups) (item : entry) : completion groups :=
  let source := sourceOf item in
  match ownGroup acc source with
  | Some _ => Normal (pushTo acc source (column item))
  | None =>
      if existsb (streq source) prototypeNames then Throw TypeError
      else Normal (pushTo (acc ++ [(source, [])]) source (column item))
  end.

(** [items.reduce(collect, acc)] *)
Fixpoint reduce (acc : groups) (items : list entry) : completion groups :=
  match items with
  | [] => Normal acc
  | item :: r => acc' <- collect acc item ;; reduce acc' r
  end.

Definition groupedBySource (columnsWithSources : list entry)
  : completion groups :=
  reduce [] columnsWithSources.

Fixpoint insertEntry (e : jsstring * list jsstring) (es : groups) : groups :=
  match es with
  | [] => [e]
  | e' :: r =>
      if (digitsVal (fst e) <=? digitsVal (fst e'))%N then e :: es
      else e' :: insertEntry e r
  end.

(** [Object.entries(o)]: array indices in ascending order, then the
    other names in creation order. *)
Definition entries (o : groups) : groups :=
  fold_right insertEntry [] (filter (fun e => isArrayIndex (fst e)) o)
  ++ filter (fun e => negb (isArrayIndex (fst e))) o.

(** What the component shows: the number of columns and the groups;
    [None] when it renders nothing. *)
Record sourceView := { total : nat; grouped : groups }.

Definition DataSourceDisplay (columnsWithSources : option (list entry))
  : completion (option sourceView) :=
  match columnsWithSources with
  | None => Normal None
  | Some cws =>
      if isEmpty cws then Normal None
      else
        g <- groupedBySource cws ;;
        Normal (Some {| total := length cws; grouped := entries g |})
  end.

(** ** Vocabulary of the statements *)

(** The columns of the entries whose source is [k], in their order. *)
Definition columnsOf (k : jsstring) (items : list entry) : list jsstring :=
  map column (filter (fun item => streq (sourceOf item) k) items).

(** The grouping as one would word it: one group for each source, in
    the order of first occurrence, with the columns of that source. *)
Definition groupsOf (items : list entry) : groups :=
  map (fun k => (k, columnsOf k items)) (firsts (map sourceOf items)).

Definition sampleSources : list entry :=
  [ {| column := js "Units sold"; source := Some (js "RERA") |};
    {| column := js "Rate"; source := Some (js "IGR") |};
    {| column := js "Carpet area"; source := Some (js "RERA") |};
    {| column := js "Notes"; source := None |} ].

End Sources.

(* ================================================================== *)
(** * The chat messages *)
(* ================================================================== *)

(** A message of the chat as the application state keeps it
    (src/context/AppContext.jsx), with the fields the side bar and the
    message list read. *)
Module Store.

Record message := { role : jsstring; content : jsstring }.

End Store.

(* ================================================================== *)
(** * The configuration side bar *)
(* ================================================================== *)

(** The selection of items and the look-up of the last answer
    (src/components/Configuration.jsx). *)
Module Sidebar.

Import Store.

(** [selectedItems.filter(i => i !== item)] *)
Definition without (item : jsstring) (selectedItems : list jsstring)
  : list jsstring :=
  filter (fun i => negb (streq i item)) selectedItems.

(** What the user does to the selection: ticks the check box of an
    item, clears it (the button on the item's chip does the same), or
    chooses another comparison type. *)
Inductive change :=
| Ticked (item : jsstring)
| Cleared (item : jsstring)
| TypeChanged.

(** The new selection, and whether the alert about the maximum is
    shown. *)
Definition selectItems (selectedItems : list jsstring) (c : change)
  : list jsstring * bool :=
  match c with
  | Ticked item =>
      if (length selectedItems <? 5)%nat then (selectedItems ++ [item], false)
      else (selectedItems, true)
  | Cleared item => (without item selectedItems, false)
  | TypeChanged => ([], false)
  end.

(** [[...messages].reverse().find(m => m.role === 'assistant')] *)
Definition lastAssistantMessage (messages : list message) : option message :=
  find (fun m => streq (role m) (js "assistant")) (rev messages).

(** ** Vocabulary of the statements *)

(** The selection after a run of changes. *)
Definition selectionAfter (changes : list change) (selectedItems : list jsstring)
  : list jsstring :=
  fold_left (fun sel c => fst (selectItems sel c)) changes selectedItems.

Definition sampleChat : list message :=
  [ {| role := js "user"; content := js "prices?" |};
    {| role := js "assistant"; content := js "rising" |};
    {| role := js "user"; content := js "supply?" |};
    {| role := js "assistant"; content := js "falling" |};
    {| role := js "error"; content := js "time-out" |} ].

End Sidebar.

(* ================================================================== *)
(** * The HTTP client: the CSRF cookie *)
(* ================================================================== *)

(** [getCookie] of src/api/client.js.  [decodeURIComponent] belongs to
    the engine and can produce any code unit; it is a parameter here,
    and the statements hold whatever it does. *)
Module Client.

(** A decoded text, or the URIError of a malformed escape. *)
Inductive decoded := Decoded (s : jsstring) | URIError.

(** The cookie value found, [None] for [null], or the error thrown. *)
Inductive lookup := Found (cookieValue : option jsstring) | Failed.

Section Cookie.

Variable decodeURIComponent : jsstring -> decoded.

(** The loop over [cookies]: the first cookie that begins with the name
    and an equals sign is decoded, and the loop breaks. *)
Fixpoint scan (name : jsstring) (cookies : list jsstring) : lookup :=
  match cookies with
  | [] => Found None
  | c :: r =>
      let cookie := trim c in
      if streq (firstn (length name + 1) cookie) (name ++ js "=")
      then match decodeURIComponent (skipn (length name + 1) cookie) with
           | Decoded v => Found (Some v)
           | URIError => Failed
           end
      else scan name r
  end.

(** [getCookie(name)], given the text of [document.cookie]. *)
Definition getCookie (documentCookie name : jsstring) : lookup :=
  if negb (isEmpty documentCookie)
  then scan name (split ";" documentCookie)
  else Found None.

End Cookie.

(** ** Vocabulary of the statements *)

(** A pair as [document.cookie] words it: the name, an equals sign
    and the value. *)
Definition pairText (p : jsstring * jsstring) : jsstring :=
  fst p ++ "="%char :: snd p.

(** [document.cookie] as the browser words it: the pairs joined by a
    semicolon and a space. *)
Fixpoint cookieText (jar : list (jsstring * jsstring)) : jsstring :=
  match jar with
  | [] => []
  | p :: r =>
      match r with
      | [] => pairText p
      | _ :: _ => pairText p ++ js "; " ++ cookieText r
      end
  end.

(** The value of the first pair of that name. *)
Fixpoint valueOf (name : jsstring) (jar : list (jsstring * jsstring))
  : option jsstring :=
  match jar with
  | [] => None
  | (n, v) :: r => if streq n name then Some v else valueOf name r
  end.

(** A cookie name: no semicolon, no equals sign, no white space. *)
Definition isCookieName (n : jsstring) : Prop :=
  forallb (fun c => negb (Ascii.eqb c ";" || Ascii.eqb c "=" || isWhiteSpace c)) n
  = true.

(** A cookie value: no semicolon, no white space. *)
Definition isCookieValue (v : jsstring) : Prop :=
  forallb (fun c => negb (Ascii.eqb c ";" || isWhiteSpace c)) v = true.

(** What the look-up makes of the raw value of a cookie. *)
Definition decodedValue (decodeURIComponent : jsstring -> decoded)
    (raw : option jsstring) : lookup :=
  match raw with
  | None => Found None
  | Some v =>
      match decodeURIComponent v with
      | Decoded x => Found (Some x)
      | URIError => Failed
      end
  end.

Definition sampleJar : list (jsstring * jsstring) :=
  [ (js "sessionid", js "abc123"); (js "xcsrftoken", js "no");
    (js "csrftoken", js "t0ken") ].

End Client.

(* ================================================================== *)
(** * The message list of the first chat component *)
(* ================================================================== *)

(** The list of src/components/ChatInterface.js, which shows the charts
    of every answer. *)
Module History.

Import Store.

(** A message as shown: an error box, the text of the user, or an
    answer with its markdown text and its charts. *)
Inductive shown :=
| ErrorBox (text : jsstring)
| UserText (text : jsstring)
| Answer (markdown : jsstring) (charts : option (list chart)).

Definition showMessage (m : message) : completion shown :=
  if streq (role m) (js "error") then Normal (ErrorBox (content m))
  else if streq (role m) (js "user") then Normal (UserText (content m))
  else
    charts <- GraphDisplay (content m) ;;
    Normal (Answer (content m) charts).

(** [messages.map(...)] *)
Fixpoint showMessages (messages : list message) : completion (list shown) :=
  match messages with
  | [] => Normal []
  | m :: r =>
      s <- showMessage m ;;
      ss <- showMessages r ;;
      Normal (s :: ss)
  end.

(** ** Vocabulary of the statements *)

(** The first run of table lines of the text has three lines or more
    and begins with a divider. *)
Definition dividerLeads (text : jsstring) : Prop :=
  (3 <= length (firstRun (split LF text)))%nat /\
  isDivider (nth 0 (firstRun (split LF text)) []) = true.

End History.

(* ================================================================== *)
(** * Lists and strings *)
(* ================================================================== *)

(** Comparisons on integers that [lia] decides. *)
Ltac settle b v :=
  replace b with v
    by (symmetry;
        first [ apply Z.ltb_ge | apply Z.ltb_lt | apply Z.eqb_neq
              | apply Nat.ltb_ge | apply Nat.ltb_lt ]; lia).

Lemma takeWhile_dropWhile (A : Type) (p : A -> bool) (l : list A) :
  takeWhile p l ++ dropWhile p l = l.
Proof.
  induction l as [|x l IH]; simpl; [reflexivity|].
  destruct (p x); simpl; [now rewrite IH | reflexivity].
Qed.

Lemma takeWhile_all (A : Type) (p : A -> bool) (s : list A) :
  forallb p (takeWhile p s) = true.
Proof.
  induction s as [|c s IH]; simpl; [reflexivity|].
  destruct (p c) eqn:E; [simpl; now rewrite E|reflexivity].
Qed.

Lemma takeWhile_app_stop (A : Type) (p : A -> bool) (a : list A) (c : A) (r : list A) :
  forallb p a = true -> p c = false ->
  takeWhile p (a ++ c :: r) = a /\ dropWhile p (a ++ c :: r) = c :: r.
Proof.
  intros Ha Hc. induction a as [|x a IH]; simpl in *.
  - now rewrite Hc.
  - apply andb_true_iff in Ha. destruct Ha as [Hx Ha]. rewrite Hx.
    destruct (IH Ha) as [-> ->]. now split.
Qed.

Lemma dropWhile_all (A : Type) (p : A -> bool) (l : list A) :
  (forall x, In x l -> p x = true) -> dropWhile p l = [].
Proof.
  induction l as [|x l IH]; simpl; intros H; [reflexivity|].
  rewrite (H x) by now left. apply IH. intros y Hy. apply H. now right.
Qed.

Lemma dropWhile_idem (A : Type) (p : A -> bool) (s : list A) :
  dropWhile p (dropWhile p s) = dropWhile p s.
Proof.
  induction s as [|c s IH]; simpl; [reflexivity|].
  destruct (p c) eqn:E; [exact IH|]. simpl. now rewrite E.
Qed.

Lemma dropWhile_snoc (A : Type) (p : A -> bool) (a : list A) (c : A) :
  dropWhile p (a ++ [c]) =
  match dropWhile p a with
  | [] => if p c then [] else [c]
  | y => y ++ [c]
  end.
Proof.
  induction a as [|x a IH]; simpl; [reflexivity|].
  destruct (p x); [exact IH|reflexivity].
Qed.

Lemma dropWhile_shorter (A : Type) (p : A -> bool) (s : list A) :
  (length (dropWhile p s) <= length s)%nat.
Proof.
  induction s as [|c s IH]; simpl; [lia|]. destruct (p c); simpl; lia.
Qed.

Lemma position_lt (A : Type) (p : A -> bool) (l : list A) d :
  position p l = Some d -> (d < length l)%nat.
Proof.
  revert d; induction l as [|x l IH]; intros d; simpl; [discriminate|].
  destruct (p x); [intros [= <-]; lia|].
  destruct (position p l); simpl; [|discriminate].
  intros [= <-]. specialize (IH _ eq_refl). lia.
Qed.

Lemma position_none (A : Type) (p : A -> bool) (l : list A) :
  position p l = None <-> (forall x, In x l -> p x = false).
Proof.
  induction l as [|x l IH]; simpl.
  - split; [intros _ ? []|reflexivity].
  - destruct (p x) eqn:E.
    + split; [discriminate|]. intros H. rewrite (H x) in E by now left. discriminate.
    + destruct (position p l); simpl.
      * split; [discriminate|]. intros H.
        destruct IH as [_ IH]. discriminate IH. intros y Hy. apply H. now right.
      * split; [|reflexivity]. intros _ y [<-|Hy]; [exact E|].
        destruct IH as [IH _]. now apply IH.
Qed.

Lemma firstn_consumed (A : Type) (pre s : list A) :
  firstn (length (pre ++ s) - length s) (pre ++ s) = pre.
Proof.
  rewrite length_app.
  replace (length pre + length s - length s)%nat with (length pre) by lia.
  now rewrite firstn_app, firstn_all, Nat.sub_diag, app_nil_r.
Qed.

Lemma startsWith_prefix (p s : jsstring) :
  startsWith p s = true <-> exists r, s = p ++ r.
Proof.
  revert s. induction p as [|a p IH]; intros s; cbn [startsWith].
  - split; [intros _; now exists s|reflexivity].
  - destruct s as [|b s]; [split; [discriminate|intros [r H]; discriminate H]|].
    rewrite andb_true_iff, IH. split.
    + intros [Hab [r ->]]. apply Ascii.eqb_eq in Hab. subst. now exists r.
    + intros [r H]. injection H as -> ->. split; [apply Ascii.eqb_refl|now exists r].
Qed.

Lemma endsWith_cons (x c : ascii) (l : jsstring) :
  endsWith [x] (c :: l) =
  match l with
  | [] => Ascii.eqb x c
  | _ => endsWith [x] l
  end.
Proof.
  unfold endsWith. cbn [rev].
  destruct l as [|y l]; [cbn; now rewrite andb_true_r|].
  destruct (rev (y :: l)) as [|z zs] eqn:E.
  - apply (f_equal (@length _)) in E. rewrite length_rev in E. discriminate.
  - reflexivity.
Qed.

Lemma removelast_cons (c : ascii) (l : jsstring) :
  l <> [] -> removelast (c :: l) = c :: removelast l.
Proof. destruct l; [congruence|reflexivity]. Qed.

Lemma streq_eq (a b : jsstring) : streq a b = true <-> a = b.
Proof. unfold streq. destruct (list_eq_dec ascii_dec a b); split; congruence. Qed.

Lemma streq_refl (a : jsstring) : streq a a = true.
Proof. now apply streq_eq. Qed.

Lemma streq_neq (a b : jsstring) : streq a b = false <-> a <> b.
Proof. unfold streq. destruct (list_eq_dec ascii_dec a b); split; congruence. Qed.

Lemma trimEnd_cons (c : ascii) (s : jsstring) :
  trimEnd (c :: s) =
  match trimEnd s with
  | [] => if isWhiteSpace c then [] else [c]
  | x => c :: x
  end.
Proof.
  unfold trimEnd. cbn [rev]. rewrite dropWhile_snoc.
  destruct (dropWhile isWhiteSpace (rev s)) as [|y ys] eqn:E.
  - cbn [rev]. now destruct (isWhiteSpace c).
  - rewrite rev_app_distr. cbn [rev app].
    destruct (rev ys ++ [y]) eqn:E2; [|reflexivity].
    now destruct (rev ys).
Qed.

Lemma trimEnd_blank (s : jsstring) :
  trimEnd s = [] <-> forallb isWhiteSpace s = true.
Proof.
  induction s as [|c s IH]; [now split|].
  rewrite trimEnd_cons. cbn [forallb].
  destruct (trimEnd s) as [|x xs].
  - destruct (isWhiteSpace c); cbn [andb]; [tauto|]. split; discriminate.
  - split; [discriminate|]. intros H. apply andb_true_iff in H.
    destruct IH as [_ IH]. discriminate IH. tauto.
Qed.

Lemma at_nat (A : Type) (a : list A) (n : nat) :
  at_ a (Z.of_nat n) = nth_error a n.
Proof.
  unfold at_. settle (Z.of_nat n <? 0)%Z false.
  now rewrite Nat2Z.id.
Qed.

(** A slice between two positions of the array is the part between them.
    *)
Lemma slice_mid (A : Type) (pre run post : list A) :
  slice (pre ++ run ++ post) (Z.of_nat (length pre))
        (Z.of_nat (length pre) + Z.of_nat (length run)) = run.
Proof.
  unfold slice, clampIndex.
  rewrite !length_app.
  settle (Z.of_nat (length pre) <? 0)%Z false.
  settle (Z.of_nat (length pre) + Z.of_nat (length run) <? 0)%Z false.
  rewrite !Z.min_l by lia.
  replace (Z.max _ 0) with (Z.of_nat (length run)) by lia.
  rewrite !Nat2Z.id.
  rewrite skipn_app, skipn_all, Nat.sub_diag. simpl.
  rewrite firstn_app, firstn_all, Nat.sub_diag. simpl. apply app_nil_r.
Qed.

Lemma slice_firstn (A : Type) (a : list A) (n : nat) :
  (n <= length a)%nat -> slice a 0 (Z.of_nat n) = firstn n a.
Proof.
  intros H. unfold slice, clampIndex. simpl.
  settle (Z.of_nat n <? 0)%Z false.
  rewrite Z.min_l by lia. rewrite Z.min_l by lia.
  replace (Z.max (Z.of_nat n - 0) 0) with (Z.of_nat n) by lia.
  now rewrite Nat2Z.id.
Qed.

Lemma slice_skipn (A : Type) (a : list A) (n : nat) :
  (n <= length a)%nat -> slice a (Z.of_nat n) (Z.of_nat (length a)) = skipn n a.
Proof.
  intros H. unfold slice, clampIndex.
  settle (Z.of_nat n <? 0)%Z false.
  settle (Z.of_nat (length a) <? 0)%Z false.
  rewrite !Z.min_l by lia.
  replace (Z.max _ 0) with (Z.of_nat (length a - n)) by lia.
  rewrite !Nat2Z.id.
  rewrite <- (length_skipn n a). apply firstn_all.
Qed.

Lemma slice_tail (A : Type) (a : list A) : slice a 1 (len a) = tl a.
Proof.
  destruct a as [|x a]; [reflexivity|].
  unfold len. change 1%Z with (Z.of_nat 1).
  rewrite slice_skipn by (simpl; lia). reflexivity.
Qed.

Lemma slice_short (A : Type) (a : list A) :
  (length a <= 4)%nat -> slice a 0 4 = a.
Proof.
  intros H. unfold slice, clampIndex.
  change (0 <? 0)%Z with false. change (4 <? 0)%Z with false. cbv iota.
  rewrite (Z.min_l 0) by lia. rewrite (Z.min_r 4) by lia.
  replace (Z.max _ 0) with (Z.of_nat (length a)) by lia.
  rewrite Nat2Z.id. apply firstn_all.
Qed.

(* ================================================================== *)
(** * The table extractor *)
(* ================================================================== *)

(** Once the table has begun, the loop runs to the end of the run. *)
Lemma detect_begun (ls : list jsstring) : forall i ts te,
  ts <> (-1)%Z ->
  detect ls i ts te =
    (ts, match takeWhile isTableLine ls with
         | [] => te
         | run => (i + Z.of_nat (length run) - 1)%Z
         end).
Proof.
  induction ls as [|l ls IH]; intros i ts te Hts; simpl; [reflexivity|].
  destruct (isTableLine l) eqn:El.
  - replace (ts =? -1)%Z with false by (symmetry; apply Z.eqb_neq; exact Hts).
    rewrite IH by exact Hts.
    f_equal. destruct (takeWhile isTableLine ls) eqn:Et.
    + simpl. lia.
    + cbn [length]. lia.
  - replace (ts =? -1)%Z with false by (symmetry; apply Z.eqb_neq; exact Hts).
    reflexivity.
Qed.

(** The detection loop finds the first run and its two ends. *)
Lemma detect_fresh (ls : list jsstring) : forall i,
  (0 <= i)%Z ->
  detect ls i (-1) (-1) =
    match firstRun ls with
    | [] => ((-1)%Z, (-1)%Z)
    | run =>
        let pre := takeWhile (fun l => negb (isTableLine l)) ls in
        ((i + Z.of_nat (length pre))%Z,
         (i + Z.of_nat (length pre) + Z.of_nat (length run) - 1)%Z)
    end.
Proof.
  unfold firstRun.
  induction ls as [|l ls IH]; intros i Hi; simpl; [reflexivity|].
  destruct (isTableLine l) eqn:El; simpl.
  - rewrite El. rewrite detect_begun by lia.
    destruct (takeWhile isTableLine ls); cbn [length]; f_equal; lia.
  - rewrite IH by lia.
    destruct (takeWhile isTableLine (dropWhile _ ls)); [reflexivity|].
    cbn [length]. f_equal; lia.
Qed.

Lemma findDivider_position (ls : list jsstring) : forall i b,
  findDivider ls i (i + Z.of_nat b) =
    match position isDivider (firstn b ls) with
    | Some d => (i + Z.of_nat d)%Z
    | None => (-1)%Z
    end.
Proof.
  induction ls as [|l ls IH]; intros i b; simpl.
  - now rewrite firstn_nil.
  - destruct b as [|b]; simpl.
    + settle (i <? i + 0)%Z false. reflexivity.
    + settle (i <? i + Z.pos (Pos.of_succ_nat b))%Z true.
      destruct (isDivider l).
      * f_equal; lia.
      * replace (i + Z.pos (Pos.of_succ_nat b))%Z with ((i + 1) + Z.of_nat b)%Z by lia.
        rewrite IH. destruct (position isDivider (firstn b ls)); simpl; lia.
Qed.

Lemma collectRows_filter hs ls : collectRows hs ls = rowsOf hs ls.
Proof.
  unfold rowsOf. induction ls as [|l ls IH]; simpl; [reflexivity|].
  destruct (length (cells l) =? length hs)%nat; now rewrite IH.
Qed.

Lemma firstRun_split (ls : list jsstring) :
  exists post,
    ls = takeWhile (fun l => negb (isTableLine l)) ls ++ firstRun ls ++ post.
Proof.
  unfold firstRun.
  exists (dropWhile isTableLine (dropWhile (fun l => negb (isTableLine l)) ls)).
  now rewrite !takeWhile_dropWhile.
Qed.

(** The extractor in terms of the first run: too short a run or no
    divider among its first three lines is no table; a divider on the
    first line leaves no header line, and reading one throws; otherwise
    the header is the line before the divider and the rows are the lines
    after it that have the header's width. *)
Lemma parseMarkdownTable_run (md : jsstring) :
  parseMarkdownTable md =
    let run := firstRun (split LF md) in
    if (length run <? 3)%nat then Normal None
    else match dividerPos run with
         | None => Normal None
         | Some O => Throw TypeError
         | Some (S d) =>
             let hs := cells (nth d run []) in
             Normal (Some {| headers := hs;
                             data := rowsOf hs (skipn (S (S d)) run) |})
         end.
Proof.
  unfold parseMarkdownTable.
  destruct md as [|c md']; [reflexivity|].
  cbn [isEmpty]. set (lines := split LF (c :: md')).
  rewrite detect_fresh by lia. cbv zeta.
  destruct (firstRun_split lines) as [post Hsplit].
  destruct (firstRun lines) as [|r0 run'] eqn:Erun; [reflexivity|].
  set (pre := takeWhile (fun l => negb (isTableLine l)) lines) in *.
  set (run := r0 :: run') in *.
  settle (0 + Z.of_nat (length pre) =? -1)%Z false.
  replace (0 + Z.of_nat (length pre) + Z.of_nat (length run) - 1 + 1)%Z
    with (Z.of_nat (length pre) + Z.of_nat (length run))%Z by lia.
  rewrite Z.add_0_l.
  assert (Hs : slice lines (Z.of_nat (length pre))
                 (Z.of_nat (length pre) + Z.of_nat (length run)) = run).
  { rewrite Hsplit at 1. apply slice_mid. }
  rewrite Hs. unfold len.
  destruct (length run <? 3)%nat eqn:E3.
  - apply Nat.ltb_lt in E3.
    settle (Z.of_nat (length run) <? 3)%Z true.
    reflexivity.
  - apply Nat.ltb_ge in E3.
    settle (Z.of_nat (length run) <? 3)%Z false.
    rewrite Z.min_l by lia.
    change 3%Z with (0 + Z.of_nat 3)%Z.
    rewrite findDivider_position. fold (dividerPos run).
    destruct (dividerPos run) as [d|] eqn:Ed; [|reflexivity].
    assert (Hd : (d < 3)%nat).
    { apply position_lt in Ed. rewrite length_firstn in Ed. lia. }
    settle (0 + Z.of_nat d =? -1)%Z false.
    rewrite Z.add_0_l.
    rewrite slice_firstn by lia.
    rewrite length_firstn, Nat.min_l by lia.
    destruct d as [|d].
    + reflexivity.
    + unfold at_.
      settle (Z.of_nat (S d) - 1 <? 0)%Z false.
      replace (Z.to_nat (Z.of_nat (S d) - 1)) with d by lia.
      rewrite nth_error_firstn.
      settle (d <? S d)%nat true.
      rewrite (nth_error_nth' run []) by lia.
      replace (Z.of_nat (S d) + 1)%Z with (Z.of_nat (S (S d))) by lia.
      rewrite slice_skipn by lia.
      now rewrite collectRows_filter.
Qed.

Lemma parsed_rows_width (md : jsstring) (t : table) :
  parseMarkdownTable md = Normal (Some t) ->
  forall row, In row (data t) -> length row = length (headers t).
Proof.
  rewrite parseMarkdownTable_run. cbv zeta.
  destruct (length _ <? 3)%nat; [discriminate|].
  destruct (dividerPos _) as [[|d]|]; try discriminate.
  intros [= <-]. cbn [headers data]. unfold rowsOf.
  intros row Hrow. apply filter_In in Hrow. destruct Hrow as [_ Hrow].
  now apply Nat.eqb_eq in Hrow.
Qed.

(** The extractor throws exactly when the run has three lines or more
    and begins with the divider. *)
Lemma throws_when_divider_first (md : jsstring) :
  parseMarkdownTable md = Throw TypeError <->
  (3 <= length (firstRun (split LF md)))%nat /\
  isDivider (nth 0 (firstRun (split LF md)) []) = true.
Proof.
  rewrite parseMarkdownTable_run. cbv zeta. unfold dividerPos.
  destruct (length (firstRun (split LF md)) <? 3)%nat eqn:E.
  - apply Nat.ltb_lt in E. split; [discriminate|]. intros [H _]. lia.
  - apply Nat.ltb_ge in E.
    destruct (firstRun (split LF md)) as [|l r]; [simpl in E; lia|].
    change (firstn 3 (l :: r)) with (l :: firstn 2 r). cbn [position nth].
    destruct (isDivider l).
    + split; [now split|reflexivity].
    + destruct (position isDivider (firstn 2 r)) as [d|]; cbn [option_map];
        (split; [discriminate|]); intros [_ H]; discriminate H.
Qed.

(** C5. When no line, once trimmed, both starts and ends with a pipe, or
    the first run of such lines has two lines or fewer, or none of the
    first three lines of the run holds "---" or ":--", the table
    extractor returns null. *)
Theorem no_table_found (md : jsstring) :
  (forall l, In l (split LF md) -> isTableLine l = false) \/
  (length (firstRun (split LF md)) <= 2)%nat \/
  (forall l, In l (firstn 3 (firstRun (split LF md))) -> isDivider l = false) ->
  parseMarkdownTable md = Normal None.
Proof.
  intros H. rewrite parseMarkdownTable_run. cbv zeta.
  destruct H as [H | [H | H]].
  - unfold firstRun. rewrite dropWhile_all; [reflexivity|].
    intros l Hl. now rewrite (H l Hl).
  - replace (length _ <? 3)%nat with true by (symmetry; apply Nat.ltb_lt; lia).
    reflexivity.
  - destruct (length _ <? 3)%nat; [reflexivity|].
    apply position_none in H. unfold dividerPos. now rewrite H.
Qed.

Lemma no_table_found_witness : parseMarkdownTable sampleNoTable = Normal None.
Proof.
  apply no_table_found. right. left. vm_compute. lia.
Defined.

(** C6. When the extractor returns a table, its rows are the lines after
    the divider whose cells (split on the pipe, blank fragments dropped,
    trimmed) are as many as the header's, in order; a line with another
    count is left out without an error, so every row has exactly
    [headers.length] cells. *)
Theorem malformed_rows_dropped (md : jsstring) (t : table) :
  parseMarkdownTable md = Normal (Some t) ->
  let run := firstRun (split LF md) in
  exists d,
    dividerPos run = Some (S d) /\
    headers t = cells (nth d run []) /\
    data t = filter (fun row => (length row =? length (headers t))%nat)
               (map cells (skipn (S (S d)) run)) /\
    (forall row, In row (data t) -> length row = length (headers t)).
Proof.
  rewrite parseMarkdownTable_run. cbv zeta.
  destruct (length _ <? 3)%nat; [discriminate|].
  destruct (dividerPos _) as [[|d]|]; try discriminate.
  intros [= <-]. exists d. cbn [headers data]. repeat split.
  intros row Hrow. apply filter_In in Hrow. destruct Hrow as [_ Hrow].
  now apply Nat.eqb_eq in Hrow.
Qed.

Lemma malformed_rows_dropped_witness :
  parseMarkdownTable sampleMalformed = Normal (Some sampleMalformedTable) /\
  forall row, In row (data sampleMalformedTable) ->
              length row = length (headers sampleMalformedTable).
Proof.
  assert (H : parseMarkdownTable sampleMalformed = Normal (Some sampleMalformedTable))
    by (vm_compute; reflexivity).
  split; [exact H|].
  destruct (malformed_rows_dropped _ H) as [d [_ [_ [_ Hrows]]]]. exact Hrows.
Defined.

(** C1. On a run of table lines whose first line is the divider the
    extractor does not return: reading the header line, which is not
    there, throws a TypeError, out of the graph component as well. *)
Theorem divider_first_throws :
  parseMarkdownTable dividerFirst = Throw TypeError /\
  GraphDisplay dividerFirst = Throw TypeError.
Proof. split; vm_compute; reflexivity. Qed.

(* ================================================================== *)
(** * The chart selector *)
(* ================================================================== *)

Lemma cellNumber_value (row : list jsstring) (n : nat) :
  (n < length row)%nat ->
  cellNumber row (Z.of_nat n) = Normal (cellValue n row).
Proof.
  intros H. unfold cellNumber, cellValue. rewrite at_nat.
  now rewrite (nth_error_nth' row [] H).
Qed.

Lemma everyNumeric_pure (rows : list (list jsstring)) (n : nat) :
  (forall row, In row rows -> (n < length row)%nat) ->
  everyNumeric rows (Z.of_nat n) = Normal (isNumericColumn rows n).
Proof.
  unfold isNumericColumn.
  induction rows as [|row rows IH]; intros H; simpl; [reflexivity|].
  rewrite cellNumber_value by (apply H; now left). simpl.
  destruct (isNaN (cellValue n row)); simpl; [reflexivity|].
  apply IH. intros r Hr. apply H. now right.
Qed.

Lemma columnNumbers_pure (rows : list (list jsstring)) (n : nat) :
  (forall row, In row rows -> (n < length row)%nat) ->
  columnNumbers rows (Z.of_nat n) = Normal (map (cellValue n) rows).
Proof.
  induction rows as [|row rows IH]; intros H; simpl; [reflexivity|].
  rewrite cellNumber_value by (apply H; now left). simpl.
  rewrite IH by (intros r Hr; apply H; now right). reflexivity.
Qed.

(** On rows of the header's width the column loop throws nothing and
    yields the numeric columns. *)
Lemma numericColumns_pure (rows : list (list jsstring)) (hs : list jsstring) :
  forall n,
  (forall row, In row rows -> (n + length hs <= length row)%nat) ->
  numericColumns hs (Z.of_nat n) rows = Normal (numericFrom hs n rows).
Proof.
  induction hs as [|h hs IH]; intros n H; simpl; [reflexivity|].
  assert (Hn : forall row, In row rows -> (n < length row)%nat).
  { intros row Hr. specialize (H row Hr). simpl in H. lia. }
  rewrite everyNumeric_pure by exact Hn. simpl.
  replace (Z.of_nat n + 1)%Z with (Z.of_nat (S n)) by lia.
  rewrite IH by (intros row Hr; specialize (H row Hr); simpl in H; lia).
  destruct (isNumericColumn rows n); [|reflexivity].
  rewrite columnNumbers_pure by exact Hn. reflexivity.
Qed.

Lemma numericFrom_length (rows : list (list jsstring)) (hs : list jsstring) :
  forall n, Forall (fun d => length (numbers d) = length rows) (numericFrom hs n rows).
Proof.
  induction hs as [|h hs IH]; intros n; simpl; [constructor|].
  destruct (isNumericColumn rows n); [constructor|]; auto.
  simpl. apply length_map.
Qed.

Lemma numericFrom_numbers (rows : list (list jsstring)) (hs : list jsstring) :
  forall n d, In d (numericFrom hs n rows) ->
  exists i, numbers d = map (cellValue i) rows.
Proof.
  induction hs as [|h hs IH]; intros n d; simpl; [intros []|].
  destruct (isNumericColumn rows n).
  - intros [<-|Hd]; [now exists n|]. eapply IH; eauto.
  - intros Hd. eapply IH; eauto.
Qed.

(** The component on a parsed table: no chart without a numeric column,
    else the charts built from the labels and the numeric columns. *)
Lemma GraphDisplay_parsed (content : jsstring) (t : table) :
  parsedTable content t ->
  GraphDisplay content =
    let ds := numericDatasets t in
    if isEmpty ds then Normal None
    else Normal (Some (slice (buildCharts (data t) (labelsOf t)
                                (existsb isRange (labelsOf t)) ds) 0 4)).
Proof.
  intros [Hp Hd]. unfold GraphDisplay. rewrite Hp. simpl.
  destruct (data t) as [|r0 rows] eqn:Edata; [congruence|]. cbn [isEmpty].
  rewrite slice_tail. change 1%Z with (Z.of_nat 1).
  assert (Hcols : numericColumns (tl (headers t)) (Z.of_nat 1) (r0 :: rows) =
                  Normal (numericFrom (tl (headers t)) 1 (r0 :: rows))).
  { destruct (headers t) as [|h hs] eqn:Eh; [reflexivity|].
    apply numericColumns_pure. intros row Hr. rewrite <- Edata in Hr.
    rewrite (parsed_rows_width _ Hp row Hr), Eh. simpl. lia. }
  rewrite Hcols. simpl. unfold numericDatasets, labelsOf. rewrite Edata.
  reflexivity.
Qed.

(** The component throws only where the extractor does. *)
Lemma GraphDisplay_throws (content : jsstring) (e : error) :
  GraphDisplay content = Throw e <-> parseMarkdownTable content = Throw e.
Proof.
  destruct (parseMarkdownTable content) as [[t|]|e'] eqn:Ep.
  - destruct (data t) as [|r0 rows] eqn:Ed.
    + unfold GraphDisplay. rewrite Ep. cbn [bind]. rewrite Ed.
      split; discriminate.
    + rewrite (@GraphDisplay_parsed content t)
        by (split; [exact Ep|rewrite Ed; discriminate]).
      cbv zeta. destruct (isEmpty (numericDatasets t)); split; discriminate.
  - unfold GraphDisplay. rewrite Ep. split; discriminate.
  - unfold GraphDisplay. rewrite Ep. cbn [bind].
    destruct e, e'. split; reflexivity.
Qed.

Lemma one_series (n : nat) (s : chartDataset) :
  points (seriesData s) = n ->
  Forall (fun s => points (seriesData s) = n) [s].
Proof. intros H. apply Forall_cons; [exact H|apply Forall_nil]. Qed.

Lemma coloured_points (n : nat) (ds : list dataset) : forall i,
  Forall (fun d => length (numbers d) = n) ds ->
  Forall (fun s => points (seriesData s) = n) (colouredFrom i ds).
Proof.
  induction ds as [|d ds IH]; intros i H; simpl; [constructor|].
  apply Forall_cons_iff in H. destruct H as [Hd Hds].
  constructor; [exact Hd|]. now apply IH.
Qed.

Lemma scatterFrom_combine (A : Type) (rows : list A) (f g : A -> jsnum) :
  forall (pre : list A),
  scatterFrom rows (length pre) (map f (pre ++ rows)) (map g (pre ++ rows)) =
  map (fun p => (Some (fst p), Some (snd p))) (combine (map f rows) (map g rows)).
Proof.
  induction rows as [|r rows IH]; intros pre; simpl; [reflexivity|].
  rewrite !nth_error_map, !nth_error_app2, Nat.sub_diag by lia. simpl.
  f_equal.
  specialize (IH (pre ++ [r])). rewrite length_app in IH. simpl in IH.
  rewrite Nat.add_1_r in IH. rewrite <- !app_assoc in IH. exact IH.
Qed.

Lemma coloured_series (ds : list dataset) : forall i,
  map seriesData (colouredFrom i ds) = columnSeries ds.
Proof.
  induction ds as [|d ds IH]; intros i; simpl; [reflexivity|].
  f_equal. apply IH.
Qed.

Lemma coloured_names (ds : list dataset) : forall i,
  map seriesLabel (colouredFrom i ds) = map (fun d => Some (label d)) ds.
Proof.
  induction ds as [|d ds IH]; intros i; simpl; [reflexivity|].
  f_equal. apply IH.
Qed.

(** C7. For a parsed table with [n] data rows: every numeric column
    holds [n] numbers; without a numeric column there is no chart; with
    one and a continuous label column the charts are bar, line, pie and
    doughnut in that order, over the label column, the bar and the line
    chart with one series for each numeric column, named by its header
    and holding its [n] numbers, the pie and the doughnut chart with the
    one series of the first numeric column; with range labels they are
    bar, again with one series for each numeric column, and scatter
    exactly when two numeric columns exist, the scatter pairing the
    first numeric column with the second row by row. *)
Theorem chart_selection (content : jsstring) (t : table) :
  parsedTable content t ->
  let n := length (data t) in
  let ds := numericDatasets t in
  let isRangeShape := existsb isRange (labelsOf t) in
  Forall (fun d => length (numbers d) = n) ds /\
  (ds = [] -> GraphDisplay content = Normal None) /\
  (ds <> [] -> isRangeShape = false ->
   exists cs, GraphDisplay content = Normal (Some cs) /\
     map type cs = [bar; line; pie; doughnut] /\
     pointsPerSeries n cs /\
     map seriesOf cs =
       [columnSeries ds; columnSeries ds;
        columnSeries (firstn 1 ds); columnSeries (firstn 1 ds)] /\
     map seriesNames (firstn 2 cs) =
       [map (fun d => Some (label d)) ds; map (fun d => Some (label d)) ds] /\
     Forall (fun c => labels c = Some (labelsOf t)) cs) /\
  (ds <> [] -> isRangeShape = true ->
   exists cs, GraphDisplay content = Normal (Some cs) /\
     map type cs = bar :: (if (2 <=? length ds)%nat then [scatter] else []) /\
     pointsPerSeries n cs /\
     map seriesOf (firstn 1 cs) = [columnSeries ds] /\
     map seriesNames (firstn 1 cs) = [map (fun d => Some (label d)) ds] /\
     map labels (firstn 1 cs) = [Some (labelsOf t)] /\
     forall d0 d1 rest, ds = d0 :: d1 :: rest ->
       exists c, nth_error cs 1 = Some c /\
         map seriesData (datasets c) =
           [Points (map (fun p => (Some (fst p), Some (snd p)))
                        (combine (numbers d0) (numbers d1)))]).
Proof.
  intros Hp n ds isRangeShape.
  assert (Hlen : Forall (fun d => length (numbers d) = n) ds)
    by apply numericFrom_length.
  pose proof (GraphDisplay_parsed Hp) as HG. cbv zeta in HG. fold ds in HG.
  fold isRangeShape in HG.
  split; [exact Hlen|]. split; [|split].
  - intros E. rewrite HG, E. reflexivity.
  - intros Hne Hr. rewrite Hr in HG.
    destruct ds as [|d0 ds'] eqn:Eds; [congruence|].
    assert (Hc : Forall (fun s => points (seriesData s) = n) (coloured (d0 :: ds')))
      by (apply coloured_points; assumption).
    apply Forall_cons_iff in Hlen. destruct Hlen as [H0 _].
    unfold buildCharts in HG. cbn [app isEmpty] in HG.
    rewrite slice_short in HG by (simpl; lia).
    eexists. split; [exact HG|]. split; [reflexivity|]. split; [|split; [|split]].
    + unfold pointsPerSeries.
      repeat (apply Forall_cons; [first [exact Hc | now apply one_series]|]).
      apply Forall_nil.
    + cbn [map seriesOf datasets slices firstn columnSeries numbers seriesData].
      unfold coloured. rewrite (coloured_series (d0 :: ds') 0). reflexivity.
    + cbn [map firstn seriesNames datasets].
      unfold coloured. rewrite (coloured_names (d0 :: ds') 0). reflexivity.
    + repeat (apply Forall_cons; [reflexivity|]). apply Forall_nil.
  - intros Hne Hr. rewrite Hr in HG.
    destruct ds as [|d0 ds'] eqn:Eds; [congruence|].
    assert (Hc : Forall (fun s => points (seriesData s) = n) (coloured (d0 :: ds')))
      by (apply coloured_points; assumption).
    unfold buildCharts in HG. cbn [isEmpty] in HG.
    destruct ds' as [|d1 ds''].
    + rewrite slice_short in HG by (simpl; lia).
      eexists. split; [exact HG|]. split; [reflexivity|].
      split; [|split; [|split; [|split]]].
      * unfold pointsPerSeries.
        repeat (apply Forall_cons; [exact Hc|]). apply Forall_nil.
      * cbn [map firstn seriesOf datasets]. unfold coloured.
        rewrite (coloured_series [d0] 0). reflexivity.
      * cbn [map firstn seriesNames datasets]. unfold coloured.
        rewrite (coloured_names [d0] 0). reflexivity.
      * reflexivity.
      * intros ? ? ? [=].
    + assert (Hsc : scatterFrom (data t) 0 (numbers d0) (numbers d1) =
                    map (fun p => (Some (fst p), Some (snd p)))
                        (combine (numbers d0) (numbers d1))).
      { destruct (@numericFrom_numbers (data t) (tl (headers t)) 1 d0) as [i0 E0].
        { fold (numericDatasets t). fold ds. rewrite Eds. now left. }
        destruct (@numericFrom_numbers (data t) (tl (headers t)) 1 d1) as [i1 E1].
        { fold (numericDatasets t). fold ds. rewrite Eds. right. now left. }
        rewrite E0, E1. apply (scatterFrom_combine (data t) (cellValue i0) (cellValue i1) []). }
      rewrite slice_short in HG by (simpl; lia). rewrite Hsc in HG.
      eexists. split; [exact HG|]. split; [reflexivity|].
      split; [|split; [|split; [|split]]].
      * apply Forall_cons_iff in Hlen. destruct Hlen as [H0 Hl'].
        apply Forall_cons_iff in Hl'. destruct Hl' as [H1 _].
        unfold pointsPerSeries.
        apply Forall_cons; [exact Hc|].
        apply Forall_cons; [|apply Forall_nil].
        apply one_series. cbn [seriesData points].
        rewrite length_map, length_combine. lia.
      * cbn [map firstn seriesOf datasets]. unfold coloured.
        rewrite (coloured_series (d0 :: d1 :: ds'') 0). reflexivity.
      * cbn [map firstn seriesNames datasets]. unfold coloured.
        rewrite (coloured_names (d0 :: d1 :: ds'') 0). reflexivity.
      * reflexivity.
      * intros e0 e1 rest [= <- <- <-].
        eexists. split; [reflexivity|]. reflexivity.
Qed.

Lemma chart_selection_witness :
  (exists cs,
     GraphDisplay sampleCities = Normal (Some cs) /\
     map type cs = [bar; line; pie; doughnut] /\
     pointsPerSeries 2 cs /\
     map seriesOf cs =
       let prices := [Values [parseFloat (js "5000"); parseFloat (js "9000")]] in
       [prices; prices; prices; prices]) /\
  (exists cs,
     GraphDisplay sampleRanges = Normal (Some cs) /\
     map type cs = [bar; scatter] /\
     pointsPerSeries 2 cs /\
     map seriesOf cs =
       [ [Values [parseFloat (js "12"); parseFloat (js "18")];
          Values [parseFloat (js "40"); parseFloat (js "60")]];
         [Points [(Some (parseFloat (js "12")), Some (parseFloat (js "40")));
                  (Some (parseFloat (js "18")), Some (parseFloat (js "60")))]] ]).
Proof.
  assert (Hp : parsedTable sampleCities sampleCitiesTable)
    by (split; [vm_compute; reflexivity|discriminate]).
  assert (Hq : parsedTable sampleRanges sampleRangesTable)
    by (split; [vm_compute; reflexivity|discriminate]).
  destruct (chart_selection Hp) as [_ [_ [Hc _]]].
  destruct (chart_selection Hq) as [_ [_ [_ Hr]]].
  split.
  - destruct Hc as [cs [HG [Ht [Hn [Hs _]]]]];
      [vm_compute; discriminate|vm_compute; reflexivity|].
    exists cs. repeat split; [exact HG|exact Ht|exact Hn|exact Hs].
  - destruct Hr as [cs [HG [Ht [Hn [Hs [_ [_ Hsc]]]]]]];
      [vm_compute; discriminate|vm_compute; reflexivity|].
    destruct (Hsc _ _ _ eq_refl) as [c [Hc1 Hc2]].
    destruct cs as [|c0 [|c1 [|c2 cs]]]; try discriminate Ht.
    injection Hc1 as <-. cbn [map firstn] in Hs. injection Hs as Hs.
    exists [c0; c1]. repeat split; [exact HG|exact Ht|exact Hn|].
    cbn [map]. unfold seriesOf at 2. rewrite Hs, Hc2. reflexivity.
Defined.

(* ================================================================== *)
(** * Numbers that begin a cell *)
(* ================================================================== *)

Lemma matchHere_comma (prev : option ascii) (x : ascii) (c : jsstring) :
  matchHere false (Char ",") prev (x :: c) =
  if Ascii.eqb x "," then Some (1%nat, []) else None.
Proof.
  unfold matchHere. cbn [run]. destruct (Ascii.eqb x ","); [|reflexivity].
  do 2 f_equal. cbn [length]. lia.
Qed.

(** Removing the commas is a filter. *)
Lemma stripCommas_filter (c : jsstring) :
  stripCommas c = filter (fun x => negb (Ascii.eqb x ",")) c.
Proof.
  unfold stripCommas, replaceAll. generalize (@None ascii).
  induction c as [|x c IH]; intros prev; [reflexivity|].
  cbn [replaceFrom filter]. rewrite matchHere_comma.
  destruct (Ascii.eqb x ","); cbn [negb expand map concat app].
  - apply IH.
  - now rewrite IH.
Qed.

Lemma takeWhile_digits (a b : jsstring) :
  digits a -> stops b -> takeWhile isDigit (a ++ b) = a.
Proof.
  unfold digits. induction a as [|c a IH]; simpl; intros Ha Hb.
  - destruct b as [|c b]; [reflexivity|]. simpl in Hb. simpl. now rewrite Hb.
  - apply andb_true_iff in Ha. destruct Ha as [Hc Ha]. rewrite Hc.
    now rewrite IH.
Qed.

Lemma dropWhile_digits (a b : jsstring) :
  digits a -> stops b -> dropWhile isDigit (a ++ b) = b.
Proof.
  unfold digits. induction a as [|c a IH]; simpl; intros Ha Hb.
  - destruct b as [|c b]; [reflexivity|]. simpl in Hb. simpl. now rewrite Hb.
  - apply andb_true_iff in Ha. destruct Ha as [Hc Ha]. rewrite Hc.
    now rewrite IH.
Qed.

Lemma noDigit_stops (s : jsstring) : noDigit s -> stops s.
Proof.
  destruct s as [|c s]; simpl; [trivial|]. unfold noDigit. simpl.
  intros H. apply andb_true_iff in H. destruct H as [H _].
  now apply negb_true_iff in H.
Qed.

Lemma noDigit_tail (c : ascii) (s : jsstring) : noDigit (c :: s) -> noDigit s.
Proof.
  unfold noDigit. simpl. intros H. apply andb_true_iff in H. tauto.
Qed.

Create HintDb digits.
#[local] Hint Resolve noDigit_stops noDigit_tail : digits.

Lemma noDigit_takeWhile (s : jsstring) : noDigit s -> takeWhile isDigit s = [].
Proof.
  intros H. apply noDigit_stops in H. destruct s as [|c s]; [reflexivity|].
  simpl in *. now rewrite H.
Qed.

Lemma noDigit_dropWhile (s : jsstring) : noDigit s -> dropWhile isDigit s = s.
Proof.
  intros H. apply noDigit_stops in H. destruct s as [|c s]; [reflexivity|].
  simpl in *. now rewrite H.
Qed.

Lemma digit_facts (c : ascii) :
  isDigit c = true ->
  isWhiteSpace c = false /\ c <> "+"%char /\ c <> "-"%char /\
  c <> "."%char /\ c <> "I"%char /\ Ascii.eqb c "e" = false /\
  Ascii.eqb c "E" = false.
Proof.
  destruct c as [[] [] [] [] [] [] [] []]; vm_compute; intros H;
    try discriminate H; repeat split; discriminate.
Qed.

Lemma readSign_plain (c : ascii) (r : jsstring) :
  c <> "+"%char -> c <> "-"%char -> readSign (c :: r) = (false, c :: r).
Proof.
  intros Hp Hm.
  destruct c as [[] [] [] [] [] [] [] []]; try reflexivity; congruence.
Qed.

Lemma readSign_suffix (s : jsstring) :
  snd (readSign s) = s \/ exists c, s = c :: snd (readSign s).
Proof.
  destruct s as [|c r]; [now left|].
  destruct c as [[] [] [] [] [] [] [] []]; simpl; try (now left); right; eexists; reflexivity.
Qed.

Lemma readSign_text (sg : option bool) (c : ascii) (r : jsstring) :
  c <> "+"%char -> c <> "-"%char ->
  readSign (signText sg ++ c :: r) = (isMinus sg, c :: r).
Proof.
  intros Hp Hm. destruct sg as [[|]|]; try reflexivity.
  simpl. now apply readSign_plain.
Qed.

Lemma readFraction_plain (c : ascii) (r : jsstring) :
  c <> "."%char -> readFraction (c :: r) = ([], c :: r).
Proof.
  intros H. destruct c as [[] [] [] [] [] [] [] []]; try reflexivity; congruence.
Qed.

Lemma fraction_after (fp : option jsstring) (rest : jsstring) :
  digits (fractionDigits fp) ->
  (fp = None -> forall c r, rest = c :: r -> c <> "."%char) ->
  stops rest ->
  readFraction (fractionText fp ++ rest) = (fractionDigits fp, rest).
Proof.
  intros Hd Hdot Hs. destruct fp as [f|]; simpl.
  - now rewrite takeWhile_digits, dropWhile_digits.
  - destruct rest as [|c r]; [reflexivity|].
    apply readFraction_plain. eapply Hdot; eauto.
Qed.

Lemma readExponent_noDigit (s : jsstring) : noDigit s -> readExponent s = 0%Z.
Proof.
  intros H. destruct s as [|c r]; [reflexivity|]. simpl.
  destruct (Ascii.eqb c "e" || Ascii.eqb c "E"); [|reflexivity].
  apply noDigit_tail in H.
  destruct (readSign r) as [eneg r'] eqn:Er.
  assert (Hr' : noDigit r').
  { destruct (readSign_suffix r) as [E|[c' E]]; rewrite Er in E; simpl in E.
    - now subst.
    - rewrite E in H. now apply noDigit_tail in H. }
  now rewrite noDigit_takeWhile.
Qed.

Lemma readExponent_text (e : exponent) (tail : jsstring) :
  digits (exponentDigits e) -> exponentDigits e <> [] -> noDigit tail ->
  readExponent (exponentText (Some e) ++ tail) = exponentValue (Some e).
Proof.
  intros Hd Hne Ht. unfold exponentText, exponentValue.
  destruct (exponentDigits e) as [|d ds] eqn:Ed; [congruence|].
  assert (Hd0 : isDigit d = true).
  { unfold digits in Hd. simpl in Hd. apply andb_true_iff in Hd. tauto. }
  destruct (digit_facts _ Hd0) as [_ [Hp [Hm _]]].
  cbn [app readExponent].
  replace (Ascii.eqb (if capital e then "E"%char else "e"%char) "e"
           || Ascii.eqb (if capital e then "E"%char else "e"%char) "E")
    with true by (destruct (capital e); reflexivity).
  rewrite <- app_assoc. cbn [app].
  rewrite readSign_text by assumption.
  change (d :: ds ++ tail) with ((d :: ds) ++ tail).
  rewrite takeWhile_digits by (auto with digits).
  reflexivity.
Qed.

Lemma exponent_after (ex : option exponent) (tail : jsstring) :
  (forall e, ex = Some e ->
             digits (exponentDigits e) /\ exponentDigits e <> []) ->
  noDigit tail ->
  readExponent (exponentText ex ++ tail) = exponentValue ex.
Proof.
  intros Hex Ht. destruct ex as [e|].
  - destruct (Hex e eq_refl). now apply readExponent_text.
  - simpl. now apply readExponent_noDigit.
Qed.

Lemma stops_after_int (fp : option jsstring) (ex : option exponent) (tail : jsstring) :
  noDigit tail -> stops (fractionText fp ++ exponentText ex ++ tail).
Proof.
  intros Ht. destruct fp as [f|]; simpl; [reflexivity|].
  destruct ex as [e|]; simpl; [destruct (capital e); reflexivity|].
  now apply noDigit_stops.
Qed.

Lemma stops_after_fraction (ex : option exponent) (tail : jsstring) :
  noDigit tail -> stops (exponentText ex ++ tail).
Proof.
  intros Ht. destruct ex as [e|]; simpl; [destruct (capital e); reflexivity|].
  now apply noDigit_stops.
Qed.

Lemma decimal_tail (ip : jsstring) (fp : option jsstring)
    (ex : option exponent) (tail : jsstring) :
  digits (fractionDigits fp) ->
  (forall e, ex = Some e ->
             digits (exponentDigits e) /\ exponentDigits e <> []) ->
  noDigit tail ->
  let (fd, rest) := readFraction (fractionText fp ++ exponentText ex ++ tail) in
  fd = fractionDigits fp /\ readExponent rest = exponentValue ex.
Proof.
  intros Hf Hex Ht.
  destruct fp as [f|].
  - rewrite fraction_after; auto using stops_after_fraction; [|discriminate].
    split; [reflexivity|]. now apply exponent_after.
  - cbn [fractionText app fractionDigits].
    destruct ex as [e|].
    + assert (E : readFraction (exponentText (Some e) ++ tail) =
                  ([], exponentText (Some e) ++ tail)).
      { simpl. apply readFraction_plain. destruct (capital e); discriminate. }
      rewrite E. split; [reflexivity|]. now apply exponent_after.
    + cbn [exponentText app exponentValue].
      destruct tail as [|c tail']; [split; reflexivity|].
      destruct (ascii_dec c ".") as [->|Hc].
      * simpl. apply noDigit_tail in Ht.
        rewrite noDigit_takeWhile, noDigit_dropWhile by assumption.
        split; [reflexivity|]. now apply readExponent_noDigit.
      * rewrite readFraction_plain by assumption.
        split; [reflexivity|]. now apply readExponent_noDigit.
Qed.

Lemma parseFloat_from (sg : option bool) (c : ascii) (r : jsstring) :
  isWhiteSpace c = false -> c <> "+"%char -> c <> "-"%char -> c <> "I"%char ->
  parseFloat (signText sg ++ c :: r) =
    let u := c :: r in
    let ip := takeWhile isDigit u in
    let (fp, rest) := readFraction (dropWhile isDigit u) in
    if isEmpty ip && isEmpty fp then NaN
    else Dec (isMinus sg) (digitsVal (ip ++ fp))
             (readExponent rest - Z.of_nat (length fp)).
Proof.
  intros Hws Hp Hm HI. unfold parseFloat.
  assert (Ht : trimStart (signText sg ++ c :: r) = signText sg ++ c :: r).
  { unfold trimStart. destruct sg as [[|]|]; simpl; try reflexivity. now rewrite Hws. }
  rewrite Ht, readSign_text by assumption.
  assert (HInf : startsWith (js "Infinity") (c :: r) = false).
  { change (js "Infinity") with ("I"%char :: js "nfinity").
    cbn [startsWith].
    replace (Ascii.eqb "I" c) with false; [reflexivity|].
    symmetry. apply Ascii.eqb_neq. congruence. }
  rewrite HInf. reflexivity.
Qed.

(** [parseFloat] reads a numeric literal and ignores a tail without
    digits. *)
Lemma parseFloat_prefix (lit tail : jsstring) (v : jsnum) :
  numericPrefix lit v -> noDigit tail -> parseFloat (lit ++ tail) = v.
Proof.
  intros Hlit Ht. destruct Hlit as [sg ip fp ex Hip Hfp Hne Hex | sg].
  - rewrite <- !app_assoc.
    pose proof (decimal_tail ip fp Hfp Hex Ht) as Hdec.
    pose proof (stops_after_int fp ex Ht) as Hstop.
    destruct ip as [|d ip'].
    + (* no integer part: the literal starts with the dot *)
      destruct Hne as [Hne|Hne]; [congruence|].
      destruct fp as [f|]; [|simpl in Hne; congruence].
      cbn [app fractionText] in *.
      rewrite parseFloat_from by (try discriminate; reflexivity).
      cbv zeta. cbn [takeWhile dropWhile isDigit].
      change (isDigit "."%char) with false. cbv iota.
      destruct (readFraction _) as [fd rest]. destruct Hdec as [-> Hrest].
      cbn [fractionDigits] in *.
      destruct f as [|f0 f']; [congruence|]. cbn [isEmpty andb app].
      now rewrite Hrest.
    + assert (Hd : isDigit d = true).
      { unfold digits in Hip. simpl in Hip. apply andb_true_iff in Hip. tauto. }
      destruct (digit_facts _ Hd) as [Hws [Hp [Hm [_ [HI _]]]]].
      cbn [app]. rewrite parseFloat_from by assumption. cbv zeta.
      change (d :: ip' ++ fractionText fp ++ exponentText ex ++ tail)
        with ((d :: ip') ++ fractionText fp ++ exponentText ex ++ tail).
      rewrite takeWhile_digits, dropWhile_digits by assumption.
      destruct (readFraction _) as [fd rest]. destruct Hdec as [-> Hrest].
      cbn [isEmpty andb]. now rewrite Hrest.
  - rewrite <- app_assoc. destruct sg as [[|]|]; reflexivity.
Qed.

Lemma numericPrefix_number (lit : jsstring) (v : jsnum) :
  numericPrefix lit v -> isNaN v = false.
Proof. intros H. destruct H; reflexivity. Qed.

Lemma cellNumber_prefix (i : nat) (row : list jsstring) (v : jsnum) :
  startsNumeric i row v ->
  cellNumber row (Z.of_nat i) = Normal v /\ isNaN v = false.
Proof.
  intros [cell [lit [tail [Hc [Hs [Hl Ht]]]]]].
  unfold cellNumber. rewrite at_nat, Hc, Hs.
  rewrite (parseFloat_prefix Hl Ht). split; [reflexivity|].
  eapply numericPrefix_number; eauto.
Qed.

(** C10. When in every row the cell of column [i], commas removed,
    begins with a numeric literal followed by text without digits (as in
    "12 units"), each cell parses to the value of its literal and is not
    NaN, the column passes the numeric check, the numbers of the column
    are those values, and the column loop pushes a dataset holding them.
    *)
Theorem numeric_prefix_accepted (rows : list (list jsstring)) (i : nat)
    (vs : list jsnum) (h : jsstring) (hs : list jsstring) :
  Forall2 (startsNumeric i) rows vs ->
  Forall2 (fun row v => cellNumber row (Z.of_nat i) = Normal v /\ isNaN v = false)
          rows vs /\
  everyNumeric rows (Z.of_nat i) = Normal true /\
  columnNumbers rows (Z.of_nat i) = Normal vs /\
  numericColumns (h :: hs) (Z.of_nat i) rows =
    (ds <- numericColumns hs (Z.of_nat i + 1) rows ;;
     Normal ({| label := h; numbers := vs; columnIndex := Z.of_nat i |} :: ds)).
Proof.
  intros H.
  assert (Hcells : Forall2 (fun row v => cellNumber row (Z.of_nat i) = Normal v /\
                                         isNaN v = false) rows vs).
  { induction H as [|row v rows vs Hrow _ IH]; constructor; auto.
    now apply cellNumber_prefix. }
  assert (Hevery : everyNumeric rows (Z.of_nat i) = Normal true).
  { clear H. induction Hcells as [|row v rows vs [Hn Hv] _ IH]; simpl; [reflexivity|].
    rewrite Hn. simpl. now rewrite Hv. }
  assert (Hcol : columnNumbers rows (Z.of_nat i) = Normal vs).
  { clear H Hevery. induction Hcells as [|row v rows vs [Hn Hv] _ IH]; simpl; [reflexivity|].
    rewrite Hn. simpl. now rewrite IH. }
  repeat split; try assumption.
  cbn [numericColumns]. rewrite Hevery. cbn [bind]. rewrite Hcol. reflexivity.
Qed.

Lemma numeric_prefix_accepted_witness :
  everyNumeric sampleUnits 1 = Normal true /\
  columnNumbers sampleUnits 1 = Normal [Dec false 12 0; Dec false 15005 (-1)].
Proof.
  assert (H : Forall2 (startsNumeric 1) sampleUnits
                [Dec false 12 0; Dec false 15005 (-1)]).
  { constructor; [|constructor; [|constructor]].
    - exists (js "12 units"), (js "12"), (js " units").
      split; [reflexivity|]. split; [vm_compute; reflexivity|]. split; [|reflexivity].
      apply (@prefixDecimal None (js "12") None None);
        [reflexivity | reflexivity | left; discriminate | discriminate].
    - exists (js "1,500.5 sq ft"), (js "1500.5"), (js " sq ft").
      split; [reflexivity|]. split; [vm_compute; reflexivity|]. split; [|reflexivity].
      apply (@prefixDecimal None (js "1500") (Some (js "5")) None);
        [reflexivity | reflexivity | left; discriminate | discriminate]. }
  destruct (numeric_prefix_accepted (js "Area") [] H) as [_ [He [Hc _]]].
  split; [exact He | exact Hc].
Defined.

(* ================================================================== *)
(** * The matcher *)
(* ================================================================== *)

Lemma orElse_none (R : Type) (a : option R) : orElse a None = a.
Proof. now destruct a. Qed.

Section Star.

Variables (R : Type) (p : ascii -> bool).

Lemma starGreedy_ext (k1 k2 : option ascii -> jsstring -> option R) :
  (forall prev s, k1 prev s = k2 prev s) ->
  forall s prev, starGreedy p k1 prev s = starGreedy p k2 prev s.
Proof.
  intros H. induction s as [|c s IH]; intros prev; cbn [starGreedy]; [apply H|].
  destruct (p c); [|apply H]. now rewrite IH, H.
Qed.

(** A greedy class that no match can start inside is skipped whole. *)
Lemma starGreedy_skip (k : jsstring -> option R) :
  (forall s, k (dropWhile p s) = None -> k s = None) ->
  forall s prev, starGreedy p (fun _ s' => k s') prev s = k (dropWhile p s).
Proof.
  intros H. induction s as [|c s IH]; intros prev; cbn [starGreedy dropWhile];
    [reflexivity|].
  destruct (p c) eqn:E; [|reflexivity].
  rewrite IH. destruct (k (dropWhile p s)) eqn:Ek; [reflexivity|].
  cbn [orElse]. apply H. cbn [dropWhile]. now rewrite E.
Qed.

End Star.

Lemma execFrom_anchored (r : regex) (s : jsstring) : forall c,
  execFrom false (Seq Bol r) (Some c) s = None.
Proof.
  induction s as [|x s IH]; intros c; cbn [execFrom]; unfold matchHere;
    cbn [run atBol andb orElse]; [reflexivity|apply IH].
Qed.

(** A pattern that begins with [^] matches at the start of the input or
    not at all. *)
Lemma exec_anchored (r : regex) (s : jsstring) :
  exec false (Seq Bol r) s =
  option_map snd
    (run false r None s [] (fun _ s' caps => Some ((length s - length s')%nat, caps))).
Proof.
  unfold exec. destruct s as [|c s]; cbn [execFrom]; unfold matchHere;
    cbn [run atBol].
  - now rewrite orElse_none.
  - rewrite execFrom_anchored. now rewrite orElse_none.
Qed.

Lemma run_lit (m : bool) (R : Type) (p : jsstring) (k : cont R) (caps : captures) :
  (forall q q' s, k q s caps = k q' s caps) ->
  forall prev s,
  run m (Lit p) prev s caps k =
  if startsWith p s then k None (skipn (length p) s) caps else None.
Proof.
  intros Hk. induction p as [|a p IH]; intros prev s; cbn [Lit run startsWith skipn length].
  - apply Hk.
  - destruct s as [|x s]; [reflexivity|].
    rewrite (Ascii.eqb_sym a x). destruct (Ascii.eqb x a); cbn [andb]; [|reflexivity].
    apply IH.
Qed.

Lemma lastOr_cons prev c a : lastOr prev (c :: a) = lastOr (Some c) a.
Proof.
  unfold lastOr. cbn [rev]. destruct (rev a); reflexivity.
Qed.

Lemma lastOr_dot (prev : option ascii) (a : jsstring) :
  a <> [] -> forallb isDot a = true ->
  exists c, lastOr prev a = Some c /\ isDot c = true.
Proof.
  intros Ha Hd. unfold lastOr.
  destruct (rev a) as [|c r] eqn:E.
  - apply (f_equal (@length _)) in E. rewrite length_rev in E.
    destruct a; [congruence|discriminate].
  - exists c. split; [reflexivity|].
    rewrite forallb_forall in Hd. apply Hd. apply in_rev. rewrite E. now left.
Qed.

Lemma replaceFrom_skip (m : bool) (r : regex) (tpl : list piece) (a b : jsstring) :
  forall prev,
  replaceFrom m r tpl (length a) prev (a ++ b) =
  replaceFrom m r tpl 0 (lastOr prev a) b.
Proof.
  induction a as [|x a IH]; intros prev; [reflexivity|].
  cbn [length app replaceFrom]. rewrite IH. now rewrite lastOr_cons.
Qed.

Lemma replaceFrom_miss (m : bool) (r : regex) (tpl : list piece)
    (prev : option ascii) (s : jsstring) :
  matchHere m r prev s = None ->
  replaceFrom m r tpl 0 prev s =
  match s with
  | [] => []
  | c :: s' => c :: replaceFrom m r tpl 0 (Some c) s'
  end.
Proof. intros H. destruct s; cbn [replaceFrom]; now rewrite H. Qed.

Lemma replaceFrom_hit (m : bool) (r : regex) (tpl : list piece)
    (prev : option ascii) (a b : jsstring) (caps : captures) :
  a <> [] ->
  matchHere m r prev (a ++ b) = Some (length a, caps) ->
  replaceFrom m r tpl 0 prev (a ++ b) =
  expand tpl caps ++ replaceFrom m r tpl 0 (lastOr prev a) b.
Proof.
  intros Ha H. destruct a as [|c a]; [congruence|].
  cbn [app replaceFrom]. cbn [app] in H. rewrite H. cbn [length].
  f_equal. rewrite replaceFrom_skip. now rewrite lastOr_cons.
Qed.

(* ================================================================== *)
(** * The header pattern *)
(* ================================================================== *)

Lemma run_closer (g : jsstring -> nat) prev s caps :
  run false closerPattern prev s caps (fin g) =
    option_map (fun r => (g r, caps)) (afterCloser s).
Proof.
  unfold closerPattern, afterCloser.
  change (js "]") with ["]"%char]. change (js "**") with ["*"%char; "*"%char].
  cbn [run Lit startsWith].
  destruct s as [|c s]; [reflexivity|].
  rewrite (Ascii.eqb_sym "]" c), (Ascii.eqb_sym "*" c).
  destruct (Ascii.eqb c "]") eqn:E1; [reflexivity|].
  cbn [orElse andb atEol isEmpty].
  destruct (Ascii.eqb c "*") eqn:E2; cbn [orElse andb].
  - destruct s as [|c' s]; [reflexivity|].
    rewrite (Ascii.eqb_sym "*" c').
    destruct (Ascii.eqb c' "*"); reflexivity.
  - reflexivity.
Qed.

Lemma afterCloser_ws (c : ascii) (s : jsstring) :
  isWhiteSpace c = true -> afterCloser (c :: s) = None.
Proof.
  intros H. unfold afterCloser.
  change (js "]") with ["]"%char]. change (js "**") with ["*"%char; "*"%char].
  cbn [startsWith isEmpty].
  destruct (Ascii.eqb_spec "]"%char c) as [<-|_]; [discriminate H|].
  destruct (Ascii.eqb_spec "*"%char c) as [<-|_]; [discriminate H|].
  reflexivity.
Qed.

Lemma closes_ws (c : ascii) (s : jsstring) :
  isWhiteSpace c = true -> closes (c :: s) = false.
Proof. intros H. unfold closes. now rewrite afterCloser_ws. Qed.

(** [\s*] before the closer: only the position behind all the white
    space can match. *)
Lemma run_tail (g : jsstring -> nat) caps (s : jsstring) : forall prev,
  starGreedy isWhiteSpace
    (fun prev' s' => run false closerPattern prev' s' caps (fin g)) prev s =
  option_map (fun r => (g r, caps)) (afterCloser (dropWhile isWhiteSpace s)).
Proof.
  induction s as [|c s IH]; intros prev; cbn [starGreedy dropWhile].
  - apply run_closer.
  - destruct (isWhiteSpace c) eqn:E.
    + rewrite IH, run_closer, (@afterCloser_ws c s E). cbn [option_map].
      apply orElse_none.
    + apply run_closer.
Qed.

Lemma run_group (g : jsstring -> nat) (s : jsstring) : forall pre prev,
  starLazy isDot
    (fun prev' s' =>
       starGreedy isWhiteSpace
         (fun p'' s'' =>
            run false closerPattern p'' s''
              [firstn (length (pre ++ s) - length s') (pre ++ s)] (fin g))
         prev' s') prev s =
  option_map (fun xr => (g (snd xr), [pre ++ fst xr])) (lazyInner s).
Proof.
  induction s as [|c s IH]; intros pre prev; cbn [starLazy lazyInner].
  - rewrite run_tail. cbn [dropWhile length].
    rewrite Nat.sub_0_r, firstn_all, !app_nil_r.
    destruct (afterCloser []); cbn [option_map orElse fst snd app];
      now rewrite ?app_nil_r.
  - rewrite run_tail.
    rewrite firstn_consumed.
    destruct (afterCloser (dropWhile isWhiteSpace (c :: s))) as [r|].
    + cbn [option_map orElse fst snd app]. now rewrite app_nil_r.
    + cbn [option_map orElse].
      destruct (isDot c); [|reflexivity].
      specialize (IH (pre ++ [c]) (Some c)).
      rewrite <- app_assoc in IH. cbn [app] in IH. rewrite IH.
      destruct (lazyInner s) as [[x r]|]; cbn [option_map fst snd]; [|reflexivity].
      now rewrite <- app_assoc.
Qed.

Lemma headerPattern_parts :
  headerPattern =
  Seq Bol (Seq markerPattern (Seq (Star true isWhiteSpace) innerPattern)).
Proof. reflexivity. Qed.

Lemma run_inner (g : jsstring -> nat) (s : jsstring) (prev : option ascii) :
  run false innerPattern prev s [] (fin g) =
  option_map (fun xr => (g (snd xr), [fst xr])) (lazyInner s).
Proof.
  unfold innerPattern. cbn [run app].
  exact (run_group g s [] prev).
Qed.

Lemma lazyInner_start (s : jsstring) :
  lazyInner s = None -> afterCloser (dropWhile isWhiteSpace s) = None.
Proof.
  destruct s; cbn [lazyInner]; destruct (afterCloser _); congruence.
Qed.

Lemma lazyInner_skipped (s : jsstring) :
  lazyInner (dropWhile isWhiteSpace s) = None -> lazyInner s = None.
Proof.
  induction s as [|c s IH]; [trivial|].
  cbn [dropWhile]. destruct (isWhiteSpace c) eqn:E; [|trivial].
  intros H. cbn [lazyInner dropWhile]. rewrite E.
  pose proof (lazyInner_start _ H) as H0. rewrite dropWhile_idem in H0.
  rewrite H0. destruct (isDot c); [|reflexivity].
  now rewrite (IH H).
Qed.

Lemma run_spaced_inner (g : jsstring -> nat) (s : jsstring) (prev : option ascii) :
  run false (Seq (Star true isWhiteSpace) innerPattern) prev s [] (fin g) =
  option_map (fun xr => (g (snd xr), [fst xr]))
             (lazyInner (dropWhile isWhiteSpace s)).
Proof.
  cbn [run].
  rewrite (starGreedy_ext isWhiteSpace
             (fun prev' s' => run false innerPattern prev' s' [] (fin g))
             (fun _ s' => option_map (fun xr => (g (snd xr), [fst xr])) (lazyInner s'))).
  2:{ intros p s'. apply run_inner. }
  apply starGreedy_skip.
  intros s' H. destruct (lazyInner (dropWhile isWhiteSpace s')) eqn:E; [discriminate|].
  now rewrite (lazyInner_skipped _ E).
Qed.

Lemma run_marker (R : Type) (k : cont R) (t : jsstring)
    (prev : option ascii) (caps : captures) :
  (forall p s, k p s caps = k None s caps) ->
  run false markerPattern prev t caps k =
  match stripMarker t with
  | Some u => k None u caps
  | None => None
  end.
Proof.
  intros Hk. unfold markerPattern, stripMarker.
  change (js "###") with ["#"%char; "#"%char; "#"%char].
  change (js "[") with ["["%char]. change (js "**") with ["*"%char; "*"%char].
  cbn [run Lit startsWith].
  destruct t as [|c0 t]; [reflexivity|].
  rewrite (Ascii.eqb_sym "#" c0), (Ascii.eqb_sym "[" c0), (Ascii.eqb_sym "*" c0).
  destruct (Ascii.eqb_spec c0 "#") as [->|H0].
  - change (Ascii.eqb "#" "[") with false. change (Ascii.eqb "#" "*") with false.
    cbn [andb orElse skipn].
    destruct t as [|c1 t]; [reflexivity|].
    rewrite (Ascii.eqb_sym "#" c1).
    destruct (Ascii.eqb c1 "#"); cbn [andb orElse]; [|reflexivity].
    destruct t as [|c2 t]; [reflexivity|].
    rewrite (Ascii.eqb_sym "#" c2).
    destruct (Ascii.eqb c2 "#"); cbn [andb orElse]; [|reflexivity].
    rewrite orElse_none. apply Hk.
  - cbn [andb orElse].
    destruct (Ascii.eqb_spec c0 "[") as [->|H1]; cbn [andb orElse skipn].
    + change (Ascii.eqb "[" "*") with false. cbn [andb].
      rewrite orElse_none. apply Hk.
    + destruct (Ascii.eqb c0 "*"); cbn [andb]; [|reflexivity].
      destruct t as [|c1 t]; [reflexivity|].
      rewrite (Ascii.eqb_sym "*" c1).
      destruct (Ascii.eqb c1 "*"); [apply Hk|reflexivity].
Qed.

Lemma exec_header (t : jsstring) :
  exec false headerPattern t =
  match stripMarker t with
  | Some u => option_map (fun xr => [fst xr]) (lazyInner (dropWhile isWhiteSpace u))
  | None => None
  end.
Proof.
  rewrite headerPattern_parts, exec_anchored.
  set (g := fun s' : jsstring => (length t - length s')%nat).
  change (fun (_ : option ascii) (s' : jsstring) (caps : captures) => Some (g s', caps))
    with (fin g).
  cbn [run]. rewrite run_marker.
  - destruct (stripMarker t) as [u|]; [|reflexivity].
    change (option_map snd
              (run false (Seq (Star true isWhiteSpace) innerPattern) None u [] (fin g)) =
            option_map (fun xr => [fst xr]) (lazyInner (dropWhile isWhiteSpace u))).
    rewrite run_spaced_inner. now destruct (lazyInner _).
  - intros p s.
    change (run false (Seq (Star true isWhiteSpace) innerPattern) p s [] (fin g) =
            run false (Seq (Star true isWhiteSpace) innerPattern) None s [] (fin g)).
    now rewrite !run_spaced_inner.
Qed.

Lemma trimStart_beforeCloser (u : jsstring) :
  trimStart (beforeCloser u) = beforeCloser (dropWhile isWhiteSpace u).
Proof.
  unfold trimStart. induction u as [|c u IH]; [reflexivity|].
  cbn [dropWhile]. destruct (isWhiteSpace c) eqn:E.
  - cbn [beforeCloser]. rewrite closes_ws by exact E.
    cbn [dropWhile]. now rewrite E.
  - destruct (beforeCloser (c :: u)) as [|c' b] eqn:Eb; [reflexivity|].
    cbn [beforeCloser] in Eb. destruct (closes (c :: u)); [discriminate|].
    injection Eb as <- <-. cbn [dropWhile]. now rewrite E.
Qed.

Lemma blank_before_closer (v : jsstring) :
  forallb isWhiteSpace (beforeCloser v) = true <->
  closes (dropWhile isWhiteSpace v) = true.
Proof.
  induction v as [|c v IH]; [now split|].
  cbn [beforeCloser dropWhile].
  destruct (isWhiteSpace c) eqn:E.
  - rewrite closes_ws by exact E. cbn [forallb]. rewrite E. exact IH.
  - destruct (closes (c :: v)); [now split|].
    cbn [forallb]. rewrite E. split; discriminate.
Qed.

Lemma lazyInner_text (v : jsstring) :
  option_map fst (lazyInner v) =
  let x := trimEnd (beforeCloser v) in
  if forallb isDot x then Some x else None.
Proof.
  cbv zeta. induction v as [|c v IH]; [reflexivity|].
  cbn [lazyInner].
  pose proof (blank_before_closer (c :: v)) as Hb. unfold closes in Hb.
  destruct (afterCloser (dropWhile isWhiteSpace (c :: v))) as [r|] eqn:Ea.
  - destruct Hb as [_ Hb]. apply trimEnd_blank in Hb; [|reflexivity].
    now rewrite Hb.
  - assert (Hc : closes (c :: v) = false).
    { destruct (isWhiteSpace c) eqn:E; [now apply closes_ws|].
      cbn [dropWhile] in Ea. rewrite E in Ea. unfold closes. now rewrite Ea. }
    assert (Hx : trimEnd (beforeCloser (c :: v)) = c :: trimEnd (beforeCloser v)).
    { destruct (trimEnd (beforeCloser (c :: v))) as [|y ys] eqn:Et.
      - apply trimEnd_blank in Et. destruct Hb as [Hb _].
        discriminate (Hb Et).
      - cbn [beforeCloser] in Et. rewrite Hc in Et.
        rewrite trimEnd_cons in Et. revert Et.
        destruct (trimEnd (beforeCloser v)).
        + destruct (isWhiteSpace c); [discriminate|]. intros Et. now rewrite <- Et.
        + intros Et. now rewrite <- Et. }
    rewrite Hx. cbn [forallb].
    destruct (isDot c); cbn [andb]; [|reflexivity].
    destruct (lazyInner v) as [[x r]|]; cbn [option_map fst] in *.
    + destruct (forallb isDot (trimEnd (beforeCloser v))); [|discriminate].
      congruence.
    + destruct (forallb isDot (trimEnd (beforeCloser v))); [discriminate|reflexivity].
Qed.

(** What the header pattern captures: the text between the marker and
    the first closer, trimmed. *)
Lemma exec_headerPattern (t : jsstring) :
  exec false headerPattern t = option_map (fun x => [x]) (headingText t).
Proof.
  rewrite exec_header. unfold headingText.
  destruct (stripMarker t) as [u|]; [|reflexivity].
  cbv zeta. unfold trim. rewrite trimStart_beforeCloser.
  pose proof (lazyInner_text (dropWhile isWhiteSpace u)) as H. cbv zeta in H.
  revert H.
  destruct (lazyInner _) as [[x r]|]; cbn [option_map fst];
    destruct (forallb isDot _); intros H; try discriminate H; [|reflexivity].
  now injection H as ->.
Qed.

(* ================================================================== *)
(** * The comparison splitter *)
(* ================================================================== *)

Lemma own_none (o : object) (k : jsstring) :
  own o k = None <-> ~ In k (map fst o).
Proof.
  induction o as [|[k' v] o IH]; simpl; [tauto|].
  destruct (streq k' k) eqn:E.
  - apply streq_eq in E. split; [discriminate|]. intros H. exfalso. apply H. now left.
  - apply streq_neq in E. rewrite IH. tauto.
Qed.

Lemma update_names (o : object) (k v : jsstring) :
  map fst (update o k v) = map fst o.
Proof.
  induction o as [|[k' v'] o IH]; simpl; [reflexivity|].
  destruct (streq k' k); simpl; [reflexivity|]. now rewrite IH.
Qed.

Lemma set_names (o : object) (k v : jsstring) :
  map fst (set o k v) = map fst o \/
  (~ In k (map fst o) /\ map fst (set o k v) = map fst o ++ [k]).
Proof.
  unfold set. destruct (own o k) eqn:E.
  - left. apply update_names.
  - destruct (streq k (js "__proto__")); [now left|]. right.
    split; [now apply own_none|]. now rewrite map_app.
Qed.

Lemma own_app (o : object) (k k' v : jsstring) :
  own (o ++ [(k, v)]) k' =
  match own o k' with
  | Some v' => Some v'
  | None => if streq k k' then Some v else None
  end.
Proof.
  induction o as [|[k0 v0] o IH]; simpl; [reflexivity|].
  destruct (streq k0 k'); [reflexivity|exact IH].
Qed.

Lemma own_update (o : object) (k k' v : jsstring) :
  own (update o k v) k' =
  match own o k with
  | Some _ => if streq k k' then Some v else own o k'
  | None => own o k'
  end.
Proof.
  induction o as [|[k0 v0] o IH]; simpl; [reflexivity|].
  destruct (streq k0 k) eqn:E0.
  - apply streq_eq in E0. subst k0. simpl.
    destruct (streq k k'); reflexivity.
  - simpl. rewrite IH. destruct (streq k0 k') eqn:E1.
    + apply streq_eq in E1. subst k0.
      destruct (own o k); [|reflexivity].
      replace (streq k k') with false; [reflexivity|].
      symmetry. apply streq_neq. intros ->. rewrite streq_refl in E0. discriminate.
    + reflexivity.
Qed.

Lemma own_set_other (o : object) (k k' v : jsstring) :
  k' <> k -> own (set o k v) k' = own o k'.
Proof.
  intros H. unfold set. destruct (own o k) eqn:E.
  - rewrite own_update, E.
    replace (streq k k') with false by (symmetry; apply streq_neq; congruence).
    reflexivity.
  - destruct (streq k (js "__proto__")); [reflexivity|].
    rewrite own_app.
    replace (streq k k') with false by (symmetry; apply streq_neq; congruence).
    now destruct (own o k').
Qed.

Lemma own_set_same (o : object) (k v : jsstring) :
  k <> js "__proto__" \/ own o k <> None -> own (set o k v) k = Some v.
Proof.
  intros H. unfold set. destruct (own o k) eqn:E.
  - now rewrite own_update, E, streq_refl.
  - destruct H as [H|H]; [|congruence].
    replace (streq k (js "__proto__")) with false by (symmetry; now apply streq_neq).
    now rewrite own_app, E, streq_refl.
Qed.

(** Writing a section's own text again leaves the object as it is. *)
Lemma update_same (o : object) (k v : jsstring) :
  own o k = Some v -> update o k v = o.
Proof.
  induction o as [|[k' v'] o IH]; cbn [own update]; [discriminate|].
  destruct (streq k' k); [now intros [= ->]|].
  intros H. now rewrite (IH H).
Qed.

(** What a header line that names [k] does to the sections: a section
    is created, empty and last, unless [k] owns one or is the name of an
    inherited property. *)
Lemma section_opening (o : object) (k : jsstring) :
  (if negb (truthy (get o k)) then set o k [] else o) =
  match own o k with
  | Some _ => o
  | None => if inherited k then o else o ++ [(k, [])]
  end.
Proof.
  unfold get, inherited.
  destruct (own o k) as [v|] eqn:E.
  - destruct v as [|c v]; cbn [truthy isEmpty negb]; [|reflexivity].
    unfold set. rewrite E. now apply update_same.
  - destruct (existsb (streq k) prototypeNames) eqn:Ei; cbn [truthy negb];
      [reflexivity|].
    unfold set. rewrite E.
    destruct (streq k (js "__proto__")) eqn:Ep; [|reflexivity].
    apply streq_eq in Ep. subst k. discriminate Ei.
Qed.

Lemma insertIndex_length (k : jsstring) (ks : list jsstring) :
  length (insertIndex k ks) = S (length ks).
Proof.
  induction ks as [|k' ks IH]; simpl; [reflexivity|].
  destruct (digitsVal k <=? digitsVal k')%N; simpl; [reflexivity|]. now rewrite IH.
Qed.

(** [Object.keys] lists every own property once. *)
Lemma keys_length (o : object) : length (keys o) = length o.
Proof.
  unfold keys. rewrite length_app.
  assert (H : forall l, length (fold_right insertIndex [] l) = length l).
  { induction l as [|x l IH]; simpl; [reflexivity|]. now rewrite insertIndex_length, IH. }
  rewrite H. rewrite <- (length_map fst o).
  induction (map fst o) as [|k ks IH]; simpl; [reflexivity|].
  destruct (isArrayIndex k); simpl; lia.
Qed.

Lemma set_tidy (o : object) (k v : jsstring) (seen : list jsstring) :
  NoDup (map fst o) -> incl (map fst o) seen -> In k seen ->
  NoDup (map fst (set o k v)) /\ incl (map fst (set o k v)) seen.
Proof.
  intros Hn Hi Hk. destruct (set_names o k v) as [E|[Hnot E]]; rewrite E.
  - now split.
  - split.
    + apply NoDup_app; [assumption|constructor; [intros []|constructor]|].
      intros x Hx [<-|[]]. contradiction.
    + intros x Hx. apply in_app_or in Hx. destruct Hx as [Hx|[<-|[]]]; auto.
Qed.

Section Walk.

Variable items : list jsstring.

Lemma visit_tidy (w : walk) (line : jsstring) (seen : list jsstring) :
  tidy w seen ->
  tidy (visit items (map toLowerCase items) w line) (seen ++ namedBy items line).
Proof.
  intros [Hn [Hi Hc]]. unfold visit, namedBy.
  destruct (headerItem items (map toLowerCase items) line) as [it|].
  - assert (Hin : In (keyOf it) (seen ++ [keyOf it])) by (apply in_or_app; right; now left).
    assert (Hi' : incl (map fst (sections w)) (seen ++ [keyOf it]))
      by (intros x Hx; apply in_or_app; left; now apply Hi).
    unfold tidy. cbn [sections currentItem].
    destruct (negb (truthy (get (sections w) (keyOf it)))).
    + destruct (@set_tidy (sections w) (keyOf it) [] _ Hn Hi' Hin) as [H1 H2]. repeat split; auto.
    + repeat split; auto.
  - rewrite app_nil_r. destruct (nonEmpty (currentItem w)) eqn:E.
    + unfold tidy. cbn [sections currentItem].
      destruct (@set_tidy (sections w) (keyOf (currentItem w))
                  (toString (get (sections w) (keyOf (currentItem w))) ++ line ++ [LF])
                  seen Hn Hi (Hc eq_refl)) as [H1 H2].
      repeat split; auto.
    + unfold tidy. cbn [sections currentItem]. repeat split; auto.
      rewrite E. discriminate.
Qed.

Lemma walk_tidy (lines : list jsstring) :
  forall w seen, tidy w seen ->
  tidy (fold_left (visit items (map toLowerCase items)) lines w)
       (seen ++ flat_map (namedBy items) lines).
Proof.
  induction lines as [|l lines IH]; intros w seen H; simpl.
  - now rewrite app_nil_r.
  - rewrite app_assoc. apply IH. now apply visit_tidy.
Qed.

End Walk.

Lemma found_bound (items : list jsstring) (content : jsstring) :
  (length (keys (sections (walkLines items content)))
   <= length (namedItems items content))%nat.
Proof.
  rewrite keys_length. unfold walkLines, namedItems.
  destruct (@walk_tidy items (split LF content) start []) as [Hn [Hi _]].
  { repeat split; [constructor|intros x []|discriminate]. }
  cbn [app] in Hi. rewrite <- (length_map fst).
  apply NoDup_incl_length; [exact Hn|].
  intros x Hx. apply nodup_In. now apply Hi.
Qed.

(** C3 (amended). With fewer than two configured items, or fewer than
    two distinct items named by header lines of the text, the splitter
    returns null. *)
Theorem too_few_sections (content : jsstring) (items : list jsstring) :
  (length items < 2)%nat \/ (length (namedItems items content) < 2)%nat ->
  parseComparisonContent content items = None.
Proof.
  intros H. unfold parseComparisonContent.
  destruct (length items <=? 1)%nat eqn:E; [reflexivity|].
  apply Nat.leb_gt in E. destruct H as [H|H]; [lia|].
  pose proof (found_bound items content) as Hb.
  replace (_ <? 2)%nat with true; [reflexivity|].
  symmetry. apply Nat.ltb_lt. lia.
Qed.

Lemma too_few_sections_witness :
  parseComparisonContent (js "### Alpha\nfoo\n### Gamma\nbar") alphaBeta = None /\
  parseComparisonContent (js "### Alpha\nfoo\n### Beta\nbar") [js "Alpha"] = None.
Proof.
  split; apply too_few_sections.
  - right. vm_compute. lia.
  - left. vm_compute. lia.
Defined.

(** C3 as stated fails: after two header lines with nothing under them
    no item has received content, and the text is split all the same. *)
Lemma empty_sections_split :
  withContent (sections (walkLines alphaBeta (js "### Alpha\n### Beta"))) = [] /\
  parseComparisonContent (js "### Alpha\n### Beta") alphaBeta =
    Some {| preamble := [];
            panels := [(js "Alpha", []); (js "Beta", [])];
            foundItems := alphaBeta |}.
Proof. split; vm_compute; reflexivity. Qed.

(** C4 as stated fails: the section of Beta is not "bar" and one
    newline. *)
Lemma sample_split_not_as_stated :
  parseComparisonContent sampleSplit alphaBeta <>
    Some {| preamble := [];
            panels := [(js "Alpha", js "foo\n"); (js "Beta", js "bar\n")];
            foundItems := alphaBeta |}.
Proof. vm_compute. discriminate. Qed.

(** C4 (amended). For the items Alpha and Beta and the text
    "### Alpha\nfoo\n### Beta\nbar\n" the sections are "foo\n" for Alpha
    and "bar\n\n" for Beta, the found items are Alpha and Beta, and the
    preamble is empty. *)
Theorem sample_split :
  parseComparisonContent sampleSplit alphaBeta =
    Some {| preamble := [];
            panels := [(js "Alpha", js "foo\n"); (js "Beta", js "bar\n\n")];
            foundItems := alphaBeta |}.
Proof. vm_compute. reflexivity. Qed.

Lemma indexOfFrom_absent (x : jsstring) (a : list jsstring) : forall i,
  (0 <= i)%Z -> (indexOfFrom x a i = -1)%Z <-> ~ In x a.
Proof.
  induction a as [|y a IH]; intros i Hi; simpl; [tauto|].
  destruct (streq y x) eqn:E.
  - apply streq_eq in E. split; [lia|]. intros H. exfalso. apply H. now left.
  - apply streq_neq in E. rewrite IH by lia. tauto.
Qed.

Lemma indexOfFrom_found (f : jsstring -> jsstring) (x : jsstring)
    (items : list jsstring) : forall i,
  (0 <= i)%Z -> indexOfFrom x (map f items) i <> (-1)%Z ->
  exists item,
    nth_error items (Z.to_nat (indexOfFrom x (map f items) i - i)) = Some item /\
    f item = x /\ (i <= indexOfFrom x (map f items) i)%Z.
Proof.
  induction items as [|y items IH]; intros i Hi; simpl; [congruence|].
  destruct (streq (f y) x) eqn:E.
  - intros _. apply streq_eq in E. exists y. rewrite Z.sub_diag. simpl.
    repeat split; auto. lia.
  - intros H. destruct (IH (i + 1)%Z ltac:(lia) H) as [item [Hn [Hf Hle]]].
    exists item. split; [|split; [assumption|lia]].
    replace (Z.to_nat (indexOfFrom x (map f items) (i + 1) - i))
      with (S (Z.to_nat (indexOfFrom x (map f items) (i + 1) - (i + 1)))) by lia.
    exact Hn.
Qed.

Lemma headerItem_text (items : list jsstring) (line : jsstring) :
  headerItem items (map toLowerCase items) line =
  match headingText (trim line) with
  | Some x =>
      let i := indexOf (toLowerCase (trim x)) (map toLowerCase items) in
      if (i =? -1)%Z then None else Some (at_ items i)
  | None => None
  end.
Proof.
  unfold headerItem. rewrite exec_headerPattern.
  now destruct (headingText (trim line)).
Qed.

Lemma headerItem_named (items : list jsstring) (line : jsstring)
    (it : option jsstring) :
  headerItem items (map toLowerCase items) line = Some it ->
  exists item x,
    it = Some item /\ In item items /\
    headingText (trim line) = Some x /\
    toLowerCase item = toLowerCase (trim x).
Proof.
  rewrite headerItem_text.
  destruct (headingText (trim line)) as [x|]; [|discriminate]. cbv zeta.
  destruct (_ =? -1)%Z eqn:E; [discriminate|]. apply Z.eqb_neq in E.
  intros [= <-]. unfold indexOf in *.
  destruct (@indexOfFrom_found toLowerCase (toLowerCase (trim x)) items 0%Z
              ltac:(lia) E) as [item [Hn [Hf Hle]]].
  exists item, x. rewrite Z.sub_0_r in Hn.
  unfold at_. replace (_ <? 0)%Z with false by (symmetry; apply Z.ltb_ge; lia).
  repeat split; auto. eapply nth_error_In; eauto.
Qed.

Lemma indexOfFrom_first (f : jsstring -> jsstring) (x : jsstring)
    (items : list jsstring) : forall i,
  (0 <= i)%Z -> indexOfFrom x (map f items) i <> (-1)%Z ->
  exists before item behind,
    items = before ++ item :: behind /\
    ~ In x (map f before) /\ f item = x /\
    nth_error items (Z.to_nat (indexOfFrom x (map f items) i - i)) = Some item.
Proof.
  induction items as [|y items IH]; intros i Hi; simpl; [congruence|].
  destruct (streq (f y) x) eqn:E.
  - intros _. apply streq_eq in E. exists [], y, items.
    rewrite Z.sub_diag. simpl. repeat split; auto.
  - intros H. pose proof (@indexOfFrom_found f x items (i + 1)%Z ltac:(lia) H)
      as [_ [_ [_ Hle]]].
    destruct (IH (i + 1)%Z ltac:(lia) H) as [before [item [behind [-> [Hb [Hf Hn]]]]]].
    exists (y :: before), item, behind. apply streq_neq in E.
    repeat split; auto.
    + simpl. intros [Hy|Hin]; [congruence|contradiction].
    + replace (Z.to_nat (indexOfFrom x (map f (before ++ item :: behind)) (i + 1) - i))
        with (S (Z.to_nat (indexOfFrom x (map f (before ++ item :: behind)) (i + 1)
                           - (i + 1)))) by lia.
      exact Hn.
Qed.

(** The item a header line names is the first configured item of the
    heading's lower-case form. *)
Lemma headerItem_first (items : list jsstring) (line : jsstring)
    (it : option jsstring) :
  headerItem items (map toLowerCase items) line = Some it ->
  exists item x before behind,
    it = Some item /\
    headingText (trim line) = Some x /\
    toLowerCase item = toLowerCase (trim x) /\
    items = before ++ item :: behind /\
    ~ In (toLowerCase item) (map toLowerCase before).
Proof.
  rewrite headerItem_text.
  destruct (headingText (trim line)) as [x|]; [|discriminate]. cbv zeta.
  destruct (_ =? -1)%Z eqn:E; [discriminate|]. apply Z.eqb_neq in E.
  intros [= <-]. unfold indexOf in *.
  destruct (@indexOfFrom_first toLowerCase (toLowerCase (trim x)) items 0%Z
              ltac:(lia) E) as [before [item [behind [Hi [Hb [Hf Hn]]]]]].
  exists item, x, before, behind. rewrite Z.sub_0_r in Hn.
  pose proof (@indexOfFrom_found toLowerCase (toLowerCase (trim x)) items 0%Z
                ltac:(lia) E) as [_ [_ [_ Hle]]].
  unfold at_. replace (_ <? 0)%Z with false by (symmetry; apply Z.ltb_ge; lia).
  rewrite Hf. repeat split; auto.
Qed.

Lemma headerItem_switch (items : list jsstring) (line : jsstring) :
  headerItem items (map toLowerCase items) line <> None <->
  exists x, headingText (trim line) = Some x /\
            In (toLowerCase (trim x)) (map toLowerCase items).
Proof.
  rewrite headerItem_text.
  destruct (headingText (trim line)) as [x|].
  - cbv zeta. unfold indexOf.
    pose proof (@indexOfFrom_absent (toLowerCase (trim x)) (map toLowerCase items) 0%Z
                  ltac:(lia)) as H.
    destruct (_ =? -1)%Z eqn:E.
    + apply Z.eqb_eq in E. split; [congruence|].
      intros [y [[= <-] Hy]]. tauto.
    + apply Z.eqb_neq in E. split; [|discriminate]. intros _. exists x.
      split; [reflexivity|].
      destruct (in_dec (list_eq_dec ascii_dec) (toLowerCase (trim x))
                  (map toLowerCase items)); tauto.
  - split; [congruence|]. intros [x [H _]]. discriminate.
Qed.

(** C2 (amended). A line switches the current item exactly when its
    trimmed form has a heading text (the text between an opening "###",
    "[" or "**" and the first "]" or "**" after it, or the end of the
    line, trimmed and free of line terminators) whose lower-case form is
    the lower-case form of a configured item. Then the current item is
    the first configured item of that lower-case form, the preamble is
    unchanged, and the sections are unchanged but for one case: when the
    item owns no section and its name is not that of an inherited
    property, an empty section is created for it, last in order. Any
    other line, with a newline, goes to the section of the active item
    when one with a non-empty name is active, and to the preamble
    otherwise, and to nothing else. *)
Theorem header_switch (items : list jsstring) (w : walk) (line : jsstring) :
  let norm := map toLowerCase items in
  let w' := visit items norm w line in
  let k := keyOf (currentItem w) in
  (headerItem items norm line <> None <->
   exists x, headingText (trim line) = Some x /\
             In (toLowerCase (trim x)) norm) /\
  (forall it, headerItem items norm line = Some it ->
     exists item x before behind,
       it = Some item /\
       headingText (trim line) = Some x /\
       toLowerCase item = toLowerCase (trim x) /\
       items = before ++ item :: behind /\
       ~ In (toLowerCase item) (map toLowerCase before) /\
       currentItem w' = Some item /\
       generalContent w' = generalContent w /\
       sections w' =
         match own (sections w) item with
         | Some _ => sections w
         | None =>
             if inherited item then sections w
             else sections w ++ [(item, [])]
         end) /\
  (headerItem items norm line = None ->
     currentItem w' = currentItem w /\
     if nonEmpty (currentItem w) then
       generalContent w' = generalContent w /\
       (k <> js "__proto__" ->
        own (sections w') k =
          Some (toString (get (sections w) k) ++ line ++ [LF])) /\
       (forall k', k' <> k -> own (sections w') k' = own (sections w) k')
     else
       generalContent w' = generalContent w ++ line ++ [LF] /\
       sections w' = sections w).
Proof.
  intros norm w' k. split; [apply headerItem_switch|]. split.
  - intros it H.
    destruct (headerItem_first _ _ H)
      as [item [x [before [behind [-> [Hx [Hl [Hi Hb]]]]]]]].
    exists item, x, before, behind.
    subst w'. unfold visit. subst norm. rewrite H.
    cbn [currentItem generalContent sections keyOf].
    rewrite section_opening. repeat split; auto.
  - intros H. subst w'. unfold visit. subst norm. rewrite H.
    destruct (nonEmpty (currentItem w)) eqn:E; cbn [currentItem generalContent sections].
    + repeat split.
      * intros Hk. apply own_set_same. now left.
      * intros k' Hk'. now apply own_set_other.
    + repeat split.
Qed.

Lemma header_switch_witness :
  currentItem (visit alphaBeta (map toLowerCase alphaBeta) midWalk (js "**Beta** rocks"))
    = Some (js "Beta") /\
  sections (visit alphaBeta (map toLowerCase alphaBeta) midWalk (js "**Beta** rocks"))
    = [(js "Alpha", js "foo\n"); (js "Beta", [])] /\
  sections (visit inheritedNames (map toLowerCase inheritedNames) start
              (js "### constructor"))
    = [] /\
  own (sections (visit alphaBeta (map toLowerCase alphaBeta) midWalk (js "bar")))
      (js "Alpha") = Some (js "foo\nbar\n").
Proof.
  destruct (header_switch alphaBeta midWalk (js "**Beta** rocks")) as [_ [H _]].
  destruct (header_switch inheritedNames start (js "### constructor"))
    as [_ [Hc _]].
  destruct (header_switch alphaBeta midWalk (js "bar")) as [_ [_ H']].
  destruct (H (Some (js "Beta")))
    as [item [x [before [behind [Hit [_ [_ [_ [_ [Hcur [_ Hsec]]]]]]]]]]];
    [vm_compute; reflexivity|].
  injection Hit as <-.
  destruct (Hc (Some (js "constructor")))
    as [item [y [before' [behind' [Hit' [_ [_ [_ [_ [_ [_ Hsec']]]]]]]]]]];
    [vm_compute; reflexivity|].
  injection Hit' as <-.
  split; [exact Hcur|]. split; [exact Hsec|]. split; [exact Hsec'|].
  destruct H' as [_ H']; [vm_compute; reflexivity|].
  change (nonEmpty (currentItem midWalk)) with true in H'. cbv iota in H'.
  destruct H' as [_ [H' _]]. apply H'. vm_compute. discriminate.
Defined.

(** C2 as stated fails: the line "[Alpha] is nice" switches to Alpha,
    and it is none of "###" X, "[" X "]" and "**" X "**". *)
Lemma bracket_prefix_switches :
  headerItem alphaBeta (map toLowerCase alphaBeta) (js "[Alpha] is nice") =
    Some (Some (js "Alpha")) /\
  ~ exists x, wholeHeading (trim (js "[Alpha] is nice")) x.
Proof.
  split; [vm_compute; reflexivity|].
  intros [x [H|[H|H]]].
  - vm_compute in H. discriminate H.
  - apply (f_equal (fun l => last l " "%char)) in H.
    change (js "[" ++ x ++ js "]") with (("["%char :: x) ++ ["]"%char]) in H.
    rewrite last_last in H. vm_compute in H. discriminate H.
  - apply (f_equal (fun l => last l " "%char)) in H.
    change (js "**" ++ x ++ js "**")
      with (("*"%char :: "*"%char :: x) ++ ["*"%char; "*"%char]) in H.
    replace (("*"%char :: "*"%char :: x) ++ ["*"%char; "*"%char])
      with (("*"%char :: "*"%char :: x ++ ["*"%char]) ++ ["*"%char]) in H
      by (cbn [app]; now rewrite <- app_assoc).
    rewrite last_last in H. vm_compute in H. discriminate H.
Qed.

(* ================================================================== *)
(** * Text normalisation *)
(* ================================================================== *)

Lemma endLine_dropWhile (s : jsstring) : endLine (dropWhile isDot s).
Proof.
  induction s as [|c s IH]; simpl; [exact I|].
  destruct (isDot c) eqn:E; [exact IH|]. exact E.
Qed.

Lemma atEol_line (s : jsstring) : atEol true s = isEmpty (takeWhile isDot s).
Proof.
  destruct s as [|c s]; [reflexivity|]. cbn [atEol takeWhile andb].
  unfold isLineTerminator. now destruct (isDot c).
Qed.

Lemma run_closeBracket (g : jsstring -> nat) prev s caps :
  run true closeBracket prev s caps (fin g) =
  match s with
  | c :: r => if Ascii.eqb c "]" && atEol true r then Some (g r, caps) else None
  | [] => None
  end.
Proof.
  unfold closeBracket. cbn [run]. destruct s as [|c r]; [reflexivity|].
  destruct (Ascii.eqb c "]"); cbn [andb]; [|reflexivity].
  now destruct (atEol true r).
Qed.

Lemma run_bracket_group (g : jsstring -> nat) (s : jsstring) : forall pre prev,
  starLazy isDot
    (fun prev' s' =>
       run true closeBracket prev' s'
         [firstn (length (pre ++ s) - length s') (pre ++ s)] (fin g)) prev s =
  if endsWith (js "]") (takeWhile isDot s)
  then Some (g (dropWhile isDot s), [pre ++ removelast (takeWhile isDot s)])
  else None.
Proof.
  change (js "]") with ["]"%char].
  induction s as [|c s IH]; intros pre prev; cbn [starLazy].
  - now rewrite run_closeBracket.
  - rewrite run_closeBracket.
    rewrite firstn_consumed.
    specialize (IH (pre ++ [c]) (Some c)).
    rewrite <- app_assoc in IH. cbn [app] in IH.
    cbn [takeWhile dropWhile].
    destruct (Ascii.eqb_spec c "]") as [->|Hc]; cbn [andb].
    + change (isDot "]") with true. cbv iota.
      rewrite endsWith_cons, atEol_line.
      destruct (takeWhile isDot s) as [|y ys] eqn:Et; cbn [isEmpty negb orElse].
      * assert (Ed : dropWhile isDot s = s).
        { destruct s as [|z s]; [reflexivity|]. cbn [takeWhile dropWhile] in *.
          destruct (isDot z); [discriminate|reflexivity]. }
        rewrite Ed. cbn [removelast]. now rewrite app_nil_r.
      * rewrite IH. rewrite (@removelast_cons "]"%char (y :: ys)) by discriminate.
        rewrite <- app_assoc. reflexivity.
    + cbn [orElse]. destruct (isDot c) eqn:Ed; [|reflexivity].
      rewrite IH, endsWith_cons.
      destruct (takeWhile isDot s) as [|y ys] eqn:Et.
      * replace (Ascii.eqb "]" c) with false
          by (symmetry; apply Ascii.eqb_neq; congruence).
        reflexivity.
      * rewrite (@removelast_cons c (y :: ys)) by discriminate.
        rewrite <- app_assoc. reflexivity.
Qed.

Lemma bracketLine_parts :
  bracketLine = Seq Bol (Seq (Char "[") (Seq (Group (Star false isDot)) closeBracket)).
Proof. reflexivity. Qed.

(** The bracket pattern matches at the start of a line that opens with a
    bracket and ends with one. *)
Lemma matchHere_bracket (prev : option ascii) (s : jsstring) :
  matchHere true bracketLine prev s =
  if atBol true prev && startsWith (js "[") s
     && endsWith (js "]") (takeWhile isDot (skipn 1 s))
  then Some (S (length (takeWhile isDot (skipn 1 s))),
             [removelast (takeWhile isDot (skipn 1 s))])
  else None.
Proof.
  unfold matchHere. rewrite bracketLine_parts.
  set (g := fun s' : jsstring => (length s - length s')%nat).
  change (fun (_ : option ascii) (s' : jsstring) (caps : captures) => Some (g s', caps))
    with (fin g).
  cbn [run]. destruct (atBol true prev); [|reflexivity]. cbn [andb].
  change (js "[") with ["["%char]. cbn [startsWith].
  destruct s as [|c s]; [reflexivity|].
  rewrite (Ascii.eqb_sym "[" c). destruct (Ascii.eqb c "["); [|reflexivity].
  cbn [andb skipn app].
  change (starLazy isDot
            (fun prev' s' => run true closeBracket prev' s'
               [firstn (length ([] ++ s) - length s') ([] ++ s)] (fin g)) (Some c) s =
          (if endsWith (js "]") (takeWhile isDot s)
           then Some (S (length (takeWhile isDot s)), [removelast (takeWhile isDot s)])
           else None)).
  rewrite run_bracket_group. destruct (endsWith _ _); [|reflexivity].
  cbn [app]. f_equal. f_equal. subst g. cbn [length].
  rewrite <- (takeWhile_dropWhile isDot s) at 1.
  rewrite length_app. lia.
Qed.

Lemma mapLines_unfold (f : jsstring -> jsstring) (s : jsstring) : forall cur,
  mapLines f cur s =
  f (cur ++ takeWhile isDot s) ++
  match dropWhile isDot s with
  | [] => []
  | t :: r => t :: mapLines f [] r
  end.
Proof.
  induction s as [|c s IH]; intros cur; cbn [mapLines takeWhile dropWhile].
  - now rewrite !app_nil_r.
  - unfold isLineTerminator. destruct (isDot c); cbn [negb].
    + rewrite IH. now rewrite <- app_assoc.
    + now rewrite app_nil_r.
Qed.

Lemma bracket_inside (tpl : list piece) (s : jsstring) : forall c,
  isDot c = true ->
  replaceFrom true bracketLine tpl 0 (Some c) s =
  takeWhile isDot s ++
  match dropWhile isDot s with
  | [] => []
  | t :: r => t :: replaceFrom true bracketLine tpl 0 (Some t) r
  end.
Proof.
  induction s as [|x s IH]; intros c Hc.
  - rewrite replaceFrom_miss; [reflexivity|].
    rewrite matchHere_bracket. cbn [atBol]. unfold isLineTerminator.
    now rewrite Hc.
  - rewrite replaceFrom_miss.
    2:{ rewrite matchHere_bracket. cbn [atBol]. unfold isLineTerminator.
        now rewrite Hc. }
    cbn [takeWhile dropWhile]. destruct (isDot x) eqn:Ex; [|reflexivity].
    now rewrite (IH x Ex).
Qed.

Lemma bracket_line_start (s : jsstring) (prev : option ascii) :
  atBol true prev = true ->
  replaceFrom true bracketLine bracketTemplate 0 prev s =
  unbracket (takeWhile isDot s) ++
  match dropWhile isDot s with
  | [] => []
  | t :: r => t :: replaceFrom true bracketLine bracketTemplate 0 (Some t) r
  end.
Proof.
  intros Hb.
  pose proof (matchHere_bracket prev s) as Hm. rewrite Hb in Hm. cbn [andb] in Hm.
  assert (Hcond : startsWith (js "[") (takeWhile isDot s)
                  && endsWith (js "]") (skipn 1 (takeWhile isDot s)) =
                  startsWith (js "[") s
                  && endsWith (js "]") (takeWhile isDot (skipn 1 s))).
  { change (js "[") with ["["%char]. destruct s as [|c s]; [reflexivity|].
    cbn [startsWith takeWhile skipn]. destruct (Ascii.eqb_spec "["%char c) as [<-|Hc].
    - reflexivity.
    - destruct (isDot c); cbn [startsWith andb]; [|reflexivity].
      replace (Ascii.eqb "[" c) with false by (symmetry; now apply Ascii.eqb_neq).
      reflexivity. }
  assert (Hskip : startsWith (js "[") s = true ->
                  skipn 1 (takeWhile isDot s) = takeWhile isDot (skipn 1 s) /\
                  takeWhile isDot s <> []).
  { change (js "[") with ["["%char]. destruct s as [|c s]; [discriminate|].
    cbn [startsWith takeWhile skipn]. destruct (Ascii.eqb_spec "["%char c) as [<-|Hc];
      [|discriminate].
    intros _. change (isDot "[") with true. cbv iota. split; [reflexivity|discriminate]. }
  unfold unbracket. rewrite Hcond.
  destruct (startsWith (js "[") s && endsWith (js "]") (takeWhile isDot (skipn 1 s))) eqn:Ec.
  - apply andb_true_iff in Ec. destruct Ec as [Es Ee].
    destruct (Hskip Es) as [Hsk Hne].
    set (B := takeWhile isDot s) in *. set (R := dropWhile isDot s) in *.
    assert (HBR : s = B ++ R) by (symmetry; apply takeWhile_dropWhile).
    assert (HlenB : length B = S (length (takeWhile isDot (skipn 1 s)))).
    { rewrite <- Hsk. destruct B; [congruence|reflexivity]. }
    rewrite <- HlenB in Hm.
    rewrite HBR at 1. rewrite replaceFrom_hit with (caps := [removelast (takeWhile isDot (skipn 1 s))]);
      [|exact Hne|now rewrite <- HBR].
    unfold bracketTemplate, expand. cbn [map concat nth Nat.sub].
    rewrite app_nil_r, Hsk. rewrite <- !app_assoc. do 2 f_equal.
    destruct (@lastOr_dot prev B Hne (takeWhile_all isDot s)) as [c [Hl Hc]].
    rewrite Hl, (bracket_inside _ R c Hc).
    subst R. rewrite dropWhile_idem.
    assert (Ht : takeWhile isDot (dropWhile isDot s) = []).
    { pose proof (endLine_dropWhile s) as He.
      destruct (dropWhile isDot s) as [|t r]; [reflexivity|].
      simpl in He. cbn [takeWhile]. now rewrite He. }
    now rewrite Ht.
  - rewrite replaceFrom_miss by exact Hm.
    destruct s as [|c s]; [reflexivity|].
    cbn [takeWhile dropWhile]. destruct (isDot c) eqn:Ed; [|reflexivity].
    rewrite (bracket_inside bracketTemplate s c Ed). reflexivity.
Qed.

(** The first replacement rewrites the bracketed lines. *)
Lemma replace_brackets (s : jsstring) :
  replaceAll true bracketLine bracketTemplate s = rewriteBrackets s.
Proof.
  unfold replaceAll, rewriteBrackets.
  assert (H : forall n s prev, (length s <= n)%nat -> atBol true prev = true ->
              replaceFrom true bracketLine bracketTemplate 0 prev s =
              mapLines unbracket [] s).
  { clear s. induction n as [|n IH]; intros s prev Hn Hb;
      rewrite bracket_line_start, mapLines_unfold by exact Hb; cbn [app].
    - destruct s; [reflexivity|simpl in Hn; lia].
    - pose proof (dropWhile_shorter isDot s) as Hs.
      pose proof (endLine_dropWhile s) as He.
      destruct (dropWhile isDot s) as [|t r]; [reflexivity|].
      simpl in He, Hs. rewrite IH; [reflexivity|lia|].
      cbn [atBol andb]. unfold isLineTerminator. now rewrite He. }
  now apply (H (length s)).
Qed.

Lemma split_unfold (s : jsstring) :
  split LF s =
  takeWhile notLF s ::
  match dropWhile notLF s with
  | [] => []
  | _ :: r => split LF r
  end.
Proof.
  induction s as [|c s IH]; [reflexivity|].
  cbn [split takeWhile dropWhile]. unfold notLF at 1 3.
  destruct (Ascii.eqb c LF); cbn [negb]; [reflexivity|].
  now rewrite IH.
Qed.

Lemma dropWhile_notLF (s : jsstring) :
  match dropWhile notLF s with
  | [] => True
  | c :: _ => c = LF
  end.
Proof.
  induction s as [|c s IH]; simpl; [exact I|].
  unfold notLF at 1. destruct (Ascii.eqb_spec c LF) as [->|H]; simpl; [reflexivity|exact IH].
Qed.

Lemma next_is_LF (r : jsstring) :
  match split LF r with
  | next :: after => isEmpty next && negb (isEmpty after)
  | [] => false
  end = startsWith [LF] r.
Proof.
  rewrite split_unfold. destruct r as [|c r]; [reflexivity|].
  cbn [startsWith takeWhile dropWhile]. unfold notLF.
  rewrite (Ascii.eqb_sym LF c), andb_true_r.
  destruct (Ascii.eqb c LF); cbn [negb isEmpty andb]; [|reflexivity].
  now rewrite (split_unfold r).
Qed.

Lemma spaceHeadings_unfold (s : jsstring) :
  spaceHeadings (split LF s) =
  let l := takeWhile notLF s in
  match dropWhile notLF s with
  | [] => l
  | _ :: r =>
      l ++ LF ::
        (if hasHeading l && negb (startsWith [LF] r) then [LF] else [])
        ++ spaceHeadings (split LF r)
  end.
Proof.
  cbv zeta. rewrite split_unfold.
  destruct (dropWhile notLF s) as [|x r]; [reflexivity|].
  pose proof (next_is_LF r) as Hn.
  destruct (split LF r) as [|next after] eqn:E.
  - rewrite split_unfold in E. discriminate E.
  - cbn [spaceHeadings]. now rewrite Hn.
Qed.

Lemma lines_again (s : jsstring) :
  match dropWhile notLF s with
  | [] => s = takeWhile notLF s
  | _ :: r => s = takeWhile notLF s ++ LF :: r
  end.
Proof.
  pose proof (takeWhile_dropWhile notLF s) as H.
  pose proof (dropWhile_notLF s) as Hc.
  destruct (dropWhile notLF s) as [|c r].
  - now rewrite app_nil_r in H.
  - now subst c.
Qed.

Lemma run_breakTail (g : jsstring -> nat) prev s caps :
  run false breakTail prev s caps (fin g) =
  match s with
  | c :: r =>
      if Ascii.eqb c LF && negb (startsWith [LF] r) then Some (g r, caps) else None
  | [] => None
  end.
Proof.
  unfold breakTail. cbn [run]. destruct s as [|c r]; [reflexivity|].
  destruct (Ascii.eqb c LF); cbn [andb]; [|reflexivity].
  destruct r as [|c' r]; [reflexivity|]. cbn [startsWith].
  rewrite (Ascii.eqb_sym LF c'), andb_true_r.
  now destruct (Ascii.eqb c' LF).
Qed.

Lemma run_break_group (g : jsstring -> nat) (s : jsstring) : forall pre prev,
  starLazy isDot
    (fun prev' s' =>
       run false breakTail prev' s'
         [firstn (length (pre ++ s) - length s') (pre ++ s)] (fin g)) prev s =
  match dropWhile isDot s with
  | c :: r =>
      if Ascii.eqb c LF && negb (startsWith [LF] r)
      then Some (g r, [pre ++ takeWhile isDot s]) else None
  | [] => None
  end.
Proof.
  induction s as [|c s IH]; intros pre prev; cbn [starLazy].
  - now rewrite run_breakTail.
  - rewrite run_breakTail.
    rewrite firstn_consumed.
    specialize (IH (pre ++ [c]) (Some c)).
    rewrite <- app_assoc in IH. cbn [app] in IH.
    cbn [takeWhile dropWhile].
    destruct (Ascii.eqb_spec c LF) as [->|Hc]; cbn [andb].
    + change (isDot LF) with false. cbv iota. rewrite app_nil_r.
      now destruct (negb (startsWith [LF] s)).
    + cbn [orElse]. destruct (isDot c) eqn:Ed.
      * rewrite IH. destruct (dropWhile isDot s) as [|x r]; [reflexivity|].
        now rewrite <- app_assoc.
      * replace (Ascii.eqb c LF) with false by (symmetry; now apply Ascii.eqb_neq).
        reflexivity.
Qed.

Lemma headingBreak_parts :
  headingBreak = Seq (Lit (js "### ")) (Seq (Group (Star false isDot)) breakTail).
Proof. reflexivity. Qed.

(** The break pattern matches at a "### " that a newline ends, no other
    line terminator between, when no second newline follows. *)
Lemma matchHere_break (prev : option ascii) (s : jsstring) :
  matchHere false headingBreak prev s =
  if startsWith (js "### ") s then
    match dropWhile isDot (skipn 4 s) with
    | c :: r =>
        if Ascii.eqb c LF && negb (startsWith [LF] r)
        then Some ((5 + length (takeWhile isDot (skipn 4 s)))%nat,
                   [takeWhile isDot (skipn 4 s)])
        else None
    | [] => None
    end
  else None.
Proof.
  unfold matchHere.
  set (g := fun s' : jsstring => (length s - length s')%nat).
  change (run false (Lit (js "### ")) prev s []
            (fun p s' caps =>
               run false (Seq (Group (Star false isDot)) breakTail) p s' caps (fin g)) =
          (if startsWith (js "### ") s then
             match dropWhile isDot (skipn 4 s) with
             | c :: r =>
                 if Ascii.eqb c LF && negb (startsWith [LF] r)
                 then Some ((5 + length (takeWhile isDot (skipn 4 s)))%nat,
                            [takeWhile isDot (skipn 4 s)])
                 else None
             | [] => None
             end
           else None)).
  assert (Hk : forall p s',
    run false (Seq (Group (Star false isDot)) breakTail) p s' [] (fin g) =
    match dropWhile isDot s' with
    | c :: r =>
        if Ascii.eqb c LF && negb (startsWith [LF] r)
        then Some (g r, [takeWhile isDot s']) else None
    | [] => None
    end).
  { intros p s'. cbn [run app]. exact (run_break_group g s' [] p). }
  rewrite run_lit by (intros q q' s'; now rewrite !Hk).
  destruct (startsWith (js "### ") s) eqn:Es; [|reflexivity].
  change (length (js "### ")) with 4%nat. rewrite Hk.
  destruct (dropWhile isDot (skipn 4 s)) as [|c r] eqn:Ed; [reflexivity|].
  destruct (Ascii.eqb c LF && negb (startsWith [LF] r)); [|reflexivity].
  f_equal. f_equal. subst g. cbn beta.
  assert (Hs : s = firstn 4 s ++ takeWhile isDot (skipn 4 s) ++ c :: r).
  { rewrite <- Ed, takeWhile_dropWhile. symmetry. apply firstn_skipn. }
  assert (H4 : length (firstn 4 s) = 4%nat).
  { rewrite length_firstn. apply Nat.min_l.
    change (js "### ") with [ "#"%char; "#"%char; "#"%char; " "%char ] in Es.
    destruct s as [|? [|? [|? [|? ?]]]]; cbn [startsWith] in Es;
      rewrite ?andb_false_r in Es; try discriminate Es; simpl; lia. }
  rewrite Hs at 1. rewrite !length_app, H4. cbn [length]. lia.
Qed.

Lemma dot_notLF (a : jsstring) : forallb isDot a = true -> forallb notLF a = true.
Proof.
  induction a as [|c a IH]; simpl; [trivial|].
  intros H. apply andb_true_iff in H. destruct H as [Hc Ha].
  rewrite (IH Ha), andb_true_r. unfold notLF.
  destruct (Ascii.eqb_spec c LF) as [->|]; [discriminate Hc|reflexivity].
Qed.

Lemma hasHeading_here (x : jsstring) :
  forallb isDot x = true -> hasHeading (js "### " ++ x) = true.
Proof.
  intros H. change (js "### " ++ x)
    with ("#"%char :: "#"%char :: "#"%char :: " "%char :: x).
  cbn [hasHeading]. change (js "### ") with ["#"%char; "#"%char; "#"%char; " "%char].
  cbn [startsWith skipn]. rewrite !Ascii.eqb_refl. cbn [andb]. now rewrite H.
Qed.

Lemma break_hit (prev : option ascii) (s : jsstring) (n : nat) (caps : captures) :
  matchHere false headingBreak prev s = Some (n, caps) ->
  exists x r,
    s = (js "### " ++ x ++ [LF]) ++ r /\ n = length (js "### " ++ x ++ [LF]) /\
    caps = [x] /\ forallb isDot x = true /\ startsWith [LF] r = false.
Proof.
  rewrite matchHere_break.
  destruct (startsWith (js "### ") s) eqn:Es; [|discriminate].
  apply startsWith_prefix in Es. destruct Es as [u ->].
  change (skipn 4 (js "### " ++ u)) with u.
  pose proof (takeWhile_dropWhile isDot u) as Hu.
  pose proof (takeWhile_all isDot u) as Hd.
  destruct (dropWhile isDot u) as [|c r]; [discriminate|].
  destruct (Ascii.eqb_spec c LF) as [->|]; [|discriminate].
  destruct (startsWith [LF] r) eqn:Er; [discriminate|]. cbn [andb negb].
  intros [= <- <-]. exists (takeWhile isDot u), r.
  repeat split; auto.
  - rewrite <- Hu at 1. now rewrite <- !app_assoc.
  - rewrite !length_app. cbn [length]. change (length (js "### ")) with 4%nat. lia.
Qed.

Lemma break_miss (prev : option ascii) (l r : jsstring) :
  matchHere false headingBreak prev (l ++ LF :: r) = None ->
  forallb notLF l = true -> startsWith [LF] r = false ->
  startsWith (js "### ") l && forallb isDot (skipn 4 l) = false.
Proof.
  intros Hm Hl Hr.
  destruct (startsWith (js "### ") l && forallb isDot (skipn 4 l)) eqn:E; [|reflexivity].
  exfalso. apply andb_true_iff in E. destruct E as [Es Ed].
  apply startsWith_prefix in Es. destruct Es as [x ->].
  change (skipn 4 (js "### " ++ x)) with x in Ed.
  rewrite matchHere_break in Hm.
  replace (startsWith (js "### ") ((js "### " ++ x) ++ LF :: r)) with true in Hm.
  2:{ symmetry. apply startsWith_prefix. exists (x ++ LF :: r). now rewrite <- app_assoc. }
  rewrite <- app_assoc in Hm.
  change (skipn 4 (js "### " ++ x ++ LF :: r)) with (x ++ LF :: r) in Hm.
  destruct (@takeWhile_app_stop _ isDot x LF r Ed eq_refl) as [_ Hdrop].
  rewrite Hdrop, Ascii.eqb_refl, Hr in Hm. discriminate Hm.
Qed.

(** The second replacement puts a newline after the lines that hold a
    heading. *)
Lemma replace_breaks (s : jsstring) :
  replaceAll false headingBreak breakTemplate s = spaceHeadings (split LF s).
Proof.
  unfold replaceAll.
  assert (H : forall n s prev, (length s <= n)%nat ->
              replaceFrom false headingBreak breakTemplate 0 prev s =
              spaceHeadings (split LF s)).
  { clear s. induction n as [|n IH]; intros s prev Hn.
    { destruct s; [reflexivity|simpl in Hn; lia]. }
    destruct (matchHere false headingBreak prev s) as [[m caps]|] eqn:Em.
    - destruct (break_hit _ _ Em) as [x [r [-> [-> [-> [Hx Hr]]]]]].
      rewrite replaceFrom_hit with (caps := [x]); [|now destruct x|exact Em].
      rewrite IH.
      2:{ rewrite !length_app in Hn. cbn [length] in Hn. lia. }
      rewrite (spaceHeadings_unfold ((js "### " ++ x ++ [LF]) ++ r)). cbv zeta.
      replace ((js "### " ++ x ++ [LF]) ++ r) with ((js "### " ++ x) ++ LF :: r)
        by (now rewrite <- !app_assoc).
      destruct (@takeWhile_app_stop _ notLF (js "### " ++ x) LF r) as [Ht Hd];
        [|reflexivity|].
      { rewrite forallb_app. now rewrite (dot_notLF x Hx). }
      rewrite Ht, Hd, (hasHeading_here x Hx), Hr. cbn [andb negb].
      unfold breakTemplate, expand. cbn [map concat nth Nat.sub].
      rewrite app_nil_r, <- !app_assoc. reflexivity.
    - rewrite replaceFrom_miss by exact Em.
      destruct s as [|c s]; [reflexivity|].
      rewrite IH by (simpl in Hn; lia).
      rewrite (spaceHeadings_unfold (c :: s)). cbv zeta.
      cbn [takeWhile dropWhile].
      destruct (notLF c) eqn:Ec.
      + rewrite (spaceHeadings_unfold s). cbv zeta.
        pose proof (lines_again s) as Hs.
        destruct (dropWhile notLF s) as [|y r]; [reflexivity|].
        cbn [app]. f_equal. f_equal.
        destruct (startsWith [LF] r) eqn:Er; [now rewrite !andb_false_r|].
        cbn [negb]. rewrite !andb_true_r.
        cbn [hasHeading].
        rewrite (@break_miss prev (c :: takeWhile notLF s) r); [reflexivity| | |exact Er].
        * cbn [app]. now rewrite <- Hs.
        * cbn [forallb]. rewrite Ec. apply takeWhile_all.
      + apply negb_false_iff, Ascii.eqb_eq in Ec. subst c. reflexivity. }
  now apply (H (length s)).
Qed.

(** C9 (amended). The text handed to the markdown renderer is the input
    with every line that opens with "[" and ends with "]" turned into
    "### " and the inner text, a line being what stands between two line
    terminators, and then with one more line feed after every line feed
    before which, with no other line terminator between, some "### "
    stands, unless a line feed follows at once. *)
Theorem normalization (content : jsstring) :
  renderMarkdown content = spaceHeadings (split LF (rewriteBrackets content)).
Proof.
  unfold renderMarkdown.
  change [Text (js "### "); Ref 1; Text [LF; LF]] with breakTemplate.
  change [Text (js "### "); Ref 1] with bracketTemplate.
  now rewrite replace_brackets, replace_breaks.
Qed.

(** C9 as stated fails: "### " inside a line gets the blank line too,
    although no line begins with it and none is bracketed. *)
Lemma heading_inside_line :
  renderMarkdown (js "a ### b\nc") = js "a ### b\n\nc" /\
  normalizeAsSpecified (js "a ### b\nc") = js "a ### b\nc".
Proof. split; vm_compute; reflexivity. Qed.

(* ================================================================== *)
(** * The table extractor, further *)
(* ================================================================== *)

Lemma split_head (c : ascii) (s : jsstring) : split c s <> [].
Proof.
  destruct s as [|x r]; cbn [split]; [discriminate|].
  destruct (Ascii.eqb x c); [discriminate|].
  destruct (split c r); discriminate.
Qed.

Lemma split_app (c : ascii) (a b : jsstring) :
  split c (a ++ c :: b) = split c a ++ split c b.
Proof.
  induction a as [|x a IH]; cbn [app split].
  - now rewrite Ascii.eqb_refl.
  - destruct (Ascii.eqb x c); [now rewrite IH|].
    rewrite IH. pose proof (split_head c a) as Hne.
    destruct (split c a) as [|h t]; [contradiction|reflexivity].
Qed.

Lemma split_one (c : ascii) (s : jsstring) : ~ In c s -> split c s = [s].
Proof.
  induction s as [|x r IH]; intros Hin; cbn [split]; [reflexivity|].
  destruct (Ascii.eqb_spec x c) as [->|_]; [exfalso; apply Hin; now left|].
  rewrite IH; [reflexivity|]. intros H. apply Hin. now right.
Qed.

Lemma split_free (c : ascii) (s : jsstring) :
  Forall (fun piece => ~ In c piece) (split c s).
Proof.
  induction s as [|x r IH]; cbn [split].
  - constructor; [intros []|constructor].
  - destruct (Ascii.eqb_spec x c) as [->|Hx].
    + constructor; [intros []|exact IH].
    + destruct (split c r) as [|h t].
      * constructor; [|constructor]. intros [H|[]]. now apply Hx.
      * apply Forall_cons_iff in IH. destruct IH as [Hh Ht].
        constructor; [|exact Ht]. intros [H|H]; [now apply Hx|now apply Hh].
Qed.

Lemma dropWhile_app_stop (A : Type) (p : A -> bool) (a b : list A) :
  (exists x, In x a /\ p x = false) ->
  dropWhile p (a ++ b) = dropWhile p a ++ b.
Proof.
  induction a as [|x a IH]; intros [y [Hy Hp]]; [destruct Hy|].
  cbn [app dropWhile]. destruct (p x) eqn:Ex; [|reflexivity].
  apply IH. destruct Hy as [->|Hy]; [congruence|]. now exists y.
Qed.

Lemma takeWhile_app_end (A : Type) (p : A -> bool) (a : list A) (b : A)
    (t : list A) :
  p b = false -> takeWhile p (a ++ b :: t) = takeWhile p (a ++ [b]).
Proof.
  intros Hb. induction a as [|x a IH]; cbn [app takeWhile].
  - now rewrite Hb.
  - destruct (p x); [now rewrite IH|reflexivity].
Qed.

(** The first run ends at the first other line behind a table line, so
    the lines after that line play no part. *)
Lemma firstRun_cut (hd : list jsstring) (b : jsstring) (tl : list jsstring) :
  (exists l, In l hd /\ isTableLine l = true) -> isTableLine b = false ->
  firstRun (hd ++ b :: tl) = firstRun (hd ++ [b]).
Proof.
  intros [l [Hl Ht]] Hb. unfold firstRun.
  assert (Hex : exists x, In x hd /\ negb (isTableLine x) = false).
  { exists l. split; [exact Hl|]. now rewrite Ht. }
  rewrite !dropWhile_app_stop by exact Hex.
  now apply takeWhile_app_end.
Qed.

(** X1. Only the first table of a text is read: once a table line has
    been seen, the text behind the first line that is no table line (a
    second table, for one) changes neither what the extractor returns
    nor what the component renders. *)
Theorem later_text_ignored (head breaker tail : jsstring) :
  (exists l, In l (split LF head) /\ isTableLine l = true) ->
  isTableLine breaker = false -> ~ In LF breaker ->
  parseMarkdownTable (head ++ LF :: breaker ++ LF :: tail)
    = parseMarkdownTable (head ++ LF :: breaker) /\
  GraphDisplay (head ++ LF :: breaker ++ LF :: tail)
    = GraphDisplay (head ++ LF :: breaker).
Proof.
  intros Hhead Hb Hlf.
  assert (Hparse : parseMarkdownTable (head ++ LF :: breaker ++ LF :: tail)
                   = parseMarkdownTable (head ++ LF :: breaker)).
  { rewrite !parseMarkdownTable_run.
    assert (Hrun : firstRun (split LF (head ++ LF :: breaker ++ LF :: tail))
                   = firstRun (split LF (head ++ LF :: breaker))).
    { rewrite !split_app. rewrite (@split_one LF breaker Hlf).
      change ([breaker] ++ split LF tail) with (breaker :: split LF tail).
      now apply firstRun_cut. }
    now rewrite Hrun. }
  split; [exact Hparse|].
  unfold GraphDisplay. now rewrite Hparse.
Qed.

Lemma later_text_ignored_witness :
  GraphDisplay sampleTwoTables
    = GraphDisplay (js "| Year | Sales |\n| --- | --- |\n| 2023 | 10 |\nand the second table").
Proof.
  refine (proj2 (@later_text_ignored
           (js "| Year | Sales |\n| --- | --- |\n| 2023 | 10 |")
           (js "and the second table")
           (js "| Year | Costs |\n| --- | --- |\n| 2023 | 7 |") _ _ _)).
  - exists (js "| Year | Sales |"). split; [vm_compute; auto|reflexivity].
  - reflexivity.
  - vm_compute. intuition discriminate.
Defined.

Lemma dropWhile_incl (A : Type) (p : A -> bool) (s : list A) (x : A) :
  In x (dropWhile p s) -> In x s.
Proof.
  induction s as [|c r IH]; cbn [dropWhile]; [intros []|].
  destruct (p c); [|exact (fun H => H)].
  intros H. right. now apply IH.
Qed.

Lemma trim_incl (s : jsstring) (x : ascii) : In x (trim s) -> In x s.
Proof.
  unfold trim, trimEnd, trimStart. intros H.
  apply in_rev in H. apply dropWhile_incl in H. apply in_rev in H.
  now apply dropWhile_incl in H.
Qed.

Lemma trimEnd_idem (s : jsstring) : trimEnd (trimEnd s) = trimEnd s.
Proof.
  unfold trimEnd. now rewrite rev_involutive, dropWhile_idem.
Qed.

Lemma dropWhile_head (A : Type) (p : A -> bool) (s : list A) :
  match dropWhile p s with
  | [] => True
  | c :: _ => p c = false
  end.
Proof.
  induction s as [|c r IH]; cbn [dropWhile]; [exact I|].
  destruct (p c) eqn:E; [exact IH|exact E].
Qed.

Lemma trimStart_trimEnd (s : jsstring) :
  trimStart (trimEnd (trimStart s)) = trimEnd (trimStart s).
Proof.
  unfold trimStart at 2 3. pose proof (dropWhile_head isWhiteSpace s) as Hh.
  destruct (dropWhile isWhiteSpace s) as [|c r]; [reflexivity|].
  rewrite trimEnd_cons. unfold trimStart.
  destruct (trimEnd r); rewrite ?Hh; cbn [dropWhile]; now rewrite Hh.
Qed.

Lemma trim_idem (s : jsstring) : trim (trim s) = trim s.
Proof.
  unfold trim. now rewrite trimStart_trimEnd, trimEnd_idem.
Qed.

Lemma cells_clean (l : jsstring) : Forall cleanCell (cells l).
Proof.
  unfold cells. apply Forall_forall. intros c Hc.
  apply in_map_iff in Hc. destruct Hc as [p [<- Hp]].
  apply filter_In in Hp. destruct Hp as [Hp Hne].
  pose proof (split_free "|" l) as Hfree.
  rewrite Forall_forall in Hfree. specialize (Hfree p Hp).
  repeat split.
  - intros E. now rewrite E in Hne.
  - apply trim_idem.
  - intros H. apply Hfree. now apply trim_incl.
Qed.

(** X2. Every header and every data cell of an extracted table is a
    non-empty text with no white space at either end and no pipe in
    it. *)
Theorem extracted_cells_clean (md : jsstring) (t : table) :
  parseMarkdownTable md = Normal (Some t) ->
  Forall cleanCell (headers t) /\ Forall (Forall cleanCell) (data t).
Proof.
  rewrite parseMarkdownTable_run. cbv zeta.
  destruct (length _ <? 3)%nat; [discriminate|].
  destruct (dividerPos _) as [[|d]|]; try discriminate.
  intros [= <-]. cbn [headers data]. split; [apply cells_clean|].
  unfold rowsOf. apply Forall_forall. intros row Hrow.
  apply filter_In in Hrow. destruct Hrow as [Hrow _].
  apply in_map_iff in Hrow. destruct Hrow as [l [<- _]].
  apply cells_clean.
Qed.

Lemma extracted_cells_clean_witness :
  Forall cleanCell (headers sampleCitiesTable) /\
  Forall (Forall cleanCell) (data sampleCitiesTable).
Proof.
  apply (@extracted_cells_clean sampleCities sampleCitiesTable).
  reflexivity.
Defined.

(** X3. The component fails in one case only: it throws a TypeError
    exactly when the first run of table lines has three lines or more
    and its first line is a divider; for every other text it returns. *)
Theorem GraphDisplay_fails_only_there (content : jsstring) :
  let run := firstRun (split LF content) in
  (GraphDisplay content = Throw TypeError <->
     (3 <= length run)%nat /\ isDivider (nth 0 run []) = true) /\
  ((length run < 3)%nat \/ isDivider (nth 0 run []) = false ->
     exists shown, GraphDisplay content = Normal shown).
Proof.
  cbv zeta.
  assert (Hiff : GraphDisplay content = Throw TypeError <->
                 (3 <= length (firstRun (split LF content)))%nat /\
                 isDivider (nth 0 (firstRun (split LF content)) []) = true).
  { rewrite GraphDisplay_throws. apply throws_when_divider_first. }
  split; [exact Hiff|].
  intros Hno. destruct (GraphDisplay content) as [shown|e] eqn:E.
  - now exists shown.
  - destruct e. destruct (proj1 Hiff eq_refl) as [H3 Hd].
    destruct Hno as [Hlt|Hnd]; [lia|congruence].
Qed.

Lemma GraphDisplay_fails_only_there_witness :
  exists shown, GraphDisplay sampleNoTable = Normal shown.
Proof.
  apply (proj2 (GraphDisplay_fails_only_there sampleNoTable)).
  left. vm_compute. lia.
Defined.

(* ================================================================== *)
(** * A table written out and read back *)
(* ================================================================== *)

Lemma trim_ends (s : jsstring) :
  match s with
  | c :: _ => isWhiteSpace c = false
  | [] => True
  end ->
  match rev s with
  | c :: _ => isWhiteSpace c = false
  | [] => True
  end ->
  trim s = s.
Proof.
  intros Hs He. unfold trim, trimEnd, trimStart.
  assert (E1 : dropWhile isWhiteSpace s = s).
  { destruct s as [|c r]; [reflexivity|]. cbn [dropWhile]. now rewrite Hs. }
  rewrite E1.
  assert (E2 : dropWhile isWhiteSpace (rev s) = rev s).
  { destruct (rev s) as [|c r]; [reflexivity|]. cbn [dropWhile]. now rewrite He. }
  rewrite E2. apply rev_involutive.
Qed.

(** A trimmed text that is not empty begins and ends with something
    else than white space. *)
Lemma trimmed_ends (c : jsstring) :
  trim c = c -> c <> [] ->
  (exists x r, c = x :: r /\ isWhiteSpace x = false) /\
  (exists y b, c = b ++ [y] /\ isWhiteSpace y = false).
Proof.
  intros Ht Hne. unfold trim, trimEnd, trimStart in Ht.
  assert (Hlen : length (dropWhile isWhiteSpace
                           (rev (dropWhile isWhiteSpace c))) = length c).
  { rewrite <- (length_rev (dropWhile _ (rev _))). now rewrite Ht. }
  pose proof (dropWhile_shorter isWhiteSpace c) as H1.
  pose proof (dropWhile_shorter isWhiteSpace (rev (dropWhile isWhiteSpace c)))
    as H2.
  rewrite length_rev in H2.
  assert (Es : dropWhile isWhiteSpace c = c).
  { destruct c as [|x r]; [reflexivity|]. cbn [dropWhile] in *.
    destruct (isWhiteSpace x); [|reflexivity].
    pose proof (dropWhile_shorter isWhiteSpace r). cbn [length] in *. lia. }
  rewrite Es in Ht, Hlen. split.
  - destruct c as [|x r]; [contradiction|]. exists x, r. split; [reflexivity|].
    cbn [dropWhile] in Es. destruct (isWhiteSpace x) eqn:Ex; [|reflexivity].
    pose proof (dropWhile_shorter isWhiteSpace r) as Hr.
    apply (f_equal (@length ascii)) in Es. cbn [length] in Es. lia.
  - destruct (rev c) as [|y b] eqn:Er.
    + apply (f_equal (@rev ascii)) in Er. rewrite rev_involutive in Er.
      contradiction.
    + exists y, (rev b). split.
      * apply (f_equal (@rev ascii)) in Er. rewrite rev_involutive in Er.
        exact Er.
      * cbn [dropWhile] in Hlen. destruct (isWhiteSpace y) eqn:Ey; [|reflexivity].
        pose proof (dropWhile_shorter isWhiteSpace b) as Hb.
        rewrite <- (length_rev c), Er in Hlen. cbn [length] in Hlen. lia.
Qed.

Lemma trim_padded (c : jsstring) :
  trim c = c -> c <> [] -> trim (" "%char :: c ++ js " ") = c.
Proof.
  intros Ht Hne.
  destruct (trimmed_ends Ht Hne) as [[x [r [Ec Hx]]] [y [b [Eb Hy]]]].
  unfold trim, trimStart, trimEnd. cbn [dropWhile].
  change (isWhiteSpace " ") with true. cbn iota.
  assert (E1 : dropWhile isWhiteSpace (c ++ js " ") = c ++ js " ").
  { rewrite Ec. cbn [app dropWhile]. now rewrite Hx. }
  rewrite E1, rev_app_distr. change (rev (js " ")) with [" "%char].
  cbn [app dropWhile]. change (isWhiteSpace " ") with true. cbn iota.
  rewrite Eb, rev_app_distr. cbn [rev app dropWhile]. rewrite Hy.
  change (rev (y :: rev b)) with (rev (rev b) ++ [y]).
  now rewrite rev_involutive.
Qed.

(** The pieces between the pipes of a written row. *)
Lemma split_cells (cs : list jsstring) :
  Forall (fun c => ~ In "|"%char c) cs ->
  split "|" (concat (map (fun c => " "%char :: c ++ js " |") cs)) =
  map (fun c => " "%char :: c ++ js " ") cs ++ [[]].
Proof.
  induction cs as [|c cs IH]; intros H; [reflexivity|].
  apply Forall_cons_iff in H. destruct H as [Hc Hcs].
  cbn [map concat].
  assert (E : forall rest, (" "%char :: c ++ js " |") ++ rest
                           = (" "%char :: c ++ js " ") ++ "|"%char :: rest).
  { intros rest. change (js " |") with (js " " ++ ["|"%char]).
    cbn [app]. now rewrite <- !app_assoc. }
  rewrite E, split_app, (IH Hcs). rewrite split_one; [reflexivity|].
  intros [E'|Hin]; [discriminate E'|]. apply in_app_or in Hin.
  destruct Hin as [Hin|[E'|[]]]; [contradiction|discriminate E'].
Qed.

(** Reading a written row gives its cells back. *)
Lemma cells_rowText (cs : list jsstring) :
  Forall cleanCell cs -> cells (rowText cs) = cs.
Proof.
  intros H. unfold cells, rowText. cbn [split].
  change (Ascii.eqb "|" "|") with true. cbn iota.
  rewrite split_cells
    by (apply Forall_forall; intros c Hc; rewrite Forall_forall in H;
        now destruct (H c Hc) as [_ [_ Hp]]).
  cbn [filter isEmpty negb trim]. change (trim []) with (@nil ascii).
  cbn [isEmpty negb]. rewrite filter_app. cbn [filter].
  change (trim []) with (@nil ascii). cbn [isEmpty negb]. rewrite app_nil_r.
  induction cs as [|c cs IH]; [reflexivity|].
  apply Forall_cons_iff in H. destruct H as [[Hne [Ht _]] Hcs].
  cbn [map filter]. rewrite (trim_padded Ht Hne).
  destruct c as [|x r]; [contradiction|]. cbn [isEmpty negb map].
  rewrite (trim_padded Ht Hne). f_equal. now apply IH.
Qed.

Lemma piped_end (pieces : list jsstring) :
  Forall (fun p => exists b, p = b ++ ["|"%char]) pieces ->
  concat pieces = [] \/ exists b, concat pieces = b ++ ["|"%char].
Proof.
  induction pieces as [|p pieces IH]; intros H; [now left|].
  apply Forall_cons_iff in H. destruct H as [[b ->] Hp]. right.
  cbn [concat]. destruct (IH Hp) as [->|[b' ->]].
  - exists b. now rewrite app_nil_r.
  - exists (b ++ "|"%char :: b'). now rewrite <- !app_assoc.
Qed.

(** A line that begins and ends with a pipe is a table line. *)
Lemma piped_isTableLine (b : jsstring) :
  isTableLine ("|"%char :: b ++ ["|"%char]) = true.
Proof.
  unfold isTableLine. rewrite trim_ends.
  - unfold endsWith. cbn [rev]. rewrite rev_app_distr. reflexivity.
  - reflexivity.
  - cbn [rev]. now rewrite rev_app_distr.
Qed.

Lemma piped_line (pieces : list jsstring) :
  Forall (fun p => exists b, p = b ++ ["|"%char]) pieces ->
  isTableLine ("|"%char :: concat pieces) = true.
Proof.
  intros H. destruct (piped_end H) as [->|[b ->]]; [reflexivity|].
  apply piped_isTableLine.
Qed.

Lemma rowText_isTableLine (cs : list jsstring) :
  isTableLine (rowText cs) = true.
Proof.
  unfold rowText. apply piped_line. apply Forall_forall.
  intros p Hp. apply in_map_iff in Hp. destruct Hp as [c [<- _]].
  exists (" "%char :: c ++ js " ").
  change (js " |") with (js " " ++ ["|"%char]). cbn [app].
  now rewrite <- app_assoc.
Qed.

Lemma dividerText_isTableLine (n : nat) :
  isTableLine (dividerText n) = true.
Proof.
  unfold dividerText. apply piped_line. apply Forall_forall.
  intros p Hp. apply repeat_spec in Hp. subst p. now exists (js " --- ").
Qed.

Lemma dividerText_isDivider (n : nat) :
  isDivider (dividerText (S n)) = true.
Proof. reflexivity. Qed.

Lemma includes_In (p s : jsstring) (x : ascii) :
  includes p s = true -> In x p -> In x s.
Proof.
  intros H Hx. induction s as [|c s IH].
  - cbn [includes] in H. rewrite orb_false_r in H.
    destruct p; [destruct Hx|discriminate H].
  - cbn [includes] in H. apply orb_prop in H. destruct H as [H|H].
    + apply startsWith_prefix in H. destruct H as [r ->].
      apply in_or_app. now left.
    + right. now apply IH.
Qed.

Lemma rowText_In (cs : list jsstring) (x : ascii) :
  In x (rowText cs) ->
  x = "|"%char \/ x = " "%char \/ exists c, In c cs /\ In x c.
Proof.
  unfold rowText. intros [<-|H]; [now left|].
  apply in_concat in H. destruct H as [p [Hp Hx]].
  apply in_map_iff in Hp. destruct Hp as [c [<- Hc]].
  destruct Hx as [<-|Hx]; [right; now left|].
  apply in_app_or in Hx. destruct Hx as [Hx|[<-|[<-|[]]]];
    [right; right; now exists c|right; now left|now left].
Qed.

Lemma dividerText_In (n : nat) (x : ascii) :
  In x (dividerText n) ->
  x = "|"%char \/ x = " "%char \/ x = "-"%char.
Proof.
  unfold dividerText. intros [<-|H]; [now left|].
  apply in_concat in H. destruct H as [p [Hp Hx]].
  apply repeat_spec in Hp. subst p.
  destruct Hx as [<-|[<-|[<-|[<-|[<-|[<-|[]]]]]]]; auto.
Qed.

(** A header without a hyphen is not taken for the divider. *)
Lemma rowText_no_divider (cs : list jsstring) :
  Forall (fun c => ~ In "-"%char c) cs -> isDivider (rowText cs) = false.
Proof.
  intros H. unfold isDivider.
  assert (Hfree : ~ In "-"%char (rowText cs)).
  { intros Hin. apply rowText_In in Hin.
    destruct Hin as [E|[E|[c [Hc Hx]]]]; try discriminate E.
    rewrite Forall_forall in H. now apply (H c Hc). }
  destruct (includes (js "---") (rowText cs)) eqn:E1.
  - exfalso. apply Hfree. apply (@includes_In _ _ "-"%char E1). now left.
  - destruct (includes (js ":--") (rowText cs)) eqn:E2; [|reflexivity].
    exfalso. apply Hfree. apply (@includes_In _ _ "-"%char E2). right. now left.
Qed.

Lemma split_joinLines (l : jsstring) (ls : list jsstring) :
  Forall (fun x => ~ In LF x) (l :: ls) ->
  split LF (joinLines (l :: ls)) = l :: ls.
Proof.
  revert l. induction ls as [|m ls IH]; intros l H.
  - cbn [joinLines map concat]. rewrite app_nil_r.
    apply split_one. now apply Forall_inv in H.
  - apply Forall_cons_iff in H. destruct H as [Hl Hls].
    change (joinLines (l :: m :: ls)) with (l ++ LF :: joinLines (m :: ls)).
    rewrite split_app, (@split_one LF l Hl), (IH m Hls). reflexivity.
Qed.

Lemma firstRun_all (ls : list jsstring) :
  Forall (fun l => isTableLine l = true) ls -> firstRun ls = ls.
Proof.
  intros H. unfold firstRun.
  assert (E : dropWhile (fun l => negb (isTableLine l)) ls = ls).
  { destruct ls as [|l ls]; [reflexivity|]. cbn [dropWhile].
    apply Forall_inv in H. now rewrite H. }
  rewrite E. induction ls as [|l ls IH]; [reflexivity|].
  apply Forall_cons_iff in H. destruct H as [Hl Hls].
  cbn [takeWhile]. rewrite Hl. f_equal. apply IH; [exact Hls|].
  destruct ls as [|m ls']; [reflexivity|]. cbn [dropWhile].
  apply Forall_inv in Hls. now rewrite Hls.
Qed.

(** Written rows of the header's width are all kept. *)
Lemma rowsOf_rowText (hs : list jsstring) (rows : list (list jsstring)) :
  Forall (fun row => Forall cleanCell row /\ length row = length hs) rows ->
  rowsOf hs (map rowText rows) = rows.
Proof.
  unfold rowsOf. induction rows as [|r rs IH]; intros H; [reflexivity|].
  apply Forall_cons_iff in H. destruct H as [[Hr Hlen] Hrs].
  cbn [map filter]. rewrite (cells_rowText Hr), Hlen, Nat.eqb_refl.
  f_equal. now apply IH.
Qed.

(** X23. A table written out is read back as it was: for headers (one
    at least, none with a hyphen) and one or more rows of as many cells
    as the header, every cell clean and in one line, the extractor
    returns exactly these headers and these rows. *)
Theorem table_read_back (hs : list jsstring) (rows : list (list jsstring)) :
  hs <> [] -> rows <> [] ->
  Forall lineCell hs -> Forall (fun c => ~ In "-"%char c) hs ->
  Forall (fun row => Forall lineCell row /\ length row = length hs) rows ->
  parseMarkdownTable (tableText hs rows)
  = Normal (Some {| headers := hs; data := rows |}).
Proof.
  intros Hhs Hrows Hcells Hplain Hwide.
  assert (Hrow : forall cs, Forall lineCell cs -> ~ In LF (rowText cs)).
  { intros cs Hcs Hin. apply rowText_In in Hin.
    destruct Hin as [E|[E|[c [Hc Hx]]]]; try discriminate E.
    rewrite Forall_forall in Hcs. now destruct (Hcs c Hc) as [_ Hlf]. }
  assert (Hclean : forall cs, Forall lineCell cs -> Forall cleanCell cs).
  { intros cs Hcs. apply Forall_forall. intros c Hc.
    rewrite Forall_forall in Hcs. now destruct (Hcs c Hc). }
  rewrite parseMarkdownTable_run. cbv zeta. unfold tableText.
  rewrite split_joinLines.
  - rewrite firstRun_all.
    + destruct rows as [|row rows]; [contradiction|].
      destruct hs as [|h hs']; [contradiction|].
      cbn [map length Nat.ltb Nat.leb]. unfold dividerPos.
      change (firstn 3 (rowText (h :: hs') :: dividerText (S (length hs'))
                        :: rowText row :: map rowText rows))
        with [rowText (h :: hs'); dividerText (S (length hs')); rowText row].
      cbn [position]. rewrite (rowText_no_divider Hplain).
      rewrite dividerText_isDivider. cbn [option_map nth skipn].
      rewrite (cells_rowText (Hclean _ Hcells)). do 3 f_equal.
      change (rowText row :: map rowText rows)
        with (map rowText (row :: rows)).
      apply rowsOf_rowText. apply Forall_forall. intros r Hr.
      rewrite Forall_forall in Hwide. destruct (Hwide r Hr) as [Hc Hlen].
      split; [now apply Hclean|exact Hlen].
    + constructor; [apply rowText_isTableLine|].
      constructor; [apply dividerText_isTableLine|].
      apply Forall_forall. intros l Hl. apply in_map_iff in Hl.
      destruct Hl as [cs [<- _]]. apply rowText_isTableLine.
  - constructor; [now apply Hrow|]. constructor.
    + intros Hin. apply dividerText_In in Hin.
      destruct Hin as [E|[E|E]]; discriminate E.
    + apply Forall_forall. intros l Hl. apply in_map_iff in Hl.
      destruct Hl as [cs [<- Hcs]]. apply Hrow.
      rewrite Forall_forall in Hwide. now destruct (Hwide cs Hcs).
Qed.

Lemma table_read_back_witness :
  parseMarkdownTable (js "| City | Price |\n| --- | --- |\n| Pune | 5,000 |\n| Navi Mumbai | -1 |")
  = Normal (Some {| headers := [js "City"; js "Price"];
                    data := [[js "Pune"; js "5,000"];
                             [js "Navi Mumbai"; js "-1"]] |}).
Proof.
  apply (@table_read_back [js "City"; js "Price"]
           [[js "Pune"; js "5,000"]; [js "Navi Mumbai"; js "-1"]]).
  - discriminate.
  - discriminate.
  - repeat constructor; try discriminate; vm_compute; intuition discriminate.
  - repeat constructor; vm_compute; intuition discriminate.
  - repeat constructor; try discriminate; vm_compute; intuition discriminate.
Defined.

(* ================================================================== *)
(** * Range labels and numeric cells *)
(* ================================================================== *)

Lemma space_no_digit (c : ascii) : isWhiteSpace c = true -> isDigit c = false.
Proof.
  intros Hw. destruct (isDigit c) eqn:Ed; [|reflexivity].
  apply digit_facts in Ed. destruct Ed as [Hd _]. congruence.
Qed.

Lemma space_no_hyphen (c : ascii) :
  isWhiteSpace c = true -> Ascii.eqb c "-" = false.
Proof.
  intros Hw. destruct (Ascii.eqb_spec c "-") as [->|]; [discriminate Hw|reflexivity].
Qed.

Lemma digit_no_hyphen (c : ascii) : isDigit c = true -> Ascii.eqb c "-" = false.
Proof.
  intros Hd. destruct (Ascii.eqb_spec c "-") as [->|]; [discriminate Hd|reflexivity].
Qed.

Lemma star_digits_end (g : jsstring -> nat) (caps : captures) (s : jsstring) :
  forall prev,
  starGreedy isDigit
    (fun prev' s' => if atEol false s' then fin g prev' s' caps else None)
    prev s =
  if isEmpty (dropWhile isDigit s) then Some (g [], caps) else None.
Proof.
  induction s as [|c s IH]; intros prev; cbn [starGreedy dropWhile].
  - reflexivity.
  - destruct (isDigit c) eqn:E.
    + rewrite IH. cbn [atEol andb]. apply orElse_none.
    + reflexivity.
Qed.

Lemma run_digitsThenEnd (g : jsstring -> nat) prev s caps :
  run false digitsThenEnd prev s caps (fin g) =
  if digitsToEnd s then Some (g [], caps) else None.
Proof.
  unfold digitsThenEnd, digitsToEnd. cbn [run].
  destruct s as [|d r]; [reflexivity|].
  destruct (isDigit d); [|reflexivity].
  cbn [andb]. apply star_digits_end.
Qed.

Lemma star_space_digits (g : jsstring -> nat) (caps : captures) (s : jsstring) :
  forall prev,
  starGreedy isWhiteSpace
    (fun prev' s' => run false digitsThenEnd prev' s' caps (fin g)) prev s =
  if digitsToEnd (dropWhile isWhiteSpace s) then Some (g [], caps) else None.
Proof.
  induction s as [|c s IH]; intros prev; cbn [starGreedy dropWhile].
  - apply run_digitsThenEnd.
  - destruct (isWhiteSpace c) eqn:E.
    + rewrite IH, run_digitsThenEnd. cbn [digitsToEnd].
      rewrite (@space_no_digit c E). cbn [andb]. apply orElse_none.
    + apply run_digitsThenEnd.
Qed.

Lemma run_hyphenTail (g : jsstring -> nat) prev s caps :
  run false hyphenTail prev s caps (fin g) =
  if hyphenToEnd s then Some (g [], caps) else None.
Proof.
  unfold hyphenTail, hyphenToEnd. cbn [run].
  destruct s as [|c r]; [reflexivity|].
  destruct (Ascii.eqb c "-"); [|reflexivity].
  cbn [andb]. apply star_space_digits.
Qed.

Lemma star_space_hyphen (g : jsstring -> nat) (caps : captures) (s : jsstring) :
  forall prev,
  starGreedy isWhiteSpace
    (fun prev' s' => run false hyphenTail prev' s' caps (fin g)) prev s =
  if hyphenToEnd (dropWhile isWhiteSpace s) then Some (g [], caps) else None.
Proof.
  induction s as [|c s IH]; intros prev; cbn [starGreedy dropWhile].
  - apply run_hyphenTail.
  - destruct (isWhiteSpace c) eqn:E.
    + rewrite IH, run_hyphenTail. cbn [hyphenToEnd].
      rewrite (@space_no_hyphen c E). cbn [andb]. apply orElse_none.
    + apply run_hyphenTail.
Qed.

Lemma star_digits_hyphen (g : jsstring -> nat) (caps : captures) (s : jsstring) :
  forall prev,
  starGreedy isDigit
    (fun prev' s' => run false spacedTail prev' s' caps (fin g)) prev s =
  if hyphenToEnd (dropWhile isWhiteSpace (dropWhile isDigit s))
  then Some (g [], caps) else None.
Proof.
  assert (Hrun : forall prev s,
            run false spacedTail prev s caps (fin g) =
            if hyphenToEnd (dropWhile isWhiteSpace s)
            then Some (g [], caps) else None).
  { intros prev s'. unfold spacedTail. cbn [run]. apply star_space_hyphen. }
  induction s as [|c s IH]; intros prev; cbn [starGreedy dropWhile].
  - apply Hrun.
  - destruct (isDigit c) eqn:E.
    + rewrite IH, Hrun. cbn [dropWhile].
      destruct (isWhiteSpace c) eqn:Ew.
      * apply space_no_digit in Ew. congruence.
      * cbn [hyphenToEnd]. rewrite (@digit_no_hyphen c E). cbn [andb].
        apply orElse_none.
    + apply Hrun.
Qed.

Lemma rangePattern_parts :
  rangePattern =
  Seq Bol (Seq (Class isDigit) (Seq (Star true isDigit) spacedTail)).
Proof. reflexivity. Qed.

(** The range pattern read as a scan from left to right. *)
Lemma test_rangePattern (s : jsstring) :
  test false rangePattern s = rangeShape s.
Proof.
  unfold test. rewrite rangePattern_parts, exec_anchored.
  set (g := fun s' : jsstring => (length s - length s')%nat).
  change (fun (_ : option ascii) (s' : jsstring) (caps : captures) => Some (g s', caps))
    with (fin g).
  unfold rangeShape. cbn [run].
  destruct s as [|d r]; [reflexivity|].
  destruct (isDigit d); [|reflexivity].
  cbn [andb].
  change (match option_map snd
            (starGreedy isDigit
               (fun prev' s' => run false spacedTail prev' s' [] (fin g))
               (Some d) r)
          with Some _ => true | None => false end =
          hyphenToEnd (dropWhile isWhiteSpace (dropWhile isDigit r))).
  rewrite star_digits_hyphen.
  now destruct (hyphenToEnd _).
Qed.

Lemma forallb_takeWhile_all (A : Type) (p : A -> bool) (s : list A) :
  dropWhile p s = [] -> forallb p s = true.
Proof.
  intros H. rewrite <- (takeWhile_dropWhile p s), H, app_nil_r.
  apply takeWhile_all.
Qed.

Lemma digitsToEnd_iff (s : jsstring) :
  digitsToEnd s = true <-> s <> [] /\ digits s.
Proof.
  unfold digitsToEnd, digits. destruct s as [|d r].
  - split; [discriminate|]. now intros [H _].
  - cbn [forallb]. split.
    + intros H. apply andb_prop in H. destruct H as [Hd Hr].
      split; [discriminate|]. rewrite Hd. cbn [andb].
      apply forallb_takeWhile_all. now destruct (dropWhile isDigit r).
    + intros [_ H]. apply andb_prop in H. destruct H as [Hd Hr].
      rewrite Hd. cbn [andb]. rewrite dropWhile_all; [reflexivity|].
      now apply forallb_forall.
Qed.

(** X4. A label counts as a range exactly when it is one or more
    digits, white space or none, a hyphen, white space or none, and one
    or more digits, with nothing before or behind. *)
Theorem range_label_shape (s : jsstring) :
  isRange (Some s) = true <->
  exists a u v b,
    s = a ++ u ++ "-"%char :: v ++ b /\
    a <> [] /\ digits a /\ blank u /\ blank v /\ b <> [] /\ digits b.
Proof.
  unfold isRange. cbn [toStr]. rewrite test_rangePattern. split.
  - unfold rangeShape. destruct s as [|d r]; [discriminate|].
    intros H. apply andb_prop in H. destruct H as [Hd H].
    pose proof (takeWhile_dropWhile isDigit r) as Er.
    pose proof (takeWhile_all isDigit r) as Ha.
    pose proof (takeWhile_dropWhile isWhiteSpace (dropWhile isDigit r)) as Eu.
    pose proof (takeWhile_all isWhiteSpace (dropWhile isDigit r)) as Hu.
    destruct (dropWhile isWhiteSpace (dropWhile isDigit r)) as [|c r3];
      [discriminate|].
    cbn [hyphenToEnd] in H. apply andb_prop in H. destruct H as [Hc H].
    apply Ascii.eqb_eq in Hc. subst c.
    pose proof (takeWhile_dropWhile isWhiteSpace r3) as Ev.
    pose proof (takeWhile_all isWhiteSpace r3) as Hv.
    apply digitsToEnd_iff in H. destruct H as [Hb1 Hb2].
    exists (d :: takeWhile isDigit r), (takeWhile isWhiteSpace (dropWhile isDigit r)),
      (takeWhile isWhiteSpace r3), (dropWhile isWhiteSpace r3).
    repeat split; try assumption.
    + cbn [app]. now rewrite Ev, Eu, Er.
    + discriminate.
    + unfold digits. cbn [forallb]. now rewrite Hd, Ha.
  - intros [a [u [v [b [-> [Ha1 [Ha2 [Hu [Hv [Hb1 Hb2]]]]]]]]]].
    destruct a as [|d a]; [contradiction|].
    destruct b as [|d2 b]; [contradiction|].
    unfold digits in Ha2, Hb2. cbn [forallb] in Ha2, Hb2.
    apply andb_prop in Ha2. destruct Ha2 as [Hd Ha].
    apply andb_prop in Hb2. destruct Hb2 as [Hd2 Hb].
    assert (Hw2 : isWhiteSpace d2 = false).
    { now apply digit_facts in Hd2. }
    cbn [app rangeShape]. rewrite Hd. cbn [andb].
    assert (E1 : dropWhile isDigit (a ++ u ++ "-"%char :: v ++ d2 :: b)
                 = u ++ "-"%char :: v ++ d2 :: b).
    { apply dropWhile_digits; [exact Ha|].
      destruct u as [|x u]; [reflexivity|].
      cbn [app stops]. cbn [forallb] in Hu. apply andb_prop in Hu.
      now apply space_no_digit. }
    rewrite E1.
    destruct (@takeWhile_app_stop _ isWhiteSpace u "-"%char (v ++ d2 :: b) Hu eq_refl)
      as [_ E2].
    rewrite E2. cbn [hyphenToEnd]. rewrite Ascii.eqb_refl. cbn [andb].
    destruct (@takeWhile_app_stop _ isWhiteSpace v d2 b Hv Hw2) as [_ E3].
    rewrite E3. apply digitsToEnd_iff. split; [discriminate|].
    unfold digits. cbn [forallb]. now rewrite Hd2, Hb.
Qed.

Lemma range_label_shape_witness : isRange (Some (js "10 - 20")) = true.
Proof.
  apply (proj2 (range_label_shape (js "10 - 20"))).
  exists (js "10"), (js " "), (js " "), (js "20").
  repeat split; discriminate.
Defined.

Lemma readSign_unsigned (s : jsstring) : snd (readSign s) = unsigned s.
Proof.
  destruct s as [|c r]; [reflexivity|]. unfold readSign, unsigned.
  destruct (Ascii.eqb_spec c "+") as [->|H1]; [reflexivity|].
  destruct (Ascii.eqb_spec c "-") as [->|H2]; [reflexivity|].
  destruct c as [[] [] [] [] [] [] [] []]; try reflexivity; congruence.
Qed.

(** [parseFloat] yields NaN exactly on a text that does not begin with
    a number. *)
Lemma parseFloat_NaN (s : jsstring) :
  isNaN (parseFloat s) = negb (beginsNumber s).
Proof.
  unfold parseFloat, beginsNumber, trimStart.
  rewrite <- readSign_unsigned.
  destruct (readSign (dropWhile isWhiteSpace s)) as [neg u]. cbn [snd].
  destruct (startsWith (js "Infinity") u); [reflexivity|]. cbn [orb].
  destruct u as [|c r]; [reflexivity|].
  cbn [takeWhile dropWhile]. destruct (isDigit c) eqn:Ed.
  - cbn [orb]. destruct (readFraction (dropWhile isDigit r)). reflexivity.
  - cbn [orb]. unfold readFraction.
    destruct (Ascii.eqb_spec c ".") as [->|Hc].
    + cbn [isEmpty andb]. destruct r as [|d r']; [reflexivity|].
      cbn [takeWhile]. now destruct (isDigit d).
    + destruct c as [[] [] [] [] [] [] [] []]; try reflexivity; congruence.
Qed.

Lemma forallb_same (A : Type) (f g : A -> bool) (l : list A) :
  (forall x, f x = g x) -> forallb f l = forallb g l.
Proof.
  intros H. induction l as [|x l IH]; cbn [forallb]; [reflexivity|].
  now rewrite H, IH.
Qed.

(** X5. A column is taken as numeric exactly when every cell of it,
    its commas removed, begins with a number: after white space and an
    optional sign comes a digit, a dot and a digit, or the word
    Infinity.  A currency prefix makes the column text. *)
Theorem numeric_column_test (rows : list (list jsstring)) (i : nat) :
  (forall row, In row rows -> (i < length row)%nat) ->
  everyNumeric rows (Z.of_nat i) =
  Normal (forallb
            (fun row =>
               beginsNumber
                 (filter (fun x => negb (Ascii.eqb x ",")) (nth i row [])))
            rows).
Proof.
  intros Hwide. rewrite (@everyNumeric_pure rows i Hwide).
  f_equal. unfold isNumericColumn. apply forallb_same.
  intros row. unfold cellValue.
  now rewrite parseFloat_NaN, negb_involutive, stripCommas_filter.
Qed.

Lemma numeric_column_test_witness :
  everyNumeric samplePrices 1 = Normal false /\
  everyNumeric sampleUnits 1 = Normal true.
Proof.
  split.
  - apply (@numeric_column_test samplePrices 1).
    intros row [<-|[<-|[]]]; cbn; lia.
  - apply (@numeric_column_test sampleUnits 1).
    intros row [<-|[<-|[]]]; cbn; lia.
Defined.

(* ================================================================== *)
(** * Colours of the series *)
(* ================================================================== *)

Lemma colouredFrom_nth (ds : list dataset) : forall k i s,
  nth_error (colouredFrom k ds) i = Some s ->
  backgroundColor s = Colour (colourAt (k + i)) /\
  borderColor s = Some (replaceFirst (js "0.7") (js "1") (colourAt (k + i))).
Proof.
  induction ds as [|d ds IH]; intros k i s; cbn [colouredFrom].
  - now destruct i.
  - destruct i as [|i]; cbn [nth_error].
    + intros [= <-]. cbn [backgroundColor borderColor].
      now rewrite Nat.add_0_r.
    + intros H. apply IH in H. now rewrite Nat.add_succ_r.
Qed.

(** Each colour of the palette is an rgba text of opacity 0.7, and
    replacing the first "0.7" in it sets the opacity to 1. *)
Lemma colourAt_opaque (n : nat) :
  exists rgb,
    nth_error chartColors (n mod 10) = Some (js "rgba(" ++ rgb ++ js ", 0.7)") /\
    colourAt n = js "rgba(" ++ rgb ++ js ", 0.7)" /\
    replaceFirst (js "0.7") (js "1") (colourAt n) = js "rgba(" ++ rgb ++ js ", 1)".
Proof.
  unfold colourAt. change (length chartColors) with 10%nat.
  assert (Hlt : (n mod 10 < 10)%nat) by (apply Nat.mod_upper_bound; lia).
  exists (firstn (length (nth (n mod 10) chartColors []) - 11)
            (skipn 5 (nth (n mod 10) chartColors []))).
  destruct (n mod 10) as [|[|[|[|[|[|[|[|[|[|m]]]]]]]]]];
    [vm_compute; now repeat split ..|lia].
Qed.

(** X6. In a bar or line chart series [i] is filled with colour
    [i mod 10] of the palette, an rgba text of opacity 0.7, and its
    border is the same colour with opacity 1. *)
Theorem series_colours (ds : list dataset) (i : nat) (s : chartDataset) :
  nth_error (coloured ds) i = Some s ->
  exists rgb,
    nth_error chartColors (i mod 10) = Some (js "rgba(" ++ rgb ++ js ", 0.7)") /\
    backgroundColor s = Colour (js "rgba(" ++ rgb ++ js ", 0.7)") /\
    borderColor s = Some (js "rgba(" ++ rgb ++ js ", 1)").
Proof.
  intros H. apply colouredFrom_nth in H. cbn [Nat.add] in H.
  destruct H as [Hb Hc].
  destruct (colourAt_opaque i) as [rgb [Hn [Hrgb Hone]]].
  exists rgb. rewrite Hb, Hc, Hone, Hrgb. now repeat split.
Qed.

Lemma series_colours_witness :
  exists rgb,
    nth_error chartColors 1 = Some (js "rgba(" ++ rgb ++ js ", 0.7)") /\
    borderColor
      {| seriesLabel := Some (js "Price"); seriesData := Values [];
         backgroundColor := Colour (js "rgba(54, 162, 235, 0.7)");
         borderColor := Some (js "rgba(54, 162, 235, 1)") |}
    = Some (js "rgba(" ++ rgb ++ js ", 1)").
Proof.
  destruct (@series_colours
              (repeat {| label := js "Price"; numbers := []; columnIndex := 1 |} 12)
              11
              {| seriesLabel := Some (js "Price"); seriesData := Values [];
                 backgroundColor := Colour (js "rgba(54, 162, 235, 0.7)");
                 borderColor := Some (js "rgba(54, 162, 235, 1)") |}
              eq_refl) as [rgb [H1 [_ H3]]].
  exists rgb. split; [exact H1|exact H3].
Defined.

(* ================================================================== *)
(** * The comparison as a whole *)
(* ================================================================== *)

Lemma insertIndex_In (x k : jsstring) (ks : list jsstring) :
  In x (insertIndex k ks) <-> x = k \/ In x ks.
Proof.
  induction ks as [|k' ks IH]; cbn [insertIndex].
  - cbn [In]. intuition congruence.
  - destruct (digitsVal k <=? digitsVal k')%N; cbn [In]; [intuition congruence|].
    rewrite IH. intuition congruence.
Qed.

Lemma sorted_In (x : jsstring) (l : list jsstring) :
  In x (fold_right insertIndex [] l) <-> In x l.
Proof.
  induction l as [|k l IH]; cbn [fold_right]; [reflexivity|].
  rewrite insertIndex_In, IH. cbn [In]. intuition congruence.
Qed.

(** [Object.keys] lists the own names, whatever the order. *)
Lemma keys_In (o : object) (x : jsstring) :
  In x (keys o) <-> In x (map fst o).
Proof.
  unfold keys. rewrite in_app_iff, sorted_In, !filter_In. split.
  - intros [[H _]|[H _]]; exact H.
  - intros H. destruct (isArrayIndex x) eqn:E; [left|right]; now split.
Qed.

Lemma keys_NoDup (o : object) : NoDup (map fst o) -> NoDup (keys o).
Proof.
  intros H. apply (@NoDup_incl_NoDup _ (map fst o)); [exact H| |].
  - now rewrite keys_length, length_map.
  - intros x Hx. now apply keys_In.
Qed.

Lemma namedBy_item (items : list jsstring) (line k : jsstring) :
  In k (namedBy items line) -> In k items.
Proof.
  unfold namedBy.
  destruct (headerItem items (map toLowerCase items) line) as [it|] eqn:E;
    [|intros []].
  apply headerItem_named in E. destruct E as [item [x [-> [Hin _]]]].
  intros [<-|[]]. exact Hin.
Qed.

Lemma tidy_start : tidy start [].
Proof. repeat split; [constructor|intros x []|discriminate]. Qed.

(** The sections after the walk: distinct names, each a configured
    item. *)
Lemma walk_sections (items : list jsstring) (content : jsstring) :
  NoDup (map fst (sections (walkLines items content))) /\
  forall k, In k (map fst (sections (walkLines items content))) -> In k items.
Proof.
  unfold walkLines.
  destruct (@walk_tidy items (split LF content) start [] tidy_start)
    as [Hn [Hi _]].
  split; [exact Hn|]. intros k Hk. apply Hi in Hk. cbn [app] in Hk.
  apply in_flat_map in Hk. destruct Hk as [line [_ Hk]].
  now apply namedBy_item in Hk.
Qed.

(** X7. When the splitter returns a comparison, the items it found are
    two or more, pairwise distinct, each one of the configured items in
    its configured spelling, and each has a section text of its own. *)
Theorem found_items_configured (content : jsstring) (items : list jsstring)
    (c : comparison) :
  parseComparisonContent content items = Some c ->
  (2 <= length (foundItems c))%nat /\
  NoDup (foundItems c) /\
  forall k, In k (foundItems c) ->
    In k items /\ exists text, own (panels c) k = Some text.
Proof.
  unfold parseComparisonContent.
  destruct (length items <=? 1)%nat; [discriminate|].
  destruct (length (keys (sections (walkLines items content))) <? 2)%nat eqn:E;
    [discriminate|].
  intros [= <-]. cbn [foundItems panels].
  apply Nat.ltb_ge in E.
  destruct (walk_sections items content) as [Hn Hi].
  split; [exact E|]. split; [now apply keys_NoDup|].
  intros k Hk. apply keys_In in Hk. split; [now apply Hi|].
  destruct (own (sections (walkLines items content)) k) as [text|] eqn:Eo.
  - now exists text.
  - apply own_none in Eo. contradiction.
Qed.

Lemma found_items_configured_witness :
  NoDup alphaBeta /\
  forall k, In k alphaBeta ->
    In k alphaBeta /\
    exists text, own [(js "Alpha", js "foo\n"); (js "Beta", js "bar\n\n")] k = Some text.
Proof.
  apply (@found_items_configured sampleSplit alphaBeta
           {| preamble := [];
              panels := [(js "Alpha", js "foo\n"); (js "Beta", js "bar\n\n")];
              foundItems := alphaBeta |}).
  reflexivity.
Defined.

Section Preamble.

Variable items : list jsstring.
Hypothesis named : forall i, In i items -> i <> [].

Lemma heading_sets_item (w : walk) (line : jsstring) :
  plainLine items line = false ->
  nonEmpty (currentItem (visit items (map toLowerCase items) w line)) = true /\
  generalContent (visit items (map toLowerCase items) w line) = generalContent w.
Proof.
  unfold plainLine, namedBy, visit.
  destruct (headerItem items (map toLowerCase items) line) as [it|] eqn:E;
    [|discriminate].
  intros _. cbn [currentItem generalContent]. split; [|reflexivity].
  apply headerItem_named in E. destruct E as [item [x [-> [Hin _]]]].
  cbn [nonEmpty]. specialize (@named item Hin). now destruct item.
Qed.

Lemma plain_line_kept (w : walk) (line : jsstring) :
  plainLine items line = true ->
  currentItem (visit items (map toLowerCase items) w line) = currentItem w /\
  generalContent (visit items (map toLowerCase items) w line) =
    if nonEmpty (currentItem w) then generalContent w
    else generalContent w ++ line ++ [LF].
Proof.
  unfold plainLine, namedBy, visit.
  destruct (headerItem items (map toLowerCase items) line) as [it|];
    [discriminate|].
  intros _. now destruct (nonEmpty (currentItem w)).
Qed.

(** Once an item is active the preamble stays as it is. *)
Lemma preamble_closed (lines : list jsstring) : forall w,
  nonEmpty (currentItem w) = true ->
  generalContent (fold_left (visit items (map toLowerCase items)) lines w) = generalContent w.
Proof.
  induction lines as [|l lines IH]; intros w Hw; cbn [fold_left];
    [reflexivity|].
  destruct (plainLine items l) eqn:E.
  - destruct (@plain_line_kept w l E) as [Hc Hg].
    rewrite IH by now rewrite Hc. now rewrite Hg, Hw.
  - destruct (@heading_sets_item w l E) as [Hc Hg].
    now rewrite IH.
Qed.

Lemma preamble_open (lines : list jsstring) : forall w,
  nonEmpty (currentItem w) = false ->
  generalContent (fold_left (visit items (map toLowerCase items)) lines w) =
  generalContent w ++ unlines (takeWhile (plainLine items) lines).
Proof.
  induction lines as [|l lines IH]; intros w Hw; cbn [fold_left takeWhile].
  - unfold unlines. cbn [map concat]. now rewrite app_nil_r.
  - destruct (plainLine items l) eqn:E.
    + destruct (@plain_line_kept w l E) as [Hc Hg].
      rewrite IH by now rewrite Hc. rewrite Hg, Hw.
      unfold unlines. cbn [map concat]. now rewrite <- !app_assoc.
    + destruct (@heading_sets_item w l E) as [Hc Hg].
      rewrite preamble_closed by exact Hc. rewrite Hg.
      unfold unlines. cbn [map concat]. now rewrite app_nil_r.
Qed.

End Preamble.

(** X8. When no configured item has an empty name, the preamble of a
    comparison is the text before the first heading of a configured
    item: those lines in order, each with its line feed, and no line
    behind that heading. *)
Theorem preamble_before_first_heading (content : jsstring)
    (items : list jsstring) (c : comparison) :
  (forall i, In i items -> i <> []) ->
  parseComparisonContent content items = Some c ->
  preamble c = unlines (takeWhile (plainLine items) (split LF content)).
Proof.
  intros Hnamed. unfold parseComparisonContent.
  destruct (length items <=? 1)%nat; [discriminate|].
  destruct (length (keys (sections (walkLines items content))) <? 2)%nat;
    [discriminate|].
  intros [= <-]. cbn [preamble]. unfold walkLines.
  now rewrite (@preamble_open items Hnamed (split LF content) start eq_refl).
Qed.

Lemma preamble_before_first_heading_witness :
  parseComparisonContent sampleIntro alphaBeta = Some sampleIntroSplit /\
  preamble sampleIntroSplit = js "Both are fine.\n".
Proof.
  assert (H : parseComparisonContent sampleIntro alphaBeta = Some sampleIntroSplit)
    by (vm_compute; reflexivity).
  split; [exact H|].
  apply (@preamble_before_first_heading sampleIntro alphaBeta sampleIntroSplit);
    [|exact H].
  intros i [<-|[<-|[]]]; discriminate.
Defined.

Lemma streq_sym (a b : jsstring) : streq a b = streq b a.
Proof.
  destruct (streq a b) eqn:E.
  - apply streq_eq in E. subst. symmetry. apply streq_refl.
  - symmetry. apply streq_neq. apply streq_neq in E. congruence.
Qed.

Lemma existsb_streq (k : jsstring) (l : list jsstring) :
  existsb (streq k) l = true <-> In k l.
Proof.
  rewrite existsb_exists. split.
  - intros [y [Hy E]]. apply streq_eq in E. now subst.
  - intros H. exists k. split; [exact H|apply streq_refl].
Qed.

Lemma existsb_streq_false (k : jsstring) (l : list jsstring) :
  existsb (streq k) l = false <-> ~ In k l.
Proof.
  rewrite <- existsb_streq. now destruct (existsb (streq k) l).
Qed.

Lemma fresh_known (old l : list jsstring) (k : jsstring) :
  In k old -> fresh old (filter (fun y => negb (streq y k)) l) = fresh old l.
Proof.
  intros Hk. unfold fresh. induction l as [|y l IH]; cbn [filter]; [reflexivity|].
  destruct (streq y k) eqn:E; cbn [negb filter].
  - apply streq_eq in E. subst y.
    apply existsb_streq in Hk. rewrite Hk. cbn [negb]. exact IH.
  - now rewrite IH.
Qed.

Lemma fresh_more (old l : list jsstring) (k : jsstring) :
  fresh (old ++ [k]) l = fresh old (filter (fun y => negb (streq y k)) l).
Proof.
  unfold fresh. induction l as [|y l IH]; cbn [filter]; [reflexivity|].
  rewrite existsb_app. cbn [existsb]. rewrite orb_false_r, negb_orb.
  destruct (streq y k); cbn [negb filter].
  - rewrite andb_false_r. exact IH.
  - rewrite andb_true_r. now rewrite IH.
Qed.

Lemma fresh_all (l : list jsstring) : fresh [] l = l.
Proof.
  unfold fresh. induction l as [|y l IH]; [reflexivity|].
  cbn [filter existsb negb]. f_equal. exact IH.
Qed.

Lemma filter_none (A : Type) (p : A -> bool) (l : list A) :
  (forall x, In x l -> p x = false) ->
  filter p l = [] /\ filter (fun x => negb (p x)) l = l.
Proof.
  induction l as [|x l IH]; intros H; [now split|].
  cbn [filter]. rewrite (H x) by now left. cbn [negb].
  destruct IH as [E1 E2]; [intros y Hy; apply H; now right|].
  now rewrite E1, E2.
Qed.

(** Without array indices among the names [Object.keys] is the creation
    order. *)
Lemma keys_in_order (o : object) :
  (forall k, In k (map fst o) -> isArrayIndex k = false) ->
  keys o = map fst o.
Proof.
  intros H. unfold keys.
  destruct (@filter_none _ isArrayIndex (map fst o) H) as [E1 E2].
  now rewrite E1, E2.
Qed.

Section Order.

Variable items : list jsstring.
Hypothesis ordinary : forall i, In i items -> inherited i = false.

Lemma heading_opens (w : walk) (line k : jsstring) :
  namedBy items line = [k] ->
  sectionNames (visit items (map toLowerCase items) w line) =
    (if existsb (streq k) (sectionNames w) then sectionNames w
     else sectionNames w ++ [k]) /\
  settled (visit items (map toLowerCase items) w line).
Proof.
  unfold namedBy, visit, settled, sectionNames.
  destruct (headerItem items (map toLowerCase items) line) as [it|] eqn:E;
    [|discriminate].
  intros [= <-]. cbn [sections currentItem].
  apply headerItem_named in E. destruct E as [item [x [-> [Hin _]]]].
  cbn [keyOf]. pose proof (@ordinary item Hin) as Hproto.
  unfold inherited in Hproto.
  unfold get. destruct (own (sections w) item) as [v|] eqn:Eo.
  - assert (Hown : In item (map fst (sections w))).
    { destruct (in_dec (list_eq_dec ascii_dec) item (map fst (sections w)))
        as [Hi|Hi]; [exact Hi|]. apply own_none in Hi. congruence. }
    pose proof Hown as Hex. apply existsb_streq in Hex. rewrite Hex.
    cbn [truthy]. destruct (isEmpty v); cbn [negb].
    + unfold set. rewrite Eo, update_names. now split.
    + now split.
  - rewrite Hproto. cbn [truthy negb].
    pose proof Eo as Hnot. apply own_none in Hnot.
    apply existsb_streq_false in Hnot. rewrite Hnot.
    unfold set. rewrite Eo.
    assert (Hp : streq item (js "__proto__") = false).
    { apply streq_neq. intros ->. discriminate Hproto. }
    rewrite Hp, map_app. cbn [map fst]. split; [reflexivity|].
    intros _. apply in_or_app. right. now left.
Qed.

Lemma plain_line_names (w : walk) (line : jsstring) :
  namedBy items line = [] -> settled w ->
  sectionNames (visit items (map toLowerCase items) w line) = sectionNames w /\
  settled (visit items (map toLowerCase items) w line).
Proof.
  unfold namedBy, visit, settled, sectionNames.
  destruct (headerItem items (map toLowerCase items) line) as [it|];
    [discriminate|].
  intros _ Hs. destruct (nonEmpty (currentItem w)) eqn:En;
    cbn [sections currentItem]; [|split; [reflexivity|congruence]].
  specialize (Hs eq_refl).
  destruct (set_names (sections w) (keyOf (currentItem w))
              (toString (get (sections w) (keyOf (currentItem w))) ++ line ++ [LF]))
    as [E|[Hnot _]]; [|contradiction].
  rewrite E. split; [reflexivity|]. intros _. exact Hs.
Qed.

Lemma namedBy_cases (line : jsstring) :
  namedBy items line = [] \/ exists k, namedBy items line = [k].
Proof.
  unfold namedBy.
  destruct (headerItem items (map toLowerCase items) line) as [it|];
    [right; now exists (keyOf it)|now left].
Qed.

Lemma walk_names (lines : list jsstring) : forall w,
  settled w ->
  sectionNames (fold_left (visit items (map toLowerCase items)) lines w) =
  sectionNames w ++ fresh (sectionNames w) (firsts (flat_map (namedBy items) lines)).
Proof.
  induction lines as [|l lines IH]; intros w Hw; cbn [fold_left flat_map].
  - cbn [firsts]. unfold fresh. cbn [filter]. now rewrite app_nil_r.
  - destruct (namedBy_cases l) as [E|[k E]]; rewrite E; cbn [app].
    + destruct (@plain_line_names w l E Hw) as [Hn Hs].
      rewrite (IH _ Hs). now rewrite Hn.
    + destruct (@heading_opens w l k E) as [Hn Hs].
      rewrite (IH _ Hs), Hn. cbn [firsts].
      destruct (existsb (streq k) (sectionNames w)) eqn:Ek.
      * apply existsb_streq in Ek. f_equal.
        unfold fresh at 2. cbn [filter].
        pose proof Ek as Ek'. apply existsb_streq in Ek'. rewrite Ek'.
        cbn [negb]. symmetry. now apply fresh_known.
      * rewrite <- app_assoc. cbn [app]. f_equal.
        unfold fresh at 2. cbn [filter]. rewrite Ek. cbn [negb]. f_equal.
        apply fresh_more.
Qed.

End Order.

(** X9. When no configured item is an array index or the name of a
    property of [Object.prototype], the items found are listed in the
    order in which their headings first occur in the text. *)
Theorem found_items_in_text_order (content : jsstring)
    (items : list jsstring) (c : comparison) :
  (forall i, In i items -> ordinaryName i) ->
  parseComparisonContent content items = Some c ->
  foundItems c = firsts (flat_map (namedBy items) (split LF content)).
Proof.
  intros Hord. unfold parseComparisonContent.
  destruct (length items <=? 1)%nat; [discriminate|].
  destruct (length (keys (sections (walkLines items content))) <? 2)%nat;
    [discriminate|].
  intros [= <-]. cbn [foundItems].
  destruct (walk_sections items content) as [_ Hi].
  rewrite keys_in_order.
  - unfold walkLines.
    assert (Hs : settled start) by (intros H; discriminate H).
    pose proof (@walk_names items (fun i Hi => proj2 (Hord i Hi))
                  (split LF content) start Hs) as Hw.
    unfold sectionNames in Hw. rewrite Hw.
    cbn [start sections map app]. apply fresh_all.
  - intros k Hk. now destruct (Hord k (Hi k Hk)).
Qed.

Lemma found_items_in_text_order_witness :
  parseComparisonContent sampleIntro alphaBeta = Some sampleIntroSplit /\
  foundItems sampleIntroSplit = [js "Beta"; js "Alpha"].
Proof.
  assert (H : parseComparisonContent sampleIntro alphaBeta = Some sampleIntroSplit)
    by (vm_compute; reflexivity).
  split; [exact H|].
  apply (@found_items_in_text_order sampleIntro alphaBeta sampleIntroSplit);
    [|exact H].
  intros i [<-|[<-|[]]]; split; reflexivity.
Defined.

Section Lines.

Variable items : list jsstring.
Hypothesis ordinary : forall i, In i items -> inherited i = false.
Hypothesis named : forall i, In i items -> i <> [].
Variable k : jsstring.

Lemma heading_section (w : walk) (line k' : jsstring) :
  namedBy items line = [k'] ->
  under k (visit items (map toLowerCase items) w line) = streq k' k /\
  own (sections (visit items (map toLowerCase items) w line)) k =
    match own (sections w) k with
    | Some t => Some t
    | None => if streq k' k then Some [] else None
    end.
Proof.
  unfold namedBy, visit, under.
  destruct (headerItem items (map toLowerCase items) line) as [it|] eqn:E;
    [|discriminate].
  intros [= <-]. cbn [sections currentItem].
  apply headerItem_named in E. destruct E as [item [x [-> [Hin _]]]].
  cbn [keyOf nonEmpty]. pose proof (@ordinary item Hin) as Hproto.
  unfold inherited in Hproto.
  specialize (@named item Hin). split.
  - destruct item; [contradiction|reflexivity].
  - unfold get. destruct (own (sections w) item) as [v|] eqn:Eo.
    + cbn [truthy]. destruct (isEmpty v) eqn:Ev; cbn [negb].
      * destruct v; [|discriminate Ev].
        destruct (streq item k) eqn:Ek.
        -- apply streq_eq in Ek. subst k. rewrite Eo.
           apply own_set_same. right. congruence.
        -- apply streq_neq in Ek. rewrite own_set_other by congruence.
           now destruct (own (sections w) k).
      * destruct (own (sections w) k) as [t|] eqn:Et; [reflexivity|].
        destruct (streq item k) eqn:Ek; [|reflexivity].
        apply streq_eq in Ek. congruence.
    + rewrite Hproto. cbn [truthy negb].
      destruct (streq item k) eqn:Ek.
      * apply streq_eq in Ek. subst k. rewrite Eo.
        apply own_set_same. left. intros ->. discriminate Hproto.
      * apply streq_neq in Ek. rewrite own_set_other by congruence.
        now destruct (own (sections w) k).
Qed.

Lemma plain_line_section (w : walk) (line : jsstring) :
  namedBy items line = [] -> settled w ->
  under k (visit items (map toLowerCase items) w line) = under k w /\
  own (sections (visit items (map toLowerCase items) w line)) k =
    if under k w
    then option_map (fun t => t ++ line ++ [LF]) (own (sections w) k)
    else own (sections w) k.
Proof.
  unfold namedBy, visit, under, settled, sectionNames.
  destruct (headerItem items (map toLowerCase items) line) as [it|];
    [discriminate|].
  intros _ Hs. destruct (nonEmpty (currentItem w)) eqn:En;
    cbn [sections currentItem andb]; [|now rewrite En].
  rewrite En. cbn [andb]. split; [reflexivity|].
  specialize (Hs eq_refl).
  destruct (own (sections w) (keyOf (currentItem w))) as [t|] eqn:Eo;
    [|apply own_none in Eo; contradiction].
  unfold get. rewrite Eo. cbn [toString].
  destruct (streq (keyOf (currentItem w)) k) eqn:Ek.
  - apply streq_eq in Ek. rewrite Ek in *. rewrite Eo. cbn [option_map].
    apply own_set_same. right. congruence.
  - apply streq_neq in Ek. now rewrite own_set_other by congruence.
Qed.

Lemma under_owned (w : walk) :
  settled w -> own (sections w) k = None -> under k w = false.
Proof.
  unfold settled, under, sectionNames. intros Hs Ho.
  destruct (nonEmpty (currentItem w)); [|reflexivity]. cbn [andb].
  apply streq_neq. intros E. specialize (Hs eq_refl). rewrite E in Hs.
  apply own_none in Ho. contradiction.
Qed.

Lemma walk_section (lines : list jsstring) : forall w,
  settled w ->
  own (sections (fold_left (visit items (map toLowerCase items)) lines w)) k =
  match own (sections w) k with
  | Some t => Some (t ++ unlines (linesUnder items k (under k w) lines))
  | None =>
      if existsb (streq k) (flat_map (namedBy items) lines)
      then Some (unlines (linesUnder items k false lines))
      else None
  end.
Proof.
  induction lines as [|l lines IH]; intros w Hw;
    cbn [fold_left flat_map linesUnder].
  - unfold unlines. cbn [map concat existsb].
    destruct (own (sections w) k); [now rewrite app_nil_r|reflexivity].
  - destruct (namedBy_cases items l) as [E|[k' E]]; rewrite E; cbn [app].
    + destruct (@plain_line_names items w l E Hw) as [_ Hs].
      destruct (@plain_line_section w l E Hw) as [Hu Ho].
      rewrite (IH _ Hs), Hu, Ho.
      destruct (own (sections w) k) as [t|] eqn:Et.
      * destruct (under k w); cbn [option_map]; [|reflexivity].
        unfold unlines. cbn [map concat]. now rewrite <- !app_assoc.
      * rewrite (@under_owned w Hw Et). reflexivity.
    + destruct (@heading_opens items ordinary w l k' E) as [_ Hs].
      destruct (@heading_section w l k' E) as [Hu Ho].
      rewrite (IH _ Hs), Hu, Ho. cbn [existsb].
      destruct (own (sections w) k) as [t|] eqn:Et; [reflexivity|].
      rewrite (streq_sym k k').
      destruct (streq k' k); cbn [orb app]; reflexivity.
Qed.

End Lines.

(** X10. When no configured item has an empty name or the name of an
    inherited property, the section of each item found holds exactly
    the lines that stand under the headings of that item, in their
    order and each with its line feed: no such line is lost, none is
    taken from another item's part or from the preamble, and the
    headings themselves are left out. *)
Theorem section_holds_its_lines (content : jsstring) (items : list jsstring)
    (c : comparison) (k : jsstring) :
  (forall i, In i items -> inherited i = false /\ i <> []) ->
  parseComparisonContent content items = Some c ->
  In k (foundItems c) ->
  own (panels c) k =
  Some (unlines (linesUnder items k false (split LF content))).
Proof.
  intros Hitems. unfold parseComparisonContent.
  destruct (length items <=? 1)%nat; [discriminate|].
  destruct (length (keys (sections (walkLines items content))) <? 2)%nat;
    [discriminate|].
  intros [= <-]. cbn [foundItems panels]. intros Hk.
  apply keys_In in Hk. unfold walkLines in *.
  assert (Hs : settled start) by (intros H; discriminate H).
  pose proof (@walk_section items (fun i Hi => proj1 (Hitems i Hi))
                (fun i Hi => proj2 (Hitems i Hi)) k (split LF content) start Hs)
    as Hw.
  cbn [start sections own] in Hw.
  destruct (existsb (streq k) (flat_map (namedBy items) (split LF content)));
    [exact Hw|].
  apply own_none in Hw. contradiction.
Qed.

Lemma section_holds_its_lines_witness :
  parseComparisonContent sampleIntro alphaBeta = Some sampleIntroSplit /\
  own (panels sampleIntroSplit) (js "Beta") = Some (js "bar\n").
Proof.
  assert (H : parseComparisonContent sampleIntro alphaBeta = Some sampleIntroSplit)
    by (vm_compute; reflexivity).
  split; [exact H|].
  apply (@section_holds_its_lines sampleIntro alphaBeta sampleIntroSplit (js "Beta"));
    [|exact H|now left].
  intros i [<-|[<-|[]]]; split; (reflexivity || discriminate).
Defined.

(* ================================================================== *)
(** * Text normalisation, further *)
(* ================================================================== *)

Lemma renderMarkdown_passes (content : jsstring) :
  renderMarkdown content = breaks (rewriteBrackets content).
Proof.
  unfold renderMarkdown, breaks.
  change [Text (js "### "); Ref 1; Text [LF; LF]] with breakTemplate.
  change [Text (js "### "); Ref 1] with bracketTemplate.
  now rewrite replace_brackets, replace_breaks.
Qed.

Lemma notLF_free (s : jsstring) : forallb notLF s = true <-> ~ In LF s.
Proof.
  rewrite forallb_forall. unfold notLF. split.
  - intros H Hin. specialize (H LF Hin). now rewrite Ascii.eqb_refl in H.
  - intros H x Hx. destruct (Ascii.eqb_spec x LF) as [->|]; [contradiction|reflexivity].
Qed.

(** A text is one line, or a first line, a line feed and the rest. *)
Lemma first_line (s : jsstring) :
  ~ In LF s \/
  exists l r, s = l ++ LF :: r /\ ~ In LF l /\ (length r < length s)%nat.
Proof.
  pose proof (lines_again s) as H. pose proof (takeWhile_all notLF s) as Ht.
  apply notLF_free in Ht.
  destruct (dropWhile notLF s) as [|c r] eqn:E.
  - left. now rewrite H.
  - right. exists (takeWhile notLF s), r. split; [exact H|]. split; [exact Ht|].
    apply (f_equal (@length ascii)) in H.
    rewrite length_app in H. cbn [length] in H. lia.
Qed.

Lemma breaks_line (l : jsstring) : ~ In LF l -> breaks l = l.
Proof.
  intros H. unfold breaks. now rewrite (@split_one LF l H).
Qed.

Lemma breaks_cons (l r : jsstring) :
  ~ In LF l ->
  breaks (l ++ LF :: r) =
  l ++ LF :: (if hasHeading l && negb (startsWith [LF] r) then [LF] else [])
    ++ breaks r.
Proof.
  intros H. unfold breaks. rewrite spaceHeadings_unfold. cbv zeta.
  apply notLF_free in H.
  destruct (@takeWhile_app_stop _ notLF l LF r H) as [Et Ed].
  { unfold notLF. now rewrite Ascii.eqb_refl. }
  now rewrite Et, Ed.
Qed.

Lemma startsWith_LF_app (l x y : jsstring) :
  startsWith [LF] (l ++ LF :: x) = startsWith [LF] (l ++ LF :: y).
Proof. destruct l; reflexivity. Qed.

Lemma breaks_head (r : jsstring) :
  startsWith [LF] (breaks r) = startsWith [LF] r.
Proof.
  destruct (first_line r) as [H|[l [r' [-> [H _]]]]].
  - now rewrite breaks_line.
  - rewrite breaks_cons by exact H. apply startsWith_LF_app.
Qed.

(** The second pass adds nothing when applied again. *)
Lemma breaks_idem (s : jsstring) : breaks (breaks s) = breaks s.
Proof.
  assert (H : forall n s, (length s < n)%nat -> breaks (breaks s) = breaks s).
  { induction n as [|n IH]; intros t Hn; [lia|].
    destruct (first_line t) as [Hl|[l [r [-> [Hl Hr]]]]].
    - rewrite (@breaks_line t Hl). exact (@breaks_line t Hl).
    - rewrite (@breaks_cons l r Hl).
      destruct (hasHeading l && negb (startsWith [LF] r)) eqn:Eb; cbn [app].
      + rewrite (@breaks_cons l (LF :: breaks r) Hl).
        cbn [startsWith]. rewrite Ascii.eqb_refl. cbn [andb negb].
        rewrite andb_false_r. cbn [app].
        change (LF :: breaks r) with ([] ++ LF :: breaks r).
        rewrite (@breaks_cons [] (breaks r)) by (intros []).
        cbn [hasHeading startsWith andb orb app].
        change (js "### ") with ("#"%char :: js "## "). cbn [startsWith andb orb app].
        now rewrite IH by lia.
      + rewrite (@breaks_cons l (breaks r) Hl).
        rewrite breaks_head, Eb. cbn [app]. now rewrite IH by lia. }
  apply (H (S (length s))). lia.
Qed.

Lemma mapLines_app (f : jsstring -> jsstring) (t : ascii) (a b : jsstring) :
  isLineTerminator t = true ->
  forall cur,
  mapLines f cur (a ++ t :: b) = mapLines f cur a ++ t :: mapLines f [] b.
Proof.
  intros Ht. induction a as [|c a IH]; intros cur; cbn [app mapLines].
  - now rewrite Ht.
  - destruct (isLineTerminator c).
    + rewrite IH. now rewrite <- app_assoc.
    + apply IH.
Qed.

Lemma mapLines_line (f : jsstring -> jsstring) (l : jsstring) :
  forallb isDot l = true -> mapLines f [] l = f l.
Proof.
  intros H. rewrite mapLines_unfold.
  assert (Ed : dropWhile isDot l = []).
  { apply dropWhile_all. now apply forallb_forall. }
  pose proof (takeWhile_dropWhile isDot l) as E.
  rewrite Ed, app_nil_r in E. now rewrite Ed, E, app_nil_r.
Qed.

Lemma removelast_incl (A : Type) (l : list A) (x : A) :
  In x (removelast l) -> In x l.
Proof.
  induction l as [|c l IH]; [intros []|].
  destruct l as [|d l]; [intros []|].
  change (removelast (c :: d :: l)) with (c :: removelast (d :: l)).
  intros [<-|H]; [now left|right; now apply IH].
Qed.

(** What a rewritten line holds: the characters of the line, and those
    of the heading marker. *)
Lemma unbracket_incl (l : jsstring) (x : ascii) :
  In x (unbracket l) -> In x (js "### ") \/ In x l.
Proof.
  unfold unbracket.
  destruct (startsWith (js "[") l && endsWith (js "]") (skipn 1 l));
    [|now right].
  intros H. apply in_app_or in H. destruct H as [H|H]; [now left|right].
  apply removelast_incl in H. destruct l; [destruct H|now right].
Qed.

Lemma unbracket_idem (l : jsstring) : unbracket (unbracket l) = unbracket l.
Proof.
  unfold unbracket.
  destruct (startsWith (js "[") l && endsWith (js "]") (skipn 1 l)) eqn:E.
  - reflexivity.
  - now rewrite E.
Qed.

Lemma unbracket_dots (l : jsstring) :
  forallb isDot l = true -> forallb isDot (unbracket l) = true.
Proof.
  intros H. apply forallb_forall. intros x Hx.
  apply unbracket_incl in Hx. destruct Hx as [Hx|Hx].
  - destruct Hx as [<-|[<-|[<-|[<-|[]]]]]; reflexivity.
  - rewrite forallb_forall in H. now apply H.
Qed.

Lemma mapLines_incl (x : ascii) (s : jsstring) : forall cur,
  In x (mapLines unbracket cur s) ->
  In x (js "### ") \/ In x cur \/ In x s.
Proof.
  induction s as [|c s IH]; intros cur; cbn [mapLines].
  - intros H. apply unbracket_incl in H. tauto.
  - destruct (isLineTerminator c).
    + intros H. apply in_app_or in H. destruct H as [H|[<-|H]].
      * apply unbracket_incl in H. tauto.
      * right. right. now left.
      * apply IH in H. cbn [In] in *. tauto.
    + intros H. apply IH in H. rewrite in_app_iff in H. cbn [In] in *. tauto.
Qed.

(** The first pass brings in no line feed. *)
Lemma rewriteBrackets_free (s : jsstring) :
  ~ In LF s -> ~ In LF (rewriteBrackets s).
Proof.
  intros H Hin. apply mapLines_incl in Hin.
  destruct Hin as [Hin|[[]|Hin]]; [|contradiction].
  destruct Hin as [E|[E|[E|[E|[]]]]]; discriminate E.
Qed.

Lemma rewriteBrackets_cons (l r : jsstring) :
  rewriteBrackets (l ++ LF :: r) = rewriteBrackets l ++ LF :: rewriteBrackets r.
Proof. unfold rewriteBrackets. now apply mapLines_app. Qed.

(** The first pass changes nothing when applied again. *)
Lemma rewriteBrackets_idem (s : jsstring) :
  rewriteBrackets (rewriteBrackets s) = rewriteBrackets s.
Proof.
  assert (H : forall n s, (length s < n)%nat ->
                rewriteBrackets (rewriteBrackets s) = rewriteBrackets s).
  { unfold rewriteBrackets.
    induction n as [|n IH]; intros t Hn; [lia|].
    rewrite (mapLines_unfold unbracket t []). cbn [app].
    pose proof (takeWhile_all isDot t) as Hdots.
    pose proof (takeWhile_dropWhile isDot t) as Et.
    pose proof (dropWhile_head isDot t) as Hh.
    destruct (dropWhile isDot t) as [|x r].
    - rewrite app_nil_r. rewrite mapLines_line by now apply unbracket_dots.
      apply unbracket_idem.
    - rewrite mapLines_app by (unfold isLineTerminator; now rewrite Hh).
      rewrite mapLines_line by now apply unbracket_dots.
      rewrite unbracket_idem. rewrite IH; [reflexivity|].
      apply (f_equal (@length ascii)) in Et. rewrite length_app in Et.
      cbn [length] in Et. lia. }
  apply (H (S (length s))). lia.
Qed.

Lemma app_LF_inj (a a' b b' : jsstring) :
  ~ In LF a -> ~ In LF a' -> a ++ LF :: b = a' ++ LF :: b' ->
  a = a' /\ b = b'.
Proof.
  revert a'. induction a as [|c a IH]; intros [|c' a'] Ha Ha'; cbn [app].
  - intros [= <-]. now split.
  - intros [= <- _]. exfalso. apply Ha'. now left.
  - intros [= -> _]. exfalso. apply Ha. now left.
  - intros [= <- E]. apply IH in E.
    + destruct E as [-> ->]. now split.
    + intros H. apply Ha. now right.
    + intros H. apply Ha'. now right.
Qed.

(** A text the first pass leaves as it is stays so under the second. *)
Lemma breaks_keeps_brackets (s : jsstring) :
  rewriteBrackets s = s -> rewriteBrackets (breaks s) = breaks s.
Proof.
  assert (H : forall n s, (length s < n)%nat ->
                rewriteBrackets s = s -> rewriteBrackets (breaks s) = breaks s).
  { induction n as [|n IH]; intros t Hn Ht; [lia|].
    destruct (first_line t) as [Hl|[l [r [-> [Hl Hr]]]]].
    - now rewrite (@breaks_line t Hl).
    - rewrite rewriteBrackets_cons in Ht.
      apply app_LF_inj in Ht; [|now apply rewriteBrackets_free|exact Hl].
      destruct Ht as [El Er].
      rewrite (@breaks_cons l r Hl). rewrite rewriteBrackets_cons, El.
      f_equal. f_equal.
      destruct (hasHeading l && negb (startsWith [LF] r)); cbn [app].
      + change (LF :: breaks r) with ([] ++ LF :: breaks r).
        rewrite rewriteBrackets_cons.
        change (rewriteBrackets []) with (@nil ascii). cbn [app]. f_equal.
        apply IH; [lia|exact Er].
      + apply IH; [lia|exact Er]. }
  apply (H (S (length s))). lia.
Qed.

(** X11. The normalisation is idempotent: applied to its own result it
    changes nothing. *)
Theorem renderMarkdown_idempotent (content : jsstring) :
  renderMarkdown (renderMarkdown content) = renderMarkdown content.
Proof.
  rewrite !renderMarkdown_passes.
  rewrite breaks_keeps_brackets by apply rewriteBrackets_idem.
  apply breaks_idem.
Qed.

Lemma free_dots (s : jsstring) :
  ~ In LF s -> ~ In CR s -> forallb isDot s = true.
Proof.
  intros Hl Hc. apply forallb_forall. intros x Hx. unfold isDot.
  destruct (N.eqb_spec (code x) 10) as [E|_].
  - exfalso. apply Hl. replace LF with x; [exact Hx|].
    rewrite <- (ascii_N_embedding x). unfold code in E. now rewrite E.
  - destruct (N.eqb_spec (code x) 13) as [E|_]; [|reflexivity].
    exfalso. apply Hc. replace CR with x; [exact Hx|].
    rewrite <- (ascii_N_embedding x). unfold code in E. now rewrite E.
Qed.

(** Without carriage returns the first pass works line by line. *)
Lemma rewriteBrackets_lines (s : jsstring) :
  ~ In CR s -> split LF (rewriteBrackets s) = map unbracket (split LF s).
Proof.
  assert (H : forall n s, (length s < n)%nat -> ~ In CR s ->
                split LF (rewriteBrackets s) = map unbracket (split LF s)).
  { induction n as [|n IH]; intros t Hn Hcr; [lia|].
    assert (Hone : forall l, ~ In LF l -> ~ In CR l ->
                     split LF (rewriteBrackets l) = [unbracket l]).
    { intros l Hl Hc. unfold rewriteBrackets.
      rewrite mapLines_line by now apply free_dots.
      apply split_one. intros Hin. apply unbracket_incl in Hin.
      destruct Hin as [Hin|Hin]; [|contradiction].
      destruct Hin as [E|[E|[E|[E|[]]]]]; discriminate E. }
    destruct (first_line t) as [Hl|[l [r [-> [Hl Hr]]]]].
    - rewrite (@split_one LF t Hl). now apply Hone.
    - assert (Hcl : ~ In CR l) by (intros H; apply Hcr, in_or_app; now left).
      assert (Hcr' : ~ In CR r)
        by (intros H; apply Hcr, in_or_app; right; now right).
      rewrite rewriteBrackets_cons, !split_app.
      rewrite (@split_one LF l Hl), (Hone l Hl Hcl). cbn [map app].
      f_equal. apply IH; [lia|exact Hcr']. }
  apply (H (S (length s))). lia.
Qed.

(** The second pass adds empty lines only. *)
Lemma breaks_textLines (s : jsstring) :
  textLines (split LF (breaks s)) = textLines (split LF s).
Proof.
  assert (H : forall n s, (length s < n)%nat ->
                textLines (split LF (breaks s)) = textLines (split LF s)).
  { induction n as [|n IH]; intros t Hn; [lia|].
    destruct (first_line t) as [Hl|[l [r [-> [Hl Hr]]]]].
    - now rewrite (@breaks_line t Hl).
    - rewrite (@breaks_cons l r Hl), !split_app. unfold textLines.
      rewrite !filter_app. f_equal.
      destruct (hasHeading l && negb (startsWith [LF] r)); cbn [app].
      + change (LF :: breaks r) with ([] ++ LF :: breaks r).
        rewrite split_app. cbn [split app filter isEmpty negb].
        apply IH. lia.
      + apply IH. lia. }
  apply (H (S (length s))). lia.
Qed.

(** X12. On a text whose only line terminators are line feeds the
    normalisation keeps the lines that are not empty, in their order, a
    bracketed line having become a heading; all it adds is empty lines.
    *)
Theorem normalisation_keeps_lines (content : jsstring) :
  Forall (fun c => isLineTerminator c = true -> c = LF) content ->
  textLines (split LF (renderMarkdown content))
  = textLines (map unbracket (split LF content)).
Proof.
  intros Hlt.
  assert (Hcr : ~ In CR content).
  { intros Hin. rewrite Forall_forall in Hlt.
    specialize (Hlt CR Hin eq_refl). discriminate Hlt. }
  rewrite renderMarkdown_passes, breaks_textLines.
  now rewrite rewriteBrackets_lines.
Qed.

Lemma normalisation_keeps_lines_witness :
  textLines (split LF (renderMarkdown sampleAnswer))
  = [js "### Pune"; js "prices rose"; js "### Mumbai"; js "prices fell"].
Proof.
  apply (@normalisation_keeps_lines sampleAnswer).
  repeat constructor; intros H;
    first [reflexivity | vm_compute in H; discriminate H].
Defined.

(* ================================================================== *)
(** * Sending a query *)
(* ================================================================== *)

Import Session.

Lemma lowerChar_space (c : ascii) :
  Ascii.eqb (lowerChar c) " " = Ascii.eqb c " ".
Proof. destruct c as [[] [] [] [] [] [] [] []]; reflexivity. Qed.

Lemma replaceFirst_absent (x y : ascii) (s : jsstring) :
  ~ In x s -> replaceFirst [x] [y] s = s.
Proof.
  induction s as [|c s IH]; intros H; [reflexivity|].
  cbn [replaceFirst startsWith].
  destruct (Ascii.eqb_spec x c) as [->|_]; [exfalso; apply H; now left|].
  cbn [andb]. f_equal. apply IH. intros Hin. apply H. now right.
Qed.

Lemma replaceFirst_at (x y : ascii) (a b : jsstring) :
  ~ In x a -> replaceFirst [x] [y] (a ++ x :: b) = a ++ y :: b.
Proof.
  induction a as [|c a IH]; intros H; cbn [app].
  - cbn [replaceFirst startsWith]. now rewrite Ascii.eqb_refl.
  - cbn [replaceFirst startsWith].
    destruct (Ascii.eqb_spec x c) as [->|_]; [exfalso; apply H; now left|].
    cbn [andb]. f_equal. apply IH. intros Hin. apply H. now right.
Qed.

Lemma toLowerCase_space (s : jsstring) :
  In " "%char (toLowerCase s) <-> In " "%char s.
Proof.
  unfold toLowerCase. rewrite in_map_iff. split.
  - intros [c [E Hc]]. replace " "%char with c; [exact Hc|].
    apply Ascii.eqb_eq. rewrite <- lowerChar_space. now apply Ascii.eqb_eq.
  - intros H. now exists " "%char.
Qed.

(** X13. The provider key is the lower-cased name with its first
    space, and only the first, turned into an underscore: a name with
    two spaces keeps the second. *)
Theorem provider_key_first_space (a b : jsstring) :
  ~ In " "%char a ->
  providerKey a = toLowerCase a /\
  providerKey (a ++ " "%char :: b) = toLowerCase a ++ "_"%char :: toLowerCase b.
Proof.
  intros H. unfold providerKey.
  assert (Hl : ~ In " "%char (toLowerCase a)) by now rewrite toLowerCase_space.
  change (js " ") with [" "%char]. change (js "_") with ["_"%char]. split.
  - now apply replaceFirst_absent.
  - unfold toLowerCase. rewrite map_app. cbn [map].
    change (lowerChar " ") with " "%char.
    now apply replaceFirst_at.
Qed.

Lemma provider_key_first_space_witness :
  providerKey (js "Google Gemini") = js "google_gemini" /\
  providerKey (js "Azure Open AI") = js "azure_open ai".
Proof.
  split.
  - apply (proj2 (@provider_key_first_space (js "Google") (js "Gemini")
                    ltac:(vm_compute; intuition discriminate))).
  - apply (proj2 (@provider_key_first_space (js "Azure") (js "Open AI")
                    ltac:(vm_compute; intuition discriminate))).
Defined.

Lemma letter_any_case (lower upper x : ascii) :
  lowerChar upper = lower -> lowerChar lower = lower ->
  (forall y, lowerChar y = lower -> y = lower \/ y = upper) ->
  Ascii.eqb (lowerChar x) lower = isLetter lower upper x.
Proof.
  intros Hu Hl Hall. unfold isLetter.
  destruct (Ascii.eqb_spec (lowerChar x) lower) as [E|E].
  - destruct (Hall x E) as [->| ->]; rewrite Ascii.eqb_refl;
      [reflexivity|now rewrite orb_true_r].
  - destruct (Ascii.eqb_spec x lower) as [->|_]; [contradiction|].
    destruct (Ascii.eqb_spec x upper) as [->|_]; [contradiction|reflexivity].
Qed.

Lemma letter_a (x : ascii) :
  Ascii.eqb (lowerChar x) "a" = isLetter "a" "A" x.
Proof.
  apply letter_any_case; try reflexivity.
  intros y. destruct y as [[] [] [] [] [] [] [] []]; vm_compute;
    intros E; try discriminate E; auto.
Qed.

Lemma letter_n (x : ascii) :
  Ascii.eqb (lowerChar x) "n" = isLetter "n" "N" x.
Proof.
  apply letter_any_case; try reflexivity.
  intros y. destruct y as [[] [] [] [] [] [] [] []]; vm_compute;
    intros E; try discriminate E; auto.
Qed.

Lemma letter_d (x : ascii) :
  Ascii.eqb (lowerChar x) "d" = isLetter "d" "D" x.
Proof.
  apply letter_any_case; try reflexivity.
  intros y. destruct y as [[] [] [] [] [] [] [] []]; vm_compute;
    intros E; try discriminate E; auto.
Qed.

(** One attempt of the question pattern: the word, three units long,
    or a sign, one unit long. *)
Lemma matchHere_question (prev : option ascii) (s : jsstring) :
  matchHere false questionPattern prev s =
  if andAhead s then Some (3%nat, [])
  else if signAhead s then Some (1%nat, []) else None.
Proof.
  assert (Hsign : forall a r,
            orElse
              (if Ascii.eqb a "?"
               then Some ((length (a :: r) - length r)%nat, @nil jsstring)
               else None)
              (if Ascii.eqb a LF
               then Some ((length (a :: r) - length r)%nat, @nil jsstring)
               else None)
            = if signAhead (a :: r) then Some (1%nat, []) else None).
  { intros a r. unfold signAhead.
    replace (length (a :: r) - length r)%nat with 1%nat by (cbn [length]; lia).
    destruct (Ascii.eqb a "?"); [reflexivity|]. now destruct (Ascii.eqb a LF). }
  unfold matchHere, questionPattern, letter, andAhead.
  destruct s as [|a [|n [|d r]]]; cbn [run]; [reflexivity| | |].
  - destruct (Ascii.eqb (lowerChar a) "a"); cbn [orElse]; apply Hsign.
  - destruct (Ascii.eqb (lowerChar a) "a"); cbn [orElse]; [|apply Hsign].
    destruct (Ascii.eqb (lowerChar n) "n"); cbn [orElse]; apply Hsign.
  - rewrite letter_a, letter_n, letter_d.
    destruct (isLetter "a" "A" a); cbn [andb orElse]; [|apply Hsign].
    destruct (isLetter "n" "N" n); cbn [andb orElse]; [|apply Hsign].
    destruct (isLetter "d" "D" d); cbn [andb orElse]; [|apply Hsign].
    f_equal. f_equal. cbn [length]. lia.
Qed.

Lemma inside_word (lower upper x : ascii) :
  isLetter lower upper x = true ->
  isLetter "a" "A" lower = false -> isLetter "a" "A" upper = false ->
  signAhead [lower] = false -> signAhead [upper] = false ->
  forall r, questionMark (x :: r) = false.
Proof.
  unfold isLetter at 1. intros Hx Hl Hu Sl Su r.
  apply orb_prop in Hx.
  unfold questionMark, andAhead, signAhead in *.
  destruct Hx as [Hx|Hx]; apply Ascii.eqb_eq in Hx; subst x.
  - rewrite Hl, Sl. cbn [andb orb]. now destruct r as [|? [|? ?]].
  - rewrite Hu, Su. cbn [andb orb]. now destruct r as [|? [|? ?]].
Qed.

Lemma count_question_marks : forall n s prev, (length s < n)%nat ->
  length (matchesFrom false questionPattern 0 prev s) = countMarks s.
Proof.
  induction n as [|n IH]; intros s prev Hn; [lia|].
  destruct s as [|c s]; [reflexivity|].
  cbn [matchesFrom countMarks]. rewrite matchHere_question.
  unfold questionMark.
  destruct (andAhead (c :: s)) eqn:Ea.
  - destruct s as [|x [|y r]]; try discriminate Ea.
    cbn [andAhead] in Ea. apply andb_prop in Ea. destruct Ea as [Ea Hd].
    apply andb_prop in Ea. destruct Ea as [_ Hn'].
    cbn [orb matchesFrom length].
    rewrite IH by (cbn [length] in Hn; lia).
    cbn [countMarks].
    rewrite (@inside_word "n" "N" x Hn' eq_refl eq_refl eq_refl eq_refl).
    rewrite (@inside_word "d" "D" y Hd eq_refl eq_refl eq_refl eq_refl).
    reflexivity.
  - cbn [orb]. destruct (signAhead (c :: s)); cbn [length];
      rewrite IH by (cbn [length] in Hn; lia); reflexivity.
Qed.

(** X14. The estimate counts one question and one more for every
    "and" (in any letter case, inside a word as well), question mark and
    line feed of the query; it is ten seconds a question, five an item
    and three a category on top of ten, and never below 55. *)
Theorem estimate_counts_questions (st : settings) (userQuery : jsstring) :
  qCount userQuery = (1 + Z.of_nat (countMarks userQuery))%Z /\
  estimatedSeconds st userQuery =
    Z.max 55 (20 + 5 * Z.of_nat (length (selectedItems st))
                 + 3 * Z.of_nat (length (selectedCategories st))
                 + 10 * Z.of_nat (countMarks userQuery)).
Proof.
  assert (Hq : qCount userQuery = (1 + Z.of_nat (countMarks userQuery))%Z).
  { unfold qCount, matchAll, len.
    rewrite <- (@count_question_marks (S (length userQuery)) userQuery None)
      by lia.
    destruct (matchesFrom false questionPattern 0 None userQuery);
      cbn [length]; lia. }
  split; [exact Hq|].
  unfold estimatedSeconds, len. rewrite Hq. f_equal. lia.
Qed.

Lemma ticks_down (n : nat) : forall e : Z,
  (0 <= e)%Z -> Nat.iter n tick e = Z.max 0 (e - Z.of_nat n).
Proof.
  induction n as [|n IH]; intros e He.
  - change (Nat.iter 0 tick e) with e. lia.
  - rewrite Nat.iter_succ_r, IH.
    + unfold tick. destruct (Z.leb_spec e 1); lia.
    + unfold tick. destruct (Z.leb_spec e 1); lia.
Qed.

(** X15. After a query is sent the countdown starts at the estimate,
    which is 55 seconds or more; [n] ticks later it shows the estimate
    less [n], and from the estimate's own number of ticks on it shows
    zero, never less. *)
Theorem countdown_runs_out (st : settings) (inputValue : jsstring)
    (shown : jsstring) (sent : request) (estimate : Z) :
  handleSubmit st inputValue = Sent shown sent estimate ->
  (55 <= estimate)%Z /\
  forall n : nat, Nat.iter n tick estimate = Z.max 0 (estimate - Z.of_nat n).
Proof.
  unfold handleSubmit.
  destruct (isEmpty (trim inputValue)); [discriminate|].
  destruct (isEmpty (selectedItems st)); [discriminate|].
  destruct (isEmpty (selectedCategories st)); [discriminate|].
  intros [= _ _ <-].
  assert (H55 : (55 <= estimatedSeconds st (trim inputValue))%Z)
    by (unfold estimatedSeconds; lia).
  split; [exact H55|]. intros n. apply ticks_down. lia.
Qed.

Lemma countdown_runs_out_witness :
  Nat.iter 100 tick 123%Z = 23%Z /\ Nat.iter 130 tick 123%Z = 0%Z.
Proof.
  destruct (@countdown_runs_out sampleSettings sampleQuery
              sampleQuery (requestData sampleSettings sampleQuery) 123%Z
              eq_refl) as [_ H].
  split; [exact (H 100%nat)|exact (H 130%nat)].
Defined.

(* ================================================================== *)
(** * Showing an answer *)
(* ================================================================== *)

Lemma renderPanels_owned (o : object) (names : list jsstring) :
  (forall k, In k names -> exists text, own o k = Some text) ->
  exists cols,
    renderPanels o names = Normal cols /\
    map heading cols = names /\
    Forall (fun p => exists text,
              own o (heading p) = Some text /\ body p = renderMarkdown text)
           cols.
Proof.
  induction names as [|k names IH]; intros H.
  - exists []. repeat split. constructor.
  - destruct (H k (or_introl eq_refl)) as [text Ht].
    destruct IH as [cols [Hr [Hm Hf]]]; [intros x Hx; apply H; now right|].
    exists ({| heading := k; body := renderMarkdown text |} :: cols).
    cbn [renderPanels]. unfold get. rewrite Ht. cbn [renderValue bind].
    rewrite Hr. cbn [bind map heading]. rewrite Hm. repeat split.
    constructor; [|exact Hf]. now exists text.
Qed.

(** X16. Showing an assistant message never fails.  Without a
    comparison the whole text is normalised and shown.  With one, the
    introduction is shown when it is more than white space, there is one
    panel for each item found, in that order, holding the normalised
    text of the item's own section, and the grid is given two or three
    columns: the class without columns is never used. *)
Theorem assistant_message_shown (content : jsstring) (chosen : list jsstring) :
  match parseComparisonContent content chosen with
  | None =>
      AssistantMessage content chosen = Normal (Whole (renderMarkdown content))
  | Some c =>
      exists cols,
        AssistantMessage content chosen =
          Normal (Compared
                    (if isEmpty (trim (preamble c)) then None
                     else Some (renderMarkdown (preamble c)))
                    (gridClass (length (foundItems c))) cols) /\
        (gridClass (length (foundItems c)) = js "md:grid-cols-2" \/
         gridClass (length (foundItems c)) = js "md:grid-cols-3") /\
        map heading cols = foundItems c /\
        Forall (fun p => exists text,
                  own (panels c) (heading p) = Some text /\
                  body p = renderMarkdown text) cols
  end.
Proof.
  unfold AssistantMessage.
  destruct (parseComparisonContent content chosen) as [c|] eqn:E;
    [|reflexivity].
  unfold parseComparisonContent in E.
  destruct (length chosen <=? 1)%nat; [discriminate|].
  destruct (length (keys (sections (walkLines chosen content))) <? 2)%nat eqn:E2;
    [discriminate|].
  injection E as <-. cbn [foundItems panels preamble].
  apply Nat.ltb_ge in E2.
  destruct (@renderPanels_owned (sections (walkLines chosen content))
              (keys (sections (walkLines chosen content)))) as [cols [Hr [Hm Hf]]].
  { intros k Hk. apply keys_In in Hk.
    destruct (own (sections (walkLines chosen content)) k) as [text|] eqn:Eo;
      [now exists text|].
    apply own_none in Eo. contradiction. }
  exists cols. rewrite Hr. cbn [bind]. repeat split; try assumption.
  unfold gridClass.
  destruct (Nat.eqb_spec (length (keys (sections (walkLines chosen content)))) 2);
    [now left|].
  destruct (Nat.leb_spec 3 (length (keys (sections (walkLines chosen content)))));
    [now right|lia].
Qed.

(* ================================================================== *)
(** * The data sources of an answer *)
(* ================================================================== *)

Import Sources.

Lemma firsts_In (l : list jsstring) (x : jsstring) :
  In x (firsts l) <-> In x l.
Proof.
  induction l as [|y l IH]; cbn [firsts In]; [reflexivity|].
  rewrite filter_In, IH. split.
  - intros [H|[H _]]; auto.
  - intros [H|H]; [now left|].
    destruct (streq x y) eqn:E.
    + apply streq_eq in E. now left.
    + right. now split.
Qed.

Lemma firsts_NoDup (l : list jsstring) : NoDup (firsts l).
Proof.
  induction l as [|y l IH]; cbn [firsts]; constructor.
  - rewrite filter_In. intros [_ H]. now rewrite streq_refl in H.
  - now apply NoDup_filter.
Qed.

Lemma firsts_snoc (l : list jsstring) (x : jsstring) :
  firsts (l ++ [x]) =
  if existsb (streq x) l then firsts l else firsts l ++ [x].
Proof.
  induction l as [|y l IH]; cbn [app firsts existsb]; [reflexivity|].
  rewrite IH. destruct (existsb (streq x) l).
  - now rewrite orb_true_r.
  - rewrite orb_false_r, filter_app. cbn [filter].
    destruct (streq x y); cbn [negb]; [now rewrite app_nil_r|reflexivity].
Qed.

Lemma ownGroup_map (f : jsstring -> list jsstring) (k : jsstring)
    (l : list jsstring) :
  ownGroup (map (fun k' => (k', f k')) l) k =
  if existsb (streq k) l then Some (f k) else None.
Proof.
  induction l as [|y l IH]; cbn [map ownGroup existsb]; [reflexivity|].
  rewrite (streq_sym k y). destruct (streq y k) eqn:E; [|exact IH].
  apply streq_eq in E. now subst.
Qed.

Lemma pushTo_map (f : jsstring -> list jsstring) (k x : jsstring)
    (l : list jsstring) :
  NoDup l ->
  pushTo (map (fun k' => (k', f k')) l) k x =
  map (fun k' => (k', f k' ++ if streq k' k then [x] else [])) l.
Proof.
  induction l as [|y l IH]; intros Hn; cbn [map pushTo]; [reflexivity|].
  apply NoDup_cons_iff in Hn. destruct Hn as [Hy Hn].
  destruct (streq y k) eqn:E.
  - apply streq_eq in E. subst y. f_equal.
    apply map_ext_in. intros z Hz.
    destruct (streq z k) eqn:Ez; [|now rewrite app_nil_r].
    apply streq_eq in Ez. subst z. contradiction.
  - rewrite app_nil_r. f_equal. now apply IH.
Qed.

Lemma columnsOf_snoc (k : jsstring) (items : list entry) (item : entry) :
  columnsOf k (items ++ [item]) =
  columnsOf k items ++ if streq k (sourceOf item) then [column item] else [].
Proof.
  unfold columnsOf. rewrite filter_app, map_app. cbn [filter].
  rewrite (streq_sym k). now destruct (streq (sourceOf item) k).
Qed.

Lemma columnsOf_absent (k : jsstring) (items : list entry) :
  ~ In k (map sourceOf items) -> columnsOf k items = [].
Proof.
  unfold columnsOf. induction items as [|item items IH]; intros H;
    [reflexivity|].
  cbn [filter]. destruct (streq (sourceOf item) k) eqn:E.
  - apply streq_eq in E. exfalso. apply H. now left.
  - apply IH. intros Hin. apply H. now right.
Qed.

(** One step of the reduction on the groups of the entries seen so
    far. *)
Lemma collect_step (seen : list entry) (item : entry) :
  existsb (streq (sourceOf item)) prototypeNames = false ->
  collect (groupsOf seen) item = Normal (groupsOf (seen ++ [item])).
Proof.
  intros Hp. unfold collect. cbv zeta.
  set (k := sourceOf item). set (x := column item).
  assert (Hnew : groupsOf (seen ++ [item]) =
                 pushTo (map (fun k' => (k', columnsOf k' seen))
                             (firsts (map sourceOf seen ++ [k]))) k x).
  { rewrite pushTo_map by apply firsts_NoDup.
    unfold groupsOf. rewrite map_app. cbn [map]. fold k.
    apply map_ext. intros z. now rewrite columnsOf_snoc. }
  unfold groupsOf at 1. rewrite ownGroup_map.
  destruct (existsb (streq k) (firsts (map sourceOf seen))) eqn:E.
  - rewrite Hnew, firsts_snoc.
    apply (proj1 (existsb_streq _ _)) in E.
    apply (proj1 (firsts_In _ _)) in E.
    apply (proj2 (existsb_streq _ _)) in E. now rewrite E.
  - fold k in Hp. rewrite Hp, Hnew, firsts_snoc.
    assert (E' : existsb (streq k) (map sourceOf seen) = false).
    { apply existsb_streq_false. apply existsb_streq_false in E.
      intros H. apply E. now apply (proj2 (firsts_In _ _)). }
    rewrite E', map_app. cbn [map]. unfold groupsOf.
    rewrite (@columnsOf_absent k seen); [reflexivity|].
    now apply existsb_streq_false.
Qed.

Lemma reduce_groups (rest : list entry) : forall seen,
  (forall item, In item seen ->
     existsb (streq (sourceOf item)) prototypeNames = false) ->
  reduce (groupsOf seen) rest =
  if existsb (fun item => existsb (streq (sourceOf item)) prototypeNames) rest
  then Throw TypeError
  else Normal (groupsOf (seen ++ rest)).
Proof.
  induction rest as [|item rest IH]; intros seen Hseen; cbn [reduce existsb].
  - now rewrite app_nil_r.
  - destruct (existsb (streq (sourceOf item)) prototypeNames) eqn:Ep;
      cbn [orb].
    + unfold collect. cbv zeta. unfold groupsOf. rewrite ownGroup_map.
      assert (E : existsb (streq (sourceOf item)) (firsts (map sourceOf seen))
                  = false).
      { apply existsb_streq_false. intros H.
        apply (proj1 (firsts_In _ _)) in H. apply in_map_iff in H. destruct H as [other [Eo Ho]].
        specialize (Hseen other Ho). rewrite Eo in Hseen. congruence. }
      now rewrite E, Ep.
    + rewrite (@collect_step seen item Ep). cbn [bind].
      rewrite IH.
      * now rewrite <- app_assoc.
      * intros other Ho. apply in_app_or in Ho.
        destruct Ho as [Ho|[<-|[]]]; [now apply Hseen|exact Ep].
Qed.

Lemma groupedBySource_result (items : list entry) :
  groupedBySource items =
  if existsb (fun item => existsb (streq (sourceOf item)) prototypeNames) items
  then Throw TypeError
  else Normal (groupsOf items).
Proof.
  unfold groupedBySource. change (@nil (jsstring * list jsstring)) with (groupsOf []).
  rewrite reduce_groups; [reflexivity|]. intros item [].
Qed.

(** X17. The sources are grouped as they read: when every source of
    the entries (a missing or empty one counting as Unknown) is neither
    an array index nor the name of a property of [Object.prototype], the
    component shows one group for each source, in the order in which the
    sources first occur, each with the columns of that source in their
    order. *)
Theorem sources_grouped (items : list entry) :
  items <> [] ->
  (forall item, In item items -> ordinaryName (sourceOf item)) ->
  DataSourceDisplay (Some items) =
  Normal (Some {| total := length items; grouped := groupsOf items |}).
Proof.
  intros Hne Hord. unfold DataSourceDisplay.
  destruct items as [|first others] eqn:Ei; [contradiction|].
  cbn [isEmpty]. rewrite <- Ei in *. rewrite groupedBySource_result.
  assert (Hp : existsb
                 (fun item => existsb (streq (sourceOf item)) prototypeNames)
                 items = false).
  { destruct (existsb _ items) eqn:E; [|reflexivity].
    apply existsb_exists in E. destruct E as [item [Hin Hp]].
    destruct (Hord item Hin) as [_ Hn]. unfold inherited in Hn. congruence. }
  rewrite Hp. cbn [bind]. do 3 f_equal. unfold entries.
  destruct (@filter_none _ (fun e : jsstring * list jsstring => isArrayIndex (fst e))
              (groupsOf items)) as [E1 E2].
  { intros [k cols] Hin. cbn [fst]. unfold groupsOf in Hin.
    apply in_map_iff in Hin. destruct Hin as [k' [[= <- _] Hk]].
    apply (proj1 (firsts_In _ _)) in Hk. apply in_map_iff in Hk.
    destruct Hk as [item [<- Hin]]. now destruct (Hord item Hin). }
  now rewrite E1, E2.
Qed.

Lemma sources_grouped_witness :
  DataSourceDisplay (Some sampleSources) =
  Normal (Some {| total := 4;
                  grouped := [ (js "RERA", [js "Units sold"; js "Carpet area"]);
                               (js "IGR", [js "Rate"]);
                               (js "Unknown", [js "Notes"]) ] |}).
Proof.
  apply (@sources_grouped sampleSources).
  - discriminate.
  - intros item [<-|[<-|[<-|[<-|[]]]]]; split; reflexivity.
Defined.

(** X18. The grouping fails in one case only: the component throws a
    TypeError exactly when some entry has for its source the name of a
    property of [Object.prototype] ("constructor", "toString", ...). *)
Theorem sources_fail_on_inherited_names (items : list entry) :
  DataSourceDisplay (Some items) = Throw TypeError <->
  exists item, In item items /\ In (sourceOf item) prototypeNames.
Proof.
  unfold DataSourceDisplay. destruct items as [|first others] eqn:Ei.
  - cbn [isEmpty]. split; [discriminate|]. intros [item [[] _]].
  - cbn [isEmpty]. rewrite <- Ei. clear Ei. rewrite groupedBySource_result.
    destruct (existsb _ items) eqn:E; cbn [bind].
    + split; [intros _|reflexivity].
      apply existsb_exists in E. destruct E as [item [Hin Hp]].
      exists item. split; [exact Hin|]. now apply existsb_streq.
    + split; [discriminate|]. intros [item [Hin Hp]].
      apply existsb_streq in Hp.
      assert (Hex : existsb
                (fun item => existsb (streq (sourceOf item)) prototypeNames)
                items = true).
      { apply existsb_exists. now exists item. }
      congruence.
Qed.

Lemma sources_fail_on_inherited_names_witness :
  DataSourceDisplay
    (Some [ {| column := js "Rate"; source := Some (js "IGR") |};
            {| column := js "Deeds"; source := Some (js "constructor") |} ])
  = Throw TypeError.
Proof.
  apply (proj2 (sources_fail_on_inherited_names
                  [ {| column := js "Rate"; source := Some (js "IGR") |};
                    {| column := js "Deeds"; source := Some (js "constructor") |} ])).
  exists {| column := js "Deeds"; source := Some (js "constructor") |}.
  split; [right; now left|now left].
Defined.

(* ================================================================== *)
(** * The configuration side bar *)
(* ================================================================== *)

Import Store Sidebar.

Lemma selectItems_bound (selected : list jsstring) (c : change) :
  (length selected <= 5)%nat -> (length (fst (selectItems selected c)) <= 5)%nat.
Proof.
  intros H. destruct c as [item|item|]; cbn [selectItems].
  - destruct (Nat.ltb_spec (length selected) 5); cbn [fst]; [|exact H].
    rewrite length_app. cbn [length]. lia.
  - cbn [fst]. unfold without.
    pose proof (filter_length_le (fun i => negb (streq i item)) selected). lia.
  - cbn [fst length]. lia.
Qed.

(** X19. The selection never holds more than five items: whatever the
    run of ticks, clearings and changes of the comparison type, a
    selection of five or fewer stays one. *)
Theorem selection_at_most_five (changes : list change)
    (selected : list jsstring) :
  (length selected <= 5)%nat ->
  (length (selectionAfter changes selected) <= 5)%nat.
Proof.
  unfold selectionAfter. revert selected.
  induction changes as [|c changes IH]; intros selected H; cbn [fold_left].
  - exact H.
  - apply IH. now apply selectItems_bound.
Qed.

Lemma selection_at_most_five_witness :
  (length (selectionAfter
             [Ticked (js "a"); Ticked (js "b"); Ticked (js "c");
              Ticked (js "d"); Ticked (js "e"); Ticked (js "f");
              Cleared (js "b"); Ticked (js "g"); Ticked (js "h")] []) <= 5)%nat.
Proof.
  apply (@selection_at_most_five
           [Ticked (js "a"); Ticked (js "b"); Ticked (js "c");
            Ticked (js "d"); Ticked (js "e"); Ticked (js "f");
            Cleared (js "b"); Ticked (js "g"); Ticked (js "h")] []).
  cbn [length]. lia.
Defined.

Lemma find_first (A : Type) (p : A -> bool) (l : list A) :
  match find p l with
  | Some m =>
      exists a b, l = a ++ m :: b /\ p m = true /\
                  Forall (fun x => p x = false) a
  | None => Forall (fun x => p x = false) l
  end.
Proof.
  induction l as [|x l IH]; cbn [find]; [constructor|].
  destruct (p x) eqn:E.
  - exists [], l. repeat split; [exact E|constructor].
  - destruct (find p l) as [m|].
    + destruct IH as [a [b [-> [Hm Ha]]]].
      exists (x :: a), b. repeat split; [exact Hm|now constructor].
    + now constructor.
Qed.

(** X20. The answer the side bar gives the details of is the last
    assistant message of the chat: no assistant message stands behind
    it; and there is none exactly when the chat has no assistant
    message. *)
Theorem last_answer_is_last (messages : list message) :
  match lastAssistantMessage messages with
  | Some m =>
      exists before behind,
        messages = before ++ m :: behind /\
        role m = js "assistant" /\
        Forall (fun x => role x <> js "assistant") behind
  | None => Forall (fun x => role x <> js "assistant") messages
  end.
Proof.
  unfold lastAssistantMessage.
  pose proof (find_first (fun m => streq (role m) (js "assistant")) (rev messages))
    as H.
  assert (Hneq : forall l : list message,
            Forall (fun x => streq (role x) (js "assistant") = false) l ->
            Forall (fun x => role x <> js "assistant") (rev l)).
  { intros l Hl. apply Forall_forall. intros x Hx. apply in_rev in Hx.
    rewrite Forall_forall in Hl. now apply streq_neq, Hl. }
  destruct (find _ (rev messages)) as [m|].
  - destruct H as [a [b [E [Hm Ha]]]].
    exists (rev b), (rev a). repeat split.
    + rewrite <- (rev_involutive messages), E, rev_app_distr. cbn [rev].
      now rewrite <- app_assoc.
    + now apply streq_eq.
    + now apply Hneq.
  - rewrite <- (rev_involutive messages). now apply Hneq.
Qed.

(* ================================================================== *)
(** * The CSRF cookie *)
(* ================================================================== *)

Import Client.

Lemma trim_solid (s : jsstring) :
  forallb (fun c => negb (isWhiteSpace c)) s = true -> trim s = s.
Proof.
  intros H. unfold trim, trimEnd, trimStart.
  assert (Hd : forall l : jsstring,
            forallb (fun c => negb (isWhiteSpace c)) l = true ->
            dropWhile isWhiteSpace l = l).
  { intros [|c l] Hl; [reflexivity|]. cbn [forallb] in Hl.
    apply andb_prop in Hl. destruct Hl as [Hc _]. cbn [dropWhile].
    now destruct (isWhiteSpace c). }
  rewrite (Hd s H), Hd; [apply rev_involutive|].
  apply forallb_forall. intros x Hx. apply in_rev in Hx.
  rewrite forallb_forall in H. now apply H.
Qed.

Lemma trim_after_space (c : ascii) (s : jsstring) :
  isWhiteSpace c = true -> trim (c :: s) = trim s.
Proof. intros H. unfold trim, trimStart. cbn [dropWhile]. now rewrite H. Qed.

Lemma pairText_solid (p : jsstring * jsstring) :
  isCookieName (fst p) -> isCookieValue (snd p) ->
  forallb (fun c => negb (isWhiteSpace c)) (pairText p) = true /\
  ~ In ";"%char (pairText p).
Proof.
  unfold isCookieName, isCookieValue, pairText. intros Hn Hv.
  rewrite forallb_forall in Hn, Hv. split.
  - apply forallb_forall. intros x Hx. apply in_app_or in Hx.
    destruct Hx as [Hx|[<-|Hx]]; [|reflexivity|].
    + specialize (Hn x Hx). rewrite !negb_orb in Hn.
      now apply andb_prop in Hn.
    + specialize (Hv x Hx). rewrite negb_orb in Hv.
      now apply andb_prop in Hv.
  - intros Hx. apply in_app_or in Hx.
    destruct Hx as [Hx|[E|Hx]]; [|discriminate E|].
    + specialize (Hn _ Hx). discriminate Hn.
    + specialize (Hv _ Hx). discriminate Hv.
Qed.

(** The cookies the text splits into: each pair, with a space before
    it but for the first. *)
Lemma split_cookieText (p : jsstring * jsstring)
    (r : list (jsstring * jsstring)) :
  Forall (fun q => ~ In ";"%char (pairText q)) (p :: r) ->
  split ";" (cookieText (p :: r)) =
  pairText p :: map (fun q => " "%char :: pairText q) r.
Proof.
  revert p. induction r as [|q r IH]; intros p H.
  - cbn [cookieText map]. apply split_one.
    apply Forall_inv in H. exact H.
  - apply Forall_cons_iff in H. destruct H as [Hp Hr].
    change (cookieText (p :: q :: r))
      with (pairText p ++ ";"%char :: " "%char :: cookieText (q :: r)).
    rewrite split_app, (@split_one ";" (pairText p) Hp).
    cbn [app split]. rewrite (IH q Hr). reflexivity.
Qed.

Lemma name_prefix (name : jsstring) : forall n v : jsstring,
  ~ In "="%char name -> ~ In "="%char n ->
  streq (firstn (length name + 1) (n ++ "="%char :: v)) (name ++ js "=")
  = streq n name.
Proof.
  change (js "=") with ["="%char].
  induction name as [|a name IH]; intros n v Hname Hn.
  - destruct n as [|c n]; [reflexivity|].
    cbn [length Nat.add app firstn].
    transitivity false; [|symmetry; now apply streq_neq].
    apply streq_neq. intros [= ->]. apply Hn. now left.
  - destruct n as [|c n].
    + cbn [length Nat.add app firstn].
      transitivity false; [|symmetry; now apply streq_neq].
      apply streq_neq. intros [= <- _]. apply Hname. now left.
    + cbn [length Nat.add app firstn].
      assert (Hname' : ~ In "="%char name) by (intros H; apply Hname; now right).
      assert (Hn' : ~ In "="%char n) by (intros H; apply Hn; now right).
      specialize (IH n v Hname' Hn').
      destruct (streq n name) eqn:E.
      * apply streq_eq in IH. apply streq_eq in E. subst n.
        destruct (Ascii.eqb_spec c a) as [->|Hc].
        -- rewrite IH. rewrite !streq_refl. reflexivity.
        -- transitivity false; [apply streq_neq|symmetry; apply streq_neq];
             congruence.
      * apply streq_neq in IH. apply streq_neq in E.
        transitivity false; [apply streq_neq|symmetry; apply streq_neq];
          congruence.
Qed.

Lemma value_behind (name v : jsstring) :
  skipn (length name + 1) (name ++ "="%char :: v) = v.
Proof. induction name as [|a name IH]; [reflexivity|exact IH]. Qed.

Section Jar.

Variable decodeURIComponent : jsstring -> decoded.
Variable name : jsstring.
Hypothesis plain : isCookieName name.

Lemma name_free (n : jsstring) : isCookieName n -> ~ In "="%char n.
Proof.
  unfold isCookieName. intros H Hin. rewrite forallb_forall in H.
  specialize (H _ Hin). discriminate H.
Qed.

Lemma scan_jar (jar : list (jsstring * jsstring)) :
  forall cookies : list jsstring,
  Forall2 (fun c p => trim c = pairText p) cookies jar ->
  Forall (fun p => isCookieName (fst p)) jar ->
  scan decodeURIComponent name cookies =
  decodedValue decodeURIComponent (valueOf name jar).
Proof.
  induction jar as [|[n v] jar IH]; intros cookies Hc Hj.
  - inversion Hc. reflexivity.
  - inversion Hc as [|c p cs ps Htrim Hrest]; subst.
    apply Forall_cons_iff in Hj. destruct Hj as [Hn Hj]. cbn [fst] in Hn.
    cbn [scan valueOf]. rewrite Htrim. unfold pairText. cbn [fst snd].
    rewrite name_prefix by (apply name_free; assumption).
    destruct (streq n name) eqn:E.
    + apply streq_eq in E. subst n. cbn [decodedValue].
      now rewrite value_behind.
    + now apply IH.
Qed.

End Jar.

(** X21. Looking a cookie up in the cookie text finds the value of the
    first pair of that name and decodes it; no pair of that name gives
    null.  A pair whose name only ends with the name asked for is not
    taken for it.  (Names hold no semicolon, equals sign or white space,
    values no semicolon or white space.) *)
Theorem cookie_lookup (decodeURIComponent : jsstring -> decoded)
    (jar : list (jsstring * jsstring)) (name : jsstring) :
  isCookieName name ->
  Forall (fun p => isCookieName (fst p) /\ isCookieValue (snd p)) jar ->
  getCookie decodeURIComponent (cookieText jar) name =
  decodedValue decodeURIComponent (valueOf name jar).
Proof.
  intros Hname Hjar. unfold getCookie.
  destruct jar as [|p r]; [reflexivity|].
  assert (Hsolid : Forall (fun q =>
                     forallb (fun c => negb (isWhiteSpace c)) (pairText q) = true /\
                     ~ In ";"%char (pairText q)) (p :: r)).
  { apply Forall_forall. intros q Hq. rewrite Forall_forall in Hjar.
    destruct (Hjar q Hq) as [Hn Hv]. now apply pairText_solid. }
  assert (Hne : isEmpty (cookieText (p :: r)) = false).
  { cbn [cookieText]. unfold pairText.
    destruct r; now destruct (fst p). }
  rewrite Hne. cbn [negb].
  rewrite split_cookieText
    by (apply Forall_forall; intros q Hq; rewrite Forall_forall in Hsolid;
        now apply Hsolid).
  apply scan_jar; [exact Hname| |].
  - apply Forall_cons_iff in Hsolid. destruct Hsolid as [[Hp _] Hr].
    constructor; [now apply trim_solid|].
    clear -Hr. induction r as [|q r IH]; cbn [map]; constructor.
    + apply Forall_inv in Hr. destruct Hr as [Hq _].
      rewrite trim_after_space by reflexivity. now apply trim_solid.
    + apply IH. now apply Forall_inv_tail in Hr.
  - apply Forall_forall. intros q Hq. rewrite Forall_forall in Hjar.
    now destruct (Hjar q Hq).
Qed.

Lemma cookie_lookup_witness :
  getCookie Decoded (js "sessionid=abc123; xcsrftoken=no; csrftoken=t0ken")
    (js "csrftoken")
  = Found (Some (js "t0ken")).
Proof.
  apply (@cookie_lookup Decoded sampleJar (js "csrftoken")).
  - reflexivity.
  - repeat constructor.
Defined.

(* ================================================================== *)
(** * The message list and its charts *)
(* ================================================================== *)

Import History.

Lemma showMessage_fails (m : message) :
  showMessage m = Throw TypeError <->
  role m <> js "error" /\ role m <> js "user" /\ dividerLeads (content m).
Proof.
  unfold showMessage, dividerLeads.
  destruct (streq (role m) (js "error")) eqn:Ee.
  - apply streq_eq in Ee. split; [discriminate|]. intros [H _]. contradiction.
  - apply streq_neq in Ee.
    destruct (streq (role m) (js "user")) eqn:Eu.
    + apply streq_eq in Eu. split; [discriminate|]. intros [_ [H _]].
      contradiction.
    + apply streq_neq in Eu.
      rewrite <- throws_when_divider_first, <- GraphDisplay_throws.
      destruct (GraphDisplay (content m)) as [charts|e]; cbn [bind].
      * split; [discriminate|]. intros [_ [_ H]]. discriminate H.
      * destruct e. split; [now repeat split|reflexivity].
Qed.

(** X22. The message list of the first chat component fails to render
    exactly when some answer (a message that is neither an error nor
    the user's) holds a text whose first run of table lines has three
    lines or more and begins with a divider: one such answer takes the
    whole list with it. *)
Theorem one_answer_breaks_the_list (messages : list message) :
  showMessages messages = Throw TypeError <->
  exists m, In m messages /\
            role m <> js "error" /\ role m <> js "user" /\
            dividerLeads (content m).
Proof.
  induction messages as [|m messages IH]; cbn [showMessages].
  - split; [discriminate|]. intros [m [[] _]].
  - destruct (showMessage m) as [s|e] eqn:E; cbn [bind].
    + assert (Hm : ~ (role m <> js "error" /\ role m <> js "user" /\
                      dividerLeads (content m))).
      { intros H. apply showMessage_fails in H. congruence. }
      destruct (showMessages messages) as [ss|e'] eqn:Es; cbn [bind].
      * split; [discriminate|]. intros [x [[<-|Hx] H]]; [contradiction|].
        assert (Hex : exists m0, In m0 messages /\ role m0 <> js "error" /\
                        role m0 <> js "user" /\ dividerLeads (content m0))
          by now exists x.
        apply IH in Hex. discriminate Hex.
      * destruct e'. split; [intros _|reflexivity].
        destruct (proj1 IH eq_refl) as [x [Hx H]].
        exists x. split; [now right|exact H].
    + destruct e. split; [intros _|reflexivity].
      exists m. split; [now left|]. now apply showMessage_fails.
Qed.

Lemma one_answer_breaks_the_list_witness :
  showMessages
    [ {| role := js "user"; content := js "prices?" |};
      {| role := js "assistant"; content := dividerFirst |};
      {| role := js "assistant"; content := js "rising" |} ]
  = Throw TypeError.
Proof.
  apply (proj2 (one_answer_breaks_the_list
                  [ {| role := js "user"; content := js "prices?" |};
                    {| role := js "assistant"; content := dividerFirst |};
                    {| role := js "assistant"; content := js "rising" |} ])).
  exists {| role := js "assistant"; content := dividerFirst |}.
  split; [right; now left|].
  split; [discriminate|]. split; [discriminate|].
  split; [vm_compute; lia|reflexivity].
Defined.
